(** * lib2toast: lowering a blib2to3 parse tree to a Python [ast] tree

    A shallow embedding of [src/lib2toast/compile.py] and the properties of
    it that the specification states.

    - Part 1: Python values the module works on (exceptions, strings, lists,
      parse-tree nodes, [ast] nodes, token numbers).
    - Part 2: the module itself, function by function, in source order.
    - Part 3: the properties, method by method.
    - Part 4: the module run on small trees. *)

From Stdlib Require Import ZArith List String Ascii Bool Lia Arith DecimalString.
Import ListNotations.
Local Open Scope string_scope.
Local Open Scope list_scope.
Local Open Scope Z_scope.

Set Implicit Arguments.
Set Warnings "-register-all,-notation-for-abbreviation".

(* ===================================================================== *)
(** * Part 1. Python values                                              *)
(* ===================================================================== *)

(** ** Exceptions

    [UnsupportedSyntaxError] is the module's own class; the others are the
    builtin exceptions that its statements can raise ([assert], indexing a
    list, looking a key up in a dict, reading an attribute that an object
    does not have, exceeding the interpreter's recursion limit, and whatever
    [ast.literal_eval] raises on text it does not accept). *)

Inductive exn : Type :=
| UnsupportedSyntaxError (msg : string)
| NotImplementedError (msg : string)
| AssertionError
| IndexError
| KeyError
| AttributeError
| ValueError
| RecursionError.

(** A pure computation that may raise. *)
Definition result (A : Type) : Type := (exn + A)%type.

Definition ok {A} (a : A) : result A := inr a.
Definition throw {A} (e : exn) : result A := inl e.

Definition rbind {A B} (r : result A) (k : A -> result B) : result B :=
  match r with
  | inl e => inl e
  | inr a => k a
  end.

(** ** Strings: [len], [str.count] and [str.rfind] for a one-character
    needle, which is all the module uses. *)

Definition newline : ascii := "010"%char.

Definition len_str (s : string) : Z := Z.of_nat (String.length s).

Fixpoint str_count (s : string) (c : ascii) : Z :=
  match s with
  | EmptyString => 0
  | String a rest =>
      (if Ascii.eqb a c then 1 else 0) + str_count rest c
  end.

(** Highest index at which [c] occurs, [-1] when it does not. *)
Fixpoint str_rfind (s : string) (c : ascii) : Z :=
  match s with
  | EmptyString => -1
  | String a rest =>
      let r := str_rfind rest c in
      if 0 <=? r then r + 1
      else if Ascii.eqb a c then 0 else -1
  end.

(** ** Lists: indexing and the slices the module takes *)

Definition len {A} (l : list A) : Z := Z.of_nat (List.length l).

(** [l[i]]: a negative index counts from the end; out of range raises. *)
Definition getitem {A} (l : list A) (i : Z) : result A :=
  let j := if i <? 0 then i + len l else i in
  if j <? 0 then throw IndexError
  else match nth_error l (Z.to_nat j) with
       | Some a => ok a
       | None => throw IndexError
       end.

(** [l[::2]] *)
Fixpoint every_other {A} (l : list A) : list A :=
  match l with
  | [] => []
  | a :: rest =>
      a :: match rest with
           | [] => []
           | _ :: rest' => every_other rest'
           end
  end.

(** [l[:-1]], [l[:-2]] and [l[1:]] *)
Definition drop_last {A} (l : list A) : list A := removelast l.
Definition drop_last2 {A} (l : list A) : list A := removelast (removelast l).
Definition drop_first {A} (l : list A) : list A := tl l.

(** [range(start, stop, 2)] *)
Fixpoint range_by2_aux (n : nat) (start stop : Z) : list Z :=
  match n with
  | O => []
  | S n' =>
      if start <? stop then start :: range_by2_aux n' (start + 2) stop else []
  end.

Definition range_by2 (start stop : Z) : list Z :=
  range_by2_aux (Z.to_nat (stop - start)) start stop.

(** ** Parse-tree nodes ([blib2to3.pytree]): [NL = Union[Node, Leaf]].

    A leaf carries its token number, its text and where it starts; a node
    carries its grammar-symbol number and its children. *)

Record Leaf : Type := mkLeaf {
  leaf_type : Z;
  value : string;
  lineno : Z;
  column : Z
}.

Inductive NL : Type :=
| NLeaf (leaf : Leaf)
| Node (type : Z) (children : list NL).

(** [node.type] *)
Definition type_of (node : NL) : Z :=
  match node with
  | NLeaf leaf => leaf_type leaf
  | Node t _ => t
  end.

(** [node.children]: a leaf has the empty list. *)
Definition children_of (node : NL) : list NL :=
  match node with
  | NLeaf _ => []
  | Node _ cs => cs
  end.

(** [node.value]: only a leaf has the attribute. *)
Definition value_of (node : NL) : result string :=
  match node with
  | NLeaf leaf => ok (value leaf)
  | Node _ _ => throw AttributeError
  end.

(** [isinstance(node, Leaf)] *)
Definition is_Leaf (node : NL) : bool :=
  match node with
  | NLeaf _ => true
  | Node _ _ => false
  end.

(** A value that is either a node or [None]; reading an attribute of [None]
    raises. *)
Definition type_of_opt (node : option NL) : result Z :=
  match node with
  | Some n => ok (type_of n)
  | None => throw AttributeError
  end.

(** ** Token numbers: the constants of [blib2to3.pgen2.token] that the module
    names. *)

Module token.
Definition ENDMARKER : Z := 0.
Definition NAME : Z := 1.
Definition NUMBER : Z := 2.
Definition STRING : Z := 3.
Definition NEWLINE : Z := 4.
Definition INDENT : Z := 5.
Definition DEDENT : Z := 6.
Definition LPAR : Z := 7.
Definition RPAR : Z := 8.
Definition LSQB : Z := 9.
Definition RSQB : Z := 10.
Definition COLON : Z := 11.
Definition COMMA : Z := 12.
Definition SEMI : Z := 13.
Definition PLUS : Z := 14.
Definition MINUS : Z := 15.
Definition STAR : Z := 16.
Definition SLASH : Z := 17.
Definition VBAR : Z := 18.
Definition AMPER : Z := 19.
Definition LESS : Z := 20.
Definition GREATER : Z := 21.
Definition EQUAL : Z := 22.
Definition DOT : Z := 23.
Definition PERCENT : Z := 24.
Definition BACKQUOTE : Z := 25.
Definition LBRACE : Z := 26.
Definition RBRACE : Z := 27.
Definition EQEQUAL : Z := 28.
Definition NOTEQUAL : Z := 29.
Definition LESSEQUAL : Z := 30.
Definition GREATEREQUAL : Z := 31.
Definition TILDE : Z := 32.
Definition CIRCUMFLEX : Z := 33.
Definition LEFTSHIFT : Z := 34.
Definition RIGHTSHIFT : Z := 35.
Definition DOUBLESTAR : Z := 36.
Definition DOUBLESLASH : Z := 48.
Definition AT : Z := 50.
Definition AWAIT : Z := 56.
Definition ASYNC : Z := 57.
Definition COLONEQUAL : Z := 59.
End token.

(** Grammar-symbol numbers ([pygram.python_symbols]): the parser generator
    assigns them from the grammar file, so they are a parameter here. *)
Record python_symbols : Type := mkSymbols {
  arglist : Z;
  comp_for : Z;
  dictsetmaker : Z;
  listmaker : Z;
  old_comp_for : Z;
  sliceop : Z;
  star_expr : Z;
  testlist_gexp : Z
}.

(** ** [ast] nodes *)

Inductive expr_context : Type := Load | Store | Del.

Inductive operator : Type :=
| Add | Sub | Mult | Div | MatMult | FloorDiv | Mod | Pow
| LShift | RShift | BitAnd | BitOr | BitXor.

Inductive cmpop : Type :=
| Eq | NotEq | Lt | Gt | LtE | GtE | Is | IsNot | In | NotIn.

Inductive unaryop : Type := UAdd | USub | Invert | Not.

Inductive boolop : Type := And | Or.

(** [LineRange], the [TypedDict] passed as [**kwargs] to every constructor. *)
Record LineRange : Type := mkLineRange {
  r_lineno : Z;
  r_col_offset : Z;
  r_end_lineno : Z;
  r_end_col_offset : Z
}.

Section Ast.
(** What [ast.literal_eval] returns for a number or a string. *)
Variable literal : Type.

Inductive constant : Type :=
| Ellipsis
| Literal (v : literal).

Inductive AST : Type :=
(* mod, stmt *)
| Module (body : list AST) (type_ignores : list AST) (r : LineRange)
| Expr (val : AST) (r : LineRange)
(* expr *)
| Name (id : string) (ctx : expr_context) (r : LineRange)
| Constant (cval : constant) (r : LineRange)
| BinOp (left : AST) (op : operator) (right : AST) (r : LineRange)
| BoolOp (bop : boolop) (values : list AST) (r : LineRange)
| UnaryOp (uop : unaryop) (operand : AST) (r : LineRange)
| Compare (left : AST) (ops : list cmpop) (comparators : list AST)
          (r : LineRange)
| Call (func : AST) (args : list AST) (keywords : list AST) (r : LineRange)
| Attribute (val : AST) (attr : string) (ctx : expr_context) (r : LineRange)
| Subscript (val : AST) (slice : AST) (ctx : expr_context) (r : LineRange)
| Slice (lower upper step : option AST) (r : LineRange)
| Tuple (elts : list AST) (ctx : expr_context) (r : LineRange)
| List (elts : list AST) (ctx : expr_context) (r : LineRange)
| Set_ (elts : list AST) (ctx : expr_context) (r : LineRange)
| Dict (keys : list (option AST)) (values : list AST) (r : LineRange)
| ListComp (elt : AST) (generators : list AST) (r : LineRange)
| SetComp (elt : AST) (generators : list AST) (r : LineRange)
| DictComp (key : option AST) (val : AST) (generators : list AST) (r : LineRange)
| GeneratorExp (elt : AST) (generators : list AST) (r : LineRange)
| NamedExpr (target : AST) (val : AST) (r : LineRange)
| Starred (val : AST) (ctx : expr_context) (r : LineRange)
| IfExp (test : AST) (body : AST) (orelse : AST) (r : LineRange)
| Await (val : AST) (r : LineRange)
(* keyword, comprehension *)
| keyword (arg : option string) (val : AST) (r : LineRange)
| comprehension (target : AST) (iter : AST) (ifs : list AST) (is_async : Z)
(* type_param; [default_value] is [None] where the constructor is called
   without it *)
| TypeVar (name : string) (bound : option AST) (default_value : option AST)
          (r : LineRange)
| ParamSpec (name : string) (default_value : option AST) (r : LineRange)
| TypeVarTuple (name : string) (default_value : option AST) (r : LineRange).

(** [isinstance(x, ast.expr)] *)
Definition is_expr (x : AST) : bool :=
  match x with
  | Module _ _ _ | Expr _ _ | keyword _ _ _ | comprehension _ _ _ _
  | TypeVar _ _ _ _ | ParamSpec _ _ _ | TypeVarTuple _ _ _ => false
  | _ => true
  end.

(** [isinstance(x, ast.Name)] *)
Definition is_Name (x : AST) : bool :=
  match x with
  | Name _ _ _ => true
  | _ => false
  end.
End Ast.

Arguments Ellipsis {literal}.
Arguments Literal {literal} v.
Arguments Module {literal}.
Arguments Expr {literal}.
Arguments Name {literal}.
Arguments Constant {literal}.
Arguments BinOp {literal}.
Arguments BoolOp {literal}.
Arguments UnaryOp {literal}.
Arguments Compare {literal}.
Arguments Call {literal}.
Arguments Attribute {literal}.
Arguments Subscript {literal}.
Arguments Slice {literal}.
Arguments Tuple {literal}.
Arguments List {literal}.
Arguments Set_ {literal}.
Arguments Dict {literal}.
Arguments ListComp {literal}.
Arguments SetComp {literal}.
Arguments DictComp {literal}.
Arguments GeneratorExp {literal}.
Arguments NamedExpr {literal}.
Arguments Starred {literal}.
Arguments IfExp {literal}.
Arguments Await {literal}.
Arguments keyword {literal}.
Arguments comprehension {literal}.
Arguments TypeVar {literal}.
Arguments ParamSpec {literal}.
Arguments TypeVarTuple {literal}.

(* ===================================================================== *)
(** * Part 2. The module                                                 *)
(* ===================================================================== *)

(** ** The lowering monad

    The one piece of state a [Compiler] mutates is [self.expr_context]. A
    method call is a function from the context on entry to an outcome (a
    value or a raised exception) and the context on exit: an exception does
    not undo an assignment to the attribute. *)

Definition M (A : Type) : Type := expr_context -> result A * expr_context.

Definition ret {A} (a : A) : M A := fun s => (inr a, s).

Definition raise {A} (e : exn) : M A := fun s => (inl e, s).

Definition bind {A B} (m : M A) (k : A -> M B) : M B :=
  fun s =>
    match m s with
    | (inl e, s') => (inl e, s')
    | (inr a, s') => k a s'
    end.

Definition lift {A} (r : result A) : M A := fun s => (r, s).

(** Reading and assigning [self.expr_context]. *)
Definition get_expr_context : M expr_context := fun s => (inr s, s).
Definition put_expr_context (c : expr_context) : M unit := fun _ => (inr tt, c).

(** [try: body finally: final] *)
Definition try_finally {A} (body : M A) (final : M unit) : M A :=
  fun s =>
    match body s with
    | (inl e, s') =>
        match final s' with
        | (inl e', s'') => (inl e', s'')
        | (inr _, s'') => (inl e, s'')
        end
    | (inr a, s') =>
        match final s' with
        | (inl e', s'') => (inl e', s'')
        | (inr _, s'') => (inr a, s'')
        end
    end.

Definition assert (b : bool) : M unit :=
  if b then ret tt else raise AssertionError.

Declare Scope lowering_scope.
Delimit Scope lowering_scope with lowering.
Notation "x <- m ;; k" := (bind m (fun x => k))
  (at level 100, m at next level, right associativity) : lowering_scope.
Notation "' p <- m ;; k" := (bind m (fun x => match x with p => k end))
  (at level 100, p pattern, m at next level, right associativity)
  : lowering_scope.
Notation "m ;; k" := (bind m (fun _ => k))
  (at level 100, right associativity) : lowering_scope.
Local Open Scope lowering_scope.

(** [for x in xs: acc = body(x, acc)] *)
Fixpoint for_each {X S} (xs : list X) (body : X -> S -> M S) (acc : S) : M S :=
  match xs with
  | [] => ret acc
  | x :: xs' => acc' <- body x acc ;; for_each xs' body acc'
  end.

(** [[f(x) for x in xs]] *)
Fixpoint map_M {X Y} (f : X -> M Y) (xs : list X) : M (list Y) :=
  match xs with
  | [] => ret []
  | x :: xs' => y <- f x ;; ys <- map_M f xs' ;; ret (y :: ys)
  end.

(** ** Line ranges *)

Definition get_line_range_for_leaf (leaf : Leaf) : LineRange :=
  let num_newlines := str_count (value leaf) newline in
  let end_col_offset :=
    if num_newlines =? 0 then column leaf + len_str (value leaf)
    else len_str (value leaf) - str_rfind (value leaf) newline - 1 in
  {| r_lineno := lineno leaf;
     r_col_offset := column leaf;
     r_end_lineno := lineno leaf + num_newlines;
     r_end_col_offset := end_col_offset |}.

Definition unify_line_ranges (begin_range end_range : LineRange) : LineRange :=
  {| r_lineno := r_lineno begin_range;
     r_col_offset := r_col_offset begin_range;
     r_end_lineno := r_end_lineno end_range;
     r_end_col_offset := r_end_col_offset end_range |}.

(** The range of the last item of [cs], [sofar] when there is none. *)
Definition range_of_last (range : NL -> result LineRange)
  : list NL -> result LineRange -> result LineRange :=
  fix of_last (cs : list NL) (sofar : result LineRange) {struct cs} :=
    match cs with
    | [] => sofar
    | c :: cs' => of_last cs' (range c)
    end.

(** The recursion goes into [children[0]] and [children[-1]]; it is written
    over the list of children, and [get_line_range_Node] below is the
    equation of the source. *)
Fixpoint get_line_range (node : NL) : result LineRange :=
  match node with
  | NLeaf leaf => ok (get_line_range_for_leaf leaf)
  | Node _ children =>
      match children with
      | [] => throw IndexError
      | first :: rest =>
          rbind (get_line_range first) (fun begin_range =>
          rbind (range_of_last get_line_range rest (ok begin_range))
                (fun end_range =>
          ok (unify_line_ranges begin_range end_range)))
      end
  end.

(** [get_line_range] of a value that may be [None]. *)
Definition get_line_range_opt (node : option NL) : result LineRange :=
  match node with
  | Some n => get_line_range n
  | None => throw AttributeError
  end.

(** ** Operator tables *)

Definition TOKEN_TYPE_TO_BINOP (t : Z) : result operator :=
  if t =? token.PLUS then ok Add
  else if t =? token.MINUS then ok Sub
  else if t =? token.STAR then ok Mult
  else if t =? token.SLASH then ok Div
  else if t =? token.AT then ok MatMult
  else if t =? token.DOUBLESLASH then ok FloorDiv
  else if t =? token.PERCENT then ok Mod
  else if t =? token.DOUBLESTAR then ok Pow
  else if t =? token.LEFTSHIFT then ok LShift
  else if t =? token.RIGHTSHIFT then ok RShift
  else if t =? token.AMPER then ok BitAnd
  else if t =? token.VBAR then ok BitOr
  else if t =? token.CIRCUMFLEX then ok BitXor
  else throw KeyError.

Definition TOKEN_TYPE_TO_COMPARE_OP (t : Z) : result cmpop :=
  if t =? token.EQEQUAL then ok Eq
  else if t =? token.NOTEQUAL then ok NotEq
  else if t =? token.LESS then ok Lt
  else if t =? token.GREATER then ok Gt
  else if t =? token.LESSEQUAL then ok LtE
  else if t =? token.GREATEREQUAL then ok GtE
  else throw KeyError.

Definition NAME_TO_COMPARE_OP (name : string) : result cmpop :=
  if String.eqb name "is" then ok Is
  else if String.eqb name "in" then ok In
  else throw KeyError.

Definition TOKEN_TYPE_TO_UNARY_OP (t : Z) : result unaryop :=
  if t =? token.PLUS then ok UAdd
  else if t =? token.MINUS then ok USub
  else if t =? token.TILDE then ok Invert
  else throw KeyError.

(** ** [_Consumer]

    [index] counts the children consumed so far: it starts at 0 and is only
    ever incremented, so it is a natural number. *)

Record _Consumer : Type := mk_Consumer {
  c_children : list NL;
  index : nat
}.

Definition new_Consumer (children : list NL) : _Consumer :=
  {| c_children := children; index := 0 |}.

(** [consumer.consume(typ)]: the returned node (or [None]) and the consumer
    afterwards. *)
Definition consume (self : _Consumer) (typ : option Z) : option NL * _Consumer :=
  let current := nth_error (c_children self) (index self) in
  if (index self <? List.length (c_children self))%nat
     && match typ with
        | None => true
        | Some t =>
            match current with
            | Some node => type_of node =? t
            | None => false
            end
        end
  then (current, {| c_children := c_children self; index := S (index self) |})
  else (None, self).

Definition done (self : _Consumer) : bool :=
  (List.length (c_children self) <=? index self)%nat.

(** ** What the module takes from its surroundings

    - [version_info]: the first two items of [sys.version_info], which is
      all that a comparison with a pair looks at;
    - [syms]: [pygram.python_symbols];
    - [token_type_to_name], [node_type_to_name]: the two fields of
      [Visitor] (by default [token.tok_name] and [pytree.type_repr]);
    - [literal_eval]: [ast.literal_eval];
    - [repr]: [repr] of a parse-tree node. *)

Record Env (literal : Type) : Type := mkEnv {
  version_info : Z * Z;
  syms : python_symbols;
  token_type_to_name : Z -> option string;
  node_type_to_name : Z -> string;
  literal_eval : string -> result literal;
  repr : NL -> string
}.

(** [v >= w] and [v < w] on version tuples. *)
Definition version_ge (v w : Z * Z) : bool :=
  (fst w <? fst v) || ((fst v =? fst w) && (snd w <=? snd v)).

Definition version_lt (v w : Z * Z) : bool :=
  (fst v <? fst w) || ((fst v =? fst w) && (snd v <? snd w)).

Section Compiler.
Variable literal : Type.
Variable env : Env literal.

Local Notation AST := (AST literal).

(** [self]: the three methods through which lowering recurses. Every other
    method is called where the source calls it. *)
Record Self : Type := mkSelf {
  self_visit : NL -> M AST;
  self_compile_comprehension : NL -> M (list AST);
  self_compile_comp_iter : NL -> M (list AST * list AST)
}.

Variable self : Self.

(** [self.visit(x)] where [x] may be [None]. *)
Definition visit_opt (node : option NL) : M AST :=
  match node with
  | Some n => self_visit self n
  | None => raise AttributeError
  end.

(** *** [Visitor] *)

Definition get_node_name (node : NL) : result string :=
  if type_of node <? 256 then
    match token_type_to_name env (type_of node) with
    | Some name => ok name
    | None => throw KeyError
    end
  else ok (node_type_to_name env (type_of node)).

Definition generic_visit (node : NL) : M AST :=
  name <- lift (get_node_name node) ;;
  raise (NotImplementedError ("visit_" ++ name)%string).

(** *** [Compiler.set_expr_context] *)

Definition set_expr_context {A} (expr_context : expr_context) (body : M A)
  : M A :=
  old_expr_context <- get_expr_context ;;
  put_expr_context expr_context ;;
  try_finally body (put_expr_context old_expr_context).

(** *** Type parameters *)

Definition visit_typevar (node : NL) : M AST :=
  let children := children_of node in
  if version_ge (version_info env) (3, 12) then
    ' (bound, default) <-
      for_each [1; 3]
        (fun index (acc : option AST * option AST) =>
           let '(bound, default) := acc in
           if index <? len children then
             punc <- lift (getitem children index) ;;
             if type_of punc =? token.COLON then
               child <- lift (getitem children (index + 1)) ;;
               b <- self_visit self child ;;
               ret (Some b, default)
             else if type_of punc =? token.EQUAL then
               child <- lift (getitem children (index + 1)) ;;
               d <- self_visit self child ;;
               ret (bound, Some d)
             else ret acc
           else ret acc)
        (None, None) ;;
    if version_ge (version_info env) (3, 13) then
      first <- lift (getitem children 0) ;;
      name <- lift (value_of first) ;;
      r <- lift (get_line_range node) ;;
      ret (TypeVar name bound default r)
    else
      match default with
      | Some _ =>
          if version_lt (version_info env) (3, 13)
          then raise (UnsupportedSyntaxError "TypeVar default")
          else ret tt
      | None => ret tt
      end ;;
      first <- lift (getitem children 0) ;;
      name <- lift (value_of first) ;;
      r <- lift (get_line_range node) ;;
      ret (TypeVar name bound None r)
  else raise (UnsupportedSyntaxError "TypeVar").

Definition visit_paramspec (node : NL) : M AST :=
  let children := children_of node in
  if version_ge (version_info env) (3, 13) then
    default_value <-
      (if len children =? 4 then
         child <- lift (getitem children 3) ;;
         d <- self_visit self child ;;
         ret (Some d)
       else ret None) ;;
    first <- lift (getitem children 0) ;;
    name <- lift (value_of first) ;;
    r <- lift (get_line_range node) ;;
    ret (ParamSpec name default_value r)
  else if version_ge (version_info env) (3, 12) then
    first <- lift (getitem children 0) ;;
    name <- lift (value_of first) ;;
    r <- lift (get_line_range node) ;;
    ret (ParamSpec name None r)
  else raise (UnsupportedSyntaxError "ParamSpec").

Definition visit_typevartuple (node : NL) : M AST :=
  let children := children_of node in
  if version_ge (version_info env) (3, 13) then
    default_value <-
      (if len children =? 4 then
         child <- lift (getitem children 3) ;;
         d <- self_visit self child ;;
         ret (Some d)
       else ret None) ;;
    first <- lift (getitem children 0) ;;
    name <- lift (value_of first) ;;
    r <- lift (get_line_range node) ;;
    ret (TypeVarTuple name default_value r)
  else if version_ge (version_info env) (3, 12) then
    first <- lift (getitem children 0) ;;
    name <- lift (value_of first) ;;
    r <- lift (get_line_range node) ;;
    ret (TypeVarTuple name None r)
  else raise (UnsupportedSyntaxError "TypeVarTuple").

Definition visit_typeparam (node : NL) : M AST :=
  child <- lift (getitem (children_of node) 0) ;;
  self_visit self child.

Definition visit_file_input (node : NL) : M AST :=
  (* skip ENDMARKER *)
  body <- map_M (self_visit self) (drop_last (children_of node)) ;;
  r <- lift (get_line_range node) ;;
  ret (Module body [] r).

(** *** Statements *)

Definition visit_simple_stmt (node : NL) : M AST :=
  child <- lift (getitem (children_of node) 0) ;;
  val <- self_visit self child ;;
  if is_expr val then
    child' <- lift (getitem (children_of node) 0) ;;
    r <- lift (get_line_range child') ;;
    ret (Expr val r)
  else ret val.

(** *** Expressions *)

Definition visit_testlist_gexp (node : NL) (parent_node : option NL)
  : M AST :=
  let parent_node :=
    match parent_node with
    | None => node
    | Some p => p
    end in
  let children := children_of node in
  second <- lift (getitem children 1) ;;
  if type_of second =? old_comp_for (syms env) then
    first <- lift (getitem children 0) ;;
    elt <- self_visit self first ;;
    second' <- lift (getitem children 1) ;;
    comps <- self_compile_comprehension self second' ;;
    r <- lift (get_line_range parent_node) ;;
    ret (GeneratorExp elt comps r)
  else
    elts <- map_M (self_visit self) (every_other children) ;;
    ctx <- get_expr_context ;;
    r <- lift (get_line_range parent_node) ;;
    ret (Tuple elts ctx r).

Definition _compile_named_expr (children : list (option NL)) : M AST :=
  target <-
    set_expr_context Store
      (first <- lift (getitem children 0) ;; visit_opt first) ;;
  if negb (is_Name target) then
    raise (UnsupportedSyntaxError "walrus target must be a name")
  else
    third <- lift (getitem children 2) ;;
    value <- visit_opt third ;;
    first <- lift (getitem children 0) ;;
    r0 <- lift (get_line_range_opt first) ;;
    third' <- lift (getitem children 2) ;;
    r2 <- lift (get_line_range_opt third') ;;
    ret (NamedExpr target value (unify_line_ranges r0 r2)).

(** The brace branch of [visit_atom] keeps five local variables across the
    iterations of its [while] loop. *)
Record brace_state : Type := mkBrace {
  consumer : _Consumer;
  is_dict : bool;
  keys : list (option AST);
  values : list AST;
  elts : list AST
}.

(** How one iteration of a loop ends: with the next state, or with a
    [return]. *)
Inductive loop_step : Type :=
| Continue (st : brace_state)
| Return (a : AST).

(** Lines 329-347: a comprehension clause follows the element just read. *)
Definition brace_comprehension (node : NL) (st : brace_state) (comp_for : NL)
  : M AST :=
  comps <- self_compile_comprehension self comp_for ;;
  if is_dict st then
    assert (len (keys st) =? 1) ;;
    assert (len (values st) =? 1) ;;
    assert (match elts st with [] => true | _ => false end) ;;
    key <- lift (getitem (keys st) 0) ;;
    value <- lift (getitem (values st) 0) ;;
    r <- lift (get_line_range node) ;;
    ret (DictComp key value comps r)
  else
    assert (len (elts st) =? 1) ;;
    assert (match keys st with [] => true | _ => false end) ;;
    assert (match values st with [] => true | _ => false end) ;;
    elt <- lift (getitem (elts st) 0) ;;
    r <- lift (get_line_range node) ;;
    ret (SetComp elt comps r).

(** Lines 302-328: read one element. *)
Definition brace_element (st : brace_state) : M (brace_state * bool) :=
  let '(dstar, c1) := consume (consumer st) (Some token.DOUBLESTAR) in
  match dstar with
  | Some _ =>
      let '(expr, c2) := consume c1 None in
      v <- visit_opt expr ;;
      ret (mkBrace c2 true (keys st ++ [None]) (values st ++ [v]) (elts st),
           false)
  | None =>
      let '(star, c2) := consume c1 (Some (star_expr (syms env))) in
      match star with
      | Some star_node =>
          let '(operand, c3) := consume c2 None in
          v <- visit_opt operand ;;
          ctx <- get_expr_context ;;
          r <- lift (get_line_range star_node) ;;
          ret (mkBrace c3 (is_dict st) (keys st) (values st)
                       (elts st ++ [Starred v ctx r]),
               false)
      | None =>
          let '(key_node, c3) := consume c2 None in
          let '(walrus, c4) := consume c3 (Some token.COLONEQUAL) in
          match walrus with
          | Some w =>
              let '(value_node, c5) := consume c4 None in
              elt <- _compile_named_expr [key_node; Some w; value_node] ;;
              ret (mkBrace c5 (is_dict st) (keys st) (values st)
                           (elts st ++ [elt]),
                   true)
          | None =>
              let '(colon, c5) := consume c4 (Some token.COLON) in
              match colon with
              | Some _ =>
                  key <- visit_opt key_node ;;
                  let '(value_node, c6) := consume c5 None in
                  value <- visit_opt value_node ;;
                  ret (mkBrace c6 true (keys st ++ [Some key])
                               (values st ++ [value]) (elts st),
                       true)
              | None =>
                  elt <- visit_opt key_node ;;
                  ret (mkBrace c5 (is_dict st) (keys st) (values st)
                               (elts st ++ [elt]),
                       true)
              end
          end
      end
  end.

(** One iteration of the [while] loop. The flag that [brace_element] returns
    says whether the element was read by the last [else] branch, the only
    one that looks for a comprehension clause. *)
Definition brace_step (node : NL) (st : brace_state) : M loop_step :=
  ' (st1, plain) <- brace_element st ;;
  let '(comp, c) :=
    if plain then consume (consumer st1) (Some (comp_for (syms env)))
    else (None, consumer st1) in
  match comp with
  | Some comp_for_node =>
      a <- brace_comprehension node st1 comp_for_node ;;
      ret (Return a)
  | None =>
      if negb (done c) then
        let '(comma, c') := consume c (Some token.COMMA) in
        assert (match comma with Some _ => true | None => false end) ;;
        ret (Continue (mkBrace c' (is_dict st1) (keys st1) (values st1)
                               (elts st1)))
      else
        ret (Continue (mkBrace c (is_dict st1) (keys st1) (values st1)
                               (elts st1)))
  end.

(** Lines 351-357: the loop has run to the end of the children. *)
Definition brace_finish (node : NL) (st : brace_state) : M AST :=
  if is_dict st then
    assert (match elts st with [] => true | _ => false end) ;;
    r <- lift (get_line_range node) ;;
    ret (Dict (keys st) (values st) r)
  else
    assert (match keys st with [] => true | _ => false end) ;;
    assert (match values st with [] => true | _ => false end) ;;
    ctx <- get_expr_context ;;
    r <- lift (get_line_range node) ;;
    ret (Set_ (elts st) ctx r).

(** [while not consumer.done(): ...]. Every iteration consumes a child, so
    the loop runs at most as many times as there are children; [n] is that
    bound, and [brace_loop_bound] shows that it is never used up. *)
Fixpoint brace_loop (n : nat) (node : NL) (st : brace_state) : M AST :=
  if done (consumer st) then brace_finish node st
  else
    match n with
    | O => raise RecursionError
    | S n' =>
        step <- brace_step node st ;;
        match step with
        | Return a => ret a
        | Continue st' => brace_loop n' node st'
        end
    end.

Definition visit_atom (node : NL) : M AST :=
  let children := children_of node in
  first <- lift (getitem children 0) ;;
  if type_of first =? token.LPAR then
    if len children =? 2 then
      ctx <- get_expr_context ;;
      r <- lift (get_line_range node) ;;
      ret (Tuple [] ctx r)
    else
      (* tuples, parenthesized expressions *)
      second <- lift (getitem children 1) ;;
      if type_of second =? testlist_gexp (syms env) then
        visit_testlist_gexp second (Some node)
      else self_visit self second
  else if type_of first =? token.LSQB then
    if len children =? 2 then
      ctx <- get_expr_context ;;
      r <- lift (get_line_range node) ;;
      ret (List [] ctx r)
    else
      (* lists *)
      inner <- lift (getitem children 1) ;;
      if negb (type_of inner =? listmaker (syms env)) then
        elt <- self_visit self inner ;;
        ctx <- get_expr_context ;;
        r <- lift (get_line_range node) ;;
        ret (List [elt] ctx r)
      else
        second <- lift (getitem (children_of inner) 1) ;;
        if type_of second =? old_comp_for (syms env) then
          head <- lift (getitem (children_of inner) 0) ;;
          elt <- self_visit self head ;;
          comps <- self_compile_comprehension self second ;;
          r <- lift (get_line_range node) ;;
          ret (ListComp elt comps r)
        else
          elts <- map_M (self_visit self) (every_other (children_of inner)) ;;
          ctx <- get_expr_context ;;
          r <- lift (get_line_range node) ;;
          ret (List elts ctx r)
  else if type_of first =? token.LBRACE then
    if len children =? 2 then
      r <- lift (get_line_range node) ;;
      ret (Dict [] [] r)
    else
      (* sets, dicts *)
      inner <- lift (getitem children 1) ;;
      if negb (type_of inner =? dictsetmaker (syms env)) then
        elt <- self_visit self inner ;;
        ctx <- get_expr_context ;;
        r <- lift (get_line_range node) ;;
        ret (Set_ [elt] ctx r)
      else
        brace_loop (List.length (children_of inner)) node
          (mkBrace (new_Consumer (children_of inner)) false [] [] [])
  else if type_of first =? token.DOT then
    (* ellipsis *)
    assert (len children =? 3) ;;
    assert (forallb (fun child => type_of child =? token.DOT) children) ;;
    r <- lift (get_line_range node) ;;
    ret (Constant Ellipsis r)
  else if type_of first =? token.BACKQUOTE then
    r <- lift (get_line_range node) ;;
    let callee := Name "repr" Load r in
    second <- lift (getitem children 1) ;;
    arg <- self_visit self second ;;
    r' <- lift (get_line_range node) ;;
    ret (Call callee [arg] [] r')
  else
    raise (NotImplementedError (repr env node)).

Definition visit_expr (node : NL) : M AST :=
  let children := children_of node in
  first <- lift (getitem children 0) ;;
  op <- self_visit self first ;;
  first' <- lift (getitem children 0) ;;
  begin_range <- lift (get_line_range first') ;;
  for_each (range_by2 2 (len children))
    (fun child_index op =>
       child <- lift (getitem children child_index) ;;
       operator <- lift (getitem children (child_index - 1)) ;;
       binop <- lift (TOKEN_TYPE_TO_BINOP (type_of operator)) ;;
       right <- self_visit self child ;;
       r <- lift (get_line_range child) ;;
       ret (BinOp op binop right (unify_line_ranges begin_range r)))
    op.

Definition visit_xor_expr := visit_expr.
Definition visit_and_expr := visit_expr.
Definition visit_shift_expr := visit_expr.
Definition visit_arith_expr := visit_expr.
Definition visit_term := visit_expr.

(** Lines 401-414 of [visit_comparison]: the operator of one link. *)
Definition compare_operator (operator_node : NL) : result cmpop :=
  if type_of operator_node =? token.NAME then
    rbind (value_of operator_node) NAME_TO_COMPARE_OP
  else if is_Leaf operator_node then
    TOKEN_TYPE_TO_COMPARE_OP (type_of operator_node)
  else
    (* is not, not in *)
    let children := children_of operator_node in
    if negb (len children =? 2) then throw AssertionError
    else
      rbind (getitem children 0) (fun c0 =>
      rbind (value_of c0) (fun v0 =>
      if String.eqb v0 "not" then
        rbind (getitem children 1) (fun c1 =>
        rbind (value_of c1) (fun v1 =>
        if String.eqb v1 "in" then ok NotIn else throw AssertionError))
      else
        rbind (getitem children 0) (fun c0' =>
        rbind (value_of c0') (fun v0' =>
        if negb (String.eqb v0' "is") then throw AssertionError
        else
          rbind (getitem children 1) (fun c1 =>
          rbind (value_of c1) (fun v1 =>
          if String.eqb v1 "not" then ok IsNot
          else throw AssertionError)))))).

Definition visit_comparison (node : NL) : M AST :=
  let children := children_of node in
  first <- lift (getitem children 0) ;;
  left <- self_visit self first ;;
  ' (ops, comparators) <-
    for_each (range_by2 2 (len children))
      (fun child_index (acc : list cmpop * list AST) =>
         let '(ops, comparators) := acc in
         child <- lift (getitem children child_index) ;;
         operator_node <- lift (getitem children (child_index - 1)) ;;
         operator <- lift (compare_operator operator_node) ;;
         right <- self_visit self child ;;
         assert (is_expr right) ;;
         ret (ops ++ [operator], comparators ++ [right]))
      ([], []) ;;
  r <- lift (get_line_range node) ;;
  ret (Compare left ops comparators r).

Definition visit_star_expr (node : NL) : M AST :=
  child <- lift (getitem (children_of node) 1) ;;
  value <- self_visit self child ;;
  ctx <- get_expr_context ;;
  r <- lift (get_line_range node) ;;
  ret (Starred value ctx r).

Definition visit_not_test (node : NL) : M AST :=
  child <- lift (getitem (children_of node) 1) ;;
  operand <- self_visit self child ;;
  r <- lift (get_line_range node) ;;
  ret (UnaryOp Not operand r).

(** The loop shared by [visit_and_test] and [visit_or_test]. *)
Definition bool_operands (node : NL) : M (list AST) :=
  for_each (every_other (children_of node))
    (fun child operands =>
       operand <- self_visit self child ;;
       assert (is_expr operand) ;;
       ret (operands ++ [operand]))
    [].

Definition visit_and_test (node : NL) : M AST :=
  operands <- bool_operands node ;;
  r <- lift (get_line_range node) ;;
  ret (BoolOp And operands r).

Definition visit_or_test (node : NL) : M AST :=
  operands <- bool_operands node ;;
  r <- lift (get_line_range node) ;;
  ret (BoolOp Or operands r).

(** [node.children[i].value == text] inside an [assert]. *)
Definition assert_value (children : list NL) (i : Z) (text : string) : M unit :=
  child <- lift (getitem children i) ;;
  v <- lift (value_of child) ;;
  assert (String.eqb v text).

Definition visit_test (node : NL) : M AST :=
  let children := children_of node in
  (* must be if-else *)
  assert (len children =? 5) ;;
  assert_value children 1 "if" ;;
  assert_value children 3 "else" ;;
  c2 <- lift (getitem children 2) ;;
  test <- self_visit self c2 ;;
  c0 <- lift (getitem children 0) ;;
  body <- self_visit self c0 ;;
  c4 <- lift (getitem children 4) ;;
  orelse <- self_visit self c4 ;;
  r <- lift (get_line_range node) ;;
  ret (IfExp test body orelse r).

Definition visit_factor (node : NL) : M AST :=
  let children := children_of node in
  c0 <- lift (getitem children 0) ;;
  op <- lift (TOKEN_TYPE_TO_UNARY_OP (type_of c0)) ;;
  c1 <- lift (getitem children 1) ;;
  operand <- self_visit self c1 ;;
  r <- lift (get_line_range node) ;;
  ret (UnaryOp op operand r).

(** The body of the [for argument in arguments] loop of [_compile_arglist]. *)
Definition compile_argument (node parent_node argument : NL)
  (acc : list AST * list AST) : M (list AST * list AST) :=
  let '(args, keywords) := acc in
  if is_Leaf argument then
    arg <- self_visit self argument ;;
    assert (is_expr arg) ;;
    ret (args ++ [arg], keywords)
  else
    let children := children_of argument in
    c0 <- lift (getitem children 0) ;;
    if type_of c0 =? token.STAR then
      c1 <- lift (getitem children 1) ;;
      value <- self_visit self c1 ;;
      r <- lift (get_line_range argument) ;;
      ret (args ++ [Starred value Load r], keywords)
    else if type_of c0 =? token.DOUBLESTAR then
      c1 <- lift (getitem children 1) ;;
      value <- self_visit self c1 ;;
      r <- lift (get_line_range argument) ;;
      ret (args, keywords ++ [keyword None value r])
    else if len children =? 1 then
      expr <- self_visit self c0 ;;
      assert (is_expr expr) ;;
      ret (args ++ [expr], keywords)
    else if len children =? 2 then
      inner <- self_visit self c0 ;;
      c1 <- lift (getitem children 1) ;;
      comps <- self_compile_comprehension self c1 ;;
      r <- lift (get_line_range parent_node) ;;
      ret (args ++ [GeneratorExp inner comps r], keywords)
    else
      c1 <- lift (getitem children 1) ;;
      if type_of c1 =? token.COLONEQUAL then
        walrus <- _compile_named_expr (map Some children) ;;
        if 3 <? len children then
          n3 <- lift (getitem (children_of node) 3) ;;
          comps <- self_compile_comprehension self n3 ;;
          r <- lift (get_line_range parent_node) ;;
          ret (args ++ [GeneratorExp walrus comps r], keywords)
        else ret (args ++ [walrus], keywords)
      else if type_of c1 =? token.EQUAL then
        target <-
          set_expr_context Store
            (c0' <- lift (getitem children 0) ;; self_visit self c0') ;;
        match target with
        | Name id _ _ =>
            c2 <- lift (getitem children 2) ;;
            value <- self_visit self c2 ;;
            r <- lift (get_line_range argument) ;;
            ret (args, keywords ++ [keyword (Some id) value r])
        | _ =>
            raise (UnsupportedSyntaxError
                     "keyword argument target must be a name")
        end
      else raise (NotImplementedError (repr env argument)).

(** The local variable [arguments] of [_compile_arglist]. *)
Definition arglist_arguments (node : NL) : list NL :=
  if is_Leaf node || negb (type_of node =? arglist (syms env))
  then [node]
  else every_other (children_of node).

Definition _compile_arglist (node parent_node : NL)
  : M (list AST * list AST) :=
  for_each (arglist_arguments node) (compile_argument node parent_node)
           ([], []).

Definition _visit_power_without_await (children : list NL) : M AST :=
  c0 <- lift (getitem children 0) ;;
  atom <- self_visit self c0 ;;
  begin_range <- lift (get_line_range c0) ;;
  for_each (drop_first children)
    (fun trailer atom =>
       let tchildren := children_of trailer in
       t0 <- lift (getitem tchildren 0) ;;
       if type_of t0 =? token.LPAR then (* call *)
         ' (args, keywords) <-
           (if len tchildren =? 2 then ret ([], [])
            else
              t1 <- lift (getitem tchildren 1) ;;
              _compile_arglist t1 trailer) ;;
         last <- lift (getitem tchildren (-1)) ;;
         r <- lift (get_line_range last) ;;
         ret (Call atom args keywords (unify_line_ranges begin_range r))
       else if type_of t0 =? token.LSQB then (* subscript *)
         t1 <- lift (getitem tchildren 1) ;;
         subscript <- self_visit self t1 ;;
         ctx <- get_expr_context ;;
         last <- lift (getitem tchildren (-1)) ;;
         r <- lift (get_line_range last) ;;
         ret (Subscript atom subscript ctx (unify_line_ranges begin_range r))
       else if type_of t0 =? token.DOT then (* attribute *)
         t1 <- lift (getitem tchildren 1) ;;
         attr <- lift (value_of t1) ;;
         ctx <- get_expr_context ;;
         r <- lift (get_line_range t1) ;;
         ret (Attribute atom attr ctx (unify_line_ranges begin_range r))
       else raise (NotImplementedError (repr env trailer)))
    atom.

Definition _visit_power_without_power (children : list NL) : M AST :=
  c0 <- lift (getitem children 0) ;;
  if type_of c0 =? token.AWAIT then
    r0 <- lift (get_line_range c0) ;;
    last <- lift (getitem children (-1)) ;;
    r1 <- lift (get_line_range last) ;;
    value <- _visit_power_without_await (drop_first children) ;;
    ret (Await value (unify_line_ranges r0 r1))
  else _visit_power_without_await children.

Definition visit_power (node : NL) : M AST :=
  let children := children_of node in
  is_pow <-
    (if 2 <? len children then
       c <- lift (getitem children (-2)) ;;
       ret (type_of c =? token.DOUBLESTAR)
     else ret false) ;;
  if is_pow : bool then
    last <- lift (getitem children (-1)) ;;
    operand <- self_visit self last ;;
    left <- _visit_power_without_power (drop_last2 children) ;;
    r <- lift (get_line_range node) ;;
    ret (BinOp left Pow operand r)
  else _visit_power_without_power children.

Definition _compile_comprehension (node : NL) : M (list AST) :=
  assert ((type_of node =? old_comp_for (syms env))
          || (type_of node =? comp_for (syms env))) ;;
  c0 <- lift (getitem (children_of node) 0) ;;
  let '(is_async, children) :=
    if type_of c0 =? token.ASYNC
    then (1, drop_first (children_of node))
    else (0, children_of node) in
  ' (ifs, comps) <-
    (if 4 <? len children then
       c4 <- lift (getitem children 4) ;;
       self_compile_comp_iter self c4
     else ret ([], [])) ;;
  target <-
    set_expr_context Store
      (c1 <- lift (getitem children 1) ;; self_visit self c1) ;;
  c3 <- lift (getitem children 3) ;;
  iter <- self_visit self c3 ;;
  ret (comprehension target iter ifs is_async :: comps).

Definition _compile_comp_iter (node : NL) : M (list AST * list AST) :=
  let children := children_of node in
  c0 <- lift (getitem children 0) ;;
  v0 <- lift (value_of c0) ;;
  if String.eqb v0 "if" then
    c1 <- lift (getitem children 1) ;;
    test <- self_visit self c1 ;;
    assert (is_expr test) ;;
    ' (ifs, comps) <-
      (if 2 <? len children then
         c2 <- lift (getitem children 2) ;;
         self_compile_comp_iter self c2
       else ret ([], [])) ;;
    ret (test :: ifs, comps)
  else
    comps <- self_compile_comprehension self node ;;
    ret ([], comps).

(** [leaf.value == token.COLONEQUAL] compares a [str] with an [int]. *)
Definition str_eq_int (s : string) (n : Z) : bool := false.

(** [step = self.visit(sliceop.children[1])] *)
Definition visit_sliceop (sliceop : NL) : M AST :=
  c <- lift (getitem (children_of sliceop) 1) ;;
  self_visit self c.

Definition visit_subscript (node : NL) : M AST :=
  let children := children_of node in
  is_walrus <-
    (if len children =? 3 then
       c1 <- lift (getitem children 1) ;;
       if is_Leaf c1 then
         v <- lift (value_of c1) ;;
         ret (str_eq_int v token.COLONEQUAL)
       else ret false
     else ret false) ;;
  if is_walrus : bool then _compile_named_expr (map Some children)
  else
    let consumer := new_Consumer children in
    let '(colon, consumer) := consume consumer (Some token.COLON) in
    ' (lower, consumer) <-
      match colon with
      | None =>
          let '(lower_node, consumer) := consume consumer None in
          lower <- visit_opt lower_node ;;
          let '(colon', consumer) := consume consumer (Some token.COLON) in
          assert (match colon' with Some _ => true | None => false end) ;;
          ret (Some lower, consumer)
      | Some _ => ret (None, consumer)
      end ;;
    let '(sliceop_node, consumer) := consume consumer (Some (sliceop (syms env))) in
    ' (upper, step) <-
      match sliceop_node with
      | Some so =>
          step <- visit_sliceop so ;;
          ret (None, Some step)
      | None =>
          let '(colon', consumer) := consume consumer (Some token.COLON) in
          match colon' with
          | None =>
              let '(upper_node, consumer) := consume consumer None in
              upper <-
                match upper_node with
                | None => ret None
                | Some n => u <- self_visit self n ;; ret (Some u)
                end ;;
              let '(sliceop_node, consumer) :=
                consume consumer (Some (sliceop (syms env))) in
              match sliceop_node with
              | Some so =>
                  step <- visit_sliceop so ;;
                  ret (upper, Some step)
              | None => ret (upper, None)
              end
          | Some _ => ret (None, None)
          end
      end ;;
    r <- lift (get_line_range node) ;;
    ret (Slice lower upper step r).

Definition visit_subscriptlist (node : NL) : M AST :=
  elts <- map_M (self_visit self) (every_other (children_of node)) ;;
  ctx <- get_expr_context ;;
  r <- lift (get_line_range node) ;;
  ret (Tuple elts ctx r).

(** *** Leaves *)

Definition visit_NAME (leaf : NL) : M AST :=
  id <- lift (value_of leaf) ;;
  ctx <- get_expr_context ;;
  r <- lift (get_line_range leaf) ;;
  ret (Name id ctx r).

Definition visit_NUMBER (leaf : NL) : M AST :=
  text <- lift (value_of leaf) ;;
  v <- lift (literal_eval env text) ;;
  r <- lift (get_line_range leaf) ;;
  ret (Constant (Literal v) r).

Definition visit_STRING (leaf : NL) : M AST :=
  text <- lift (value_of leaf) ;;
  v <- lift (literal_eval env text) ;;
  r <- lift (get_line_range leaf) ;;
  ret (Constant (Literal v) r).

Definition visit_COLON (leaf : NL) : M AST :=
  r <- lift (get_line_range leaf) ;;
  ret (Slice None None None r).

(** *** [Visitor.visit]

    [getattr(self, f"visit_{name}", self.generic_visit)]: the methods of
    [Compiler] whose name starts with [visit_], by the rest of their name. *)

Definition visit_methods : list (string * (NL -> M AST)) :=
  [ ("typevar", visit_typevar);
    ("paramspec", visit_paramspec);
    ("typevartuple", visit_typevartuple);
    ("typeparam", visit_typeparam);
    ("file_input", visit_file_input);
    ("simple_stmt", visit_simple_stmt);
    ("testlist_gexp", fun node => visit_testlist_gexp node None);
    ("atom", visit_atom);
    ("expr", visit_expr);
    ("xor_expr", visit_xor_expr);
    ("and_expr", visit_and_expr);
    ("shift_expr", visit_shift_expr);
    ("arith_expr", visit_arith_expr);
    ("term", visit_term);
    ("comparison", visit_comparison);
    ("star_expr", visit_star_expr);
    ("not_test", visit_not_test);
    ("and_test", visit_and_test);
    ("or_test", visit_or_test);
    ("test", visit_test);
    ("factor", visit_factor);
    ("power", visit_power);
    ("subscript", visit_subscript);
    ("subscriptlist", visit_subscriptlist);
    ("NAME", visit_NAME);
    ("NUMBER", visit_NUMBER);
    ("STRING", visit_STRING);
    ("COLON", visit_COLON) ].

Definition getattr_visit (name : string) : NL -> M AST :=
  match find (fun entry => String.eqb (fst entry) name) visit_methods with
  | Some entry => snd entry
  | None => generic_visit
  end.

Definition visit (node : NL) : M AST :=
  name <- lift (get_node_name node) ;;
  getattr_visit name node.

End Compiler.

(** ** Tying the knot

    [Compiler env depth] is a [Compiler] object that may nest method calls
    [depth] deep; Python raises [RecursionError] where the nesting goes
    further. *)

Fixpoint Compiler {literal} (env : Env literal) (depth : nat) : Self literal :=
  match depth with
  | O =>
      mkSelf (fun _ => raise RecursionError)
             (fun _ => raise RecursionError)
             (fun _ => raise RecursionError)
  | S d =>
      mkSelf (visit env (Compiler env d))
             (_compile_comprehension env (Compiler env d))
             (_compile_comp_iter (Compiler env d))
  end.

(** [Compiler().visit(tree)], as [compile] calls it on the tree it parsed:
    a new object starts in the [Load] context. *)
Definition compile_tree {literal} (env : Env literal) (depth : nat) (tree : NL)
  : result (AST literal) * expr_context :=
  self_visit (Compiler env depth) tree Load.

(* ===================================================================== *)
(** * Part 3. Properties                                                 *)
(* ===================================================================== *)

(** ** Running the monad *)

Section MonadFacts.
Variables A B : Type.

Lemma run_ret (a : A) s : ret a s = (inr a, s).
Proof. reflexivity. Qed.

Lemma run_raise (e : exn) s : @raise A e s = (inl e, s).
Proof. reflexivity. Qed.

Lemma run_lift (r : result A) s : lift r s = (r, s).
Proof. reflexivity. Qed.

Lemma run_bind_ok (m : M A) (k : A -> M B) s a s' :
  m s = (inr a, s') -> bind m k s = k a s'.
Proof. intros H. unfold bind. now rewrite H. Qed.

Lemma run_bind_raise (m : M A) (k : A -> M B) s e s' :
  m s = (inl e, s') -> bind m k s = (inl e, s').
Proof. intros H. unfold bind. now rewrite H. Qed.

Lemma run_bind_lift_ok (a : A) (k : A -> M B) s :
  bind (lift (ok a)) k s = k a s.
Proof. reflexivity. Qed.

End MonadFacts.

(** A method is balanced when it leaves [self.expr_context] as it found it,
    whether it returns or raises. *)
Definition preserves {A} (m : M A) : Prop := forall s, snd (m s) = s.

Section Preserves.
Variables A B : Type.

Lemma preserves_ret (a : A) : preserves (ret a).
Proof. intro s. reflexivity. Qed.

Lemma preserves_raise (e : exn) : preserves (@raise A e).
Proof. intro s. reflexivity. Qed.

Lemma preserves_lift (r : result A) : preserves (lift r).
Proof. intro s. reflexivity. Qed.

Lemma preserves_get : preserves get_expr_context.
Proof. intro s. reflexivity. Qed.

Lemma preserves_assert (b : bool) : preserves (assert b).
Proof. intro s. destruct b; reflexivity. Qed.

Lemma preserves_bind (m : M A) (k : A -> M B) :
  preserves m -> (forall a, preserves (k a)) -> preserves (bind m k).
Proof.
  intros Hm Hk s. unfold bind. specialize (Hm s).
  destruct (m s) as [[e | a] s']; simpl in Hm; subst s'.
  - reflexivity.
  - apply Hk.
Qed.

(** The [with] block gives the context back on every exit, whatever its
    body does to it. *)
Lemma preserves_set_expr_context (ctx : expr_context) (body : M A) :
  preserves (set_expr_context ctx body).
Proof.
  intro s. unfold set_expr_context, bind, get_expr_context, put_expr_context,
    try_finally.
  destruct (body ctx) as [[e | a] s']; reflexivity.
Qed.

End Preserves.

Lemma preserves_for_each (X S : Type) (xs : list X) (body : X -> S -> M S) :
  (forall x acc, preserves (body x acc)) ->
  forall acc, preserves (for_each xs body acc).
Proof.
  intros Hbody. induction xs as [| x xs IH]; intro acc; simpl.
  - apply preserves_ret.
  - apply preserves_bind; [apply Hbody | exact IH].
Qed.

Lemma preserves_map_M (X Y : Type) (xs : list X) (f : X -> M Y) :
  (forall x, preserves (f x)) -> preserves (map_M f xs).
Proof.
  intros Hf. induction xs as [| x xs IH]; simpl.
  - apply preserves_ret.
  - apply preserves_bind; [apply Hf |].
    intro y. apply preserves_bind; [exact IH |].
    intro ys. apply preserves_ret.
Qed.

(** ** Loops *)

Lemma for_each_app (X S : Type) (xs ys : list X) (body : X -> S -> M S)
  (acc : S) s :
  for_each (xs ++ ys) body acc s =
  bind (for_each xs body acc) (for_each ys body) s.
Proof.
  revert acc s. induction xs as [| x xs IH]; intros acc s; simpl.
  - reflexivity.
  - unfold bind in *.
    destruct (body x acc s) as [[e | acc'] s']; [reflexivity |].
    apply IH.
Qed.

(** Two loop bodies that agree on the items of the list give the same loop. *)
(** A loop stops at the first item whose body raises. *)
Lemma for_each_raises_at (X S : Type) (pre post : list X) (x : X)
  (body : X -> S -> M S) (acc acc1 : S) (e : exn) s s1 s2 :
  for_each pre body acc s = (inr acc1, s1) ->
  body x acc1 s1 = (inl e, s2) ->
  for_each (pre ++ x :: post) body acc s = (inl e, s2).
Proof.
  intros Hpre Hx. rewrite for_each_app. unfold bind at 1. rewrite Hpre.
  cbn [for_each]. unfold bind. now rewrite Hx.
Qed.

Lemma for_each_ext_in (X S : Type) (xs : list X) (body body' : X -> S -> M S) :
  (forall x, List.In x xs -> forall acc s, body x acc s = body' x acc s) ->
  forall acc s, for_each xs body acc s = for_each xs body' acc s.
Proof.
  induction xs as [| x xs IH]; intros Hext acc s; simpl.
  - reflexivity.
  - unfold bind. rewrite (Hext x (or_introl eq_refl)).
    destruct (body' x acc s) as [[e | acc'] s']; [reflexivity |].
    apply IH. intros y Hy. apply Hext. now right.
Qed.

(** ** Lists *)

Section ListFacts.
Variable A : Type.

Lemma len_app (l l' : list A) : len (l ++ l') = len l + len l'.
Proof. unfold len. rewrite length_app. lia. Qed.

Lemma len_nonneg (l : list A) : 0 <= len l.
Proof. unfold len. lia. Qed.

Lemma getitem_nonneg (l : list A) (i : Z) :
  0 <= i ->
  getitem l i = match nth_error l (Z.to_nat i) with
                | Some a => ok a
                | None => throw IndexError
                end.
Proof.
  intros Hi. unfold getitem.
  destruct (i <? 0) eqn:Hneg; [apply Z.ltb_lt in Hneg; lia |].
  rewrite Hneg. reflexivity.
Qed.

Lemma getitem_cons_0 (a : A) (l : list A) : getitem (a :: l) 0 = ok a.
Proof. reflexivity. Qed.

Lemma getitem_cons_S (a : A) (l : list A) (i : Z) :
  0 <= i -> getitem (a :: l) (i + 1) = getitem l i.
Proof.
  intros Hi. rewrite !getitem_nonneg by lia.
  replace (Z.to_nat (i + 1)) with (S (Z.to_nat i)) by lia. reflexivity.
Qed.

Lemma getitem_app_l (l l' : list A) (i : Z) :
  0 <= i < len l -> getitem (l ++ l') i = getitem l i.
Proof.
  intros Hi. rewrite !getitem_nonneg by lia.
  rewrite nth_error_app1; [reflexivity |]. unfold len in Hi. lia.
Qed.

Lemma getitem_app_r (l l' : list A) (i : Z) :
  0 <= i -> getitem (l ++ l') (len l + i) = getitem l' i.
Proof.
  intros Hi. pose proof (len_nonneg l) as Hl.
  rewrite !getitem_nonneg by lia.
  rewrite nth_error_app2 by (unfold len; lia).
  replace (Z.to_nat (len l + i) - List.length l)%nat with (Z.to_nat i)
    by (unfold len; lia).
  reflexivity.
Qed.

Lemma getitem_ok_In (l : list A) (i : Z) (a : A) :
  getitem l i = ok a -> List.In a l.
Proof.
  unfold getitem. intros H.
  destruct ((if i <? 0 then i + len l else i) <? 0); [discriminate |].
  destruct (nth_error l _) eqn:Hn; [| discriminate].
  injection H as <-. eapply nth_error_In; eassumption.
Qed.

End ListFacts.

(** [range(start, stop, 2)] stays inside [[start, stop)]. *)
Lemma range_by2_aux_bounds (n : nat) (start stop i : Z) :
  List.In i (range_by2_aux n start stop) -> start <= i < stop.
Proof.
  revert start. induction n as [| n IH]; intros start Hin; simpl in Hin.
  - contradiction.
  - destruct (start <? stop) eqn:Hlt; [| contradiction].
    apply Z.ltb_lt in Hlt. destruct Hin as [<- | Hin]; [lia |].
    apply IH in Hin. lia.
Qed.

Lemma range_by2_bounds (start stop i : Z) :
  List.In i (range_by2 start stop) -> start <= i < stop.
Proof. apply range_by2_aux_bounds. Qed.

(** Raising the bound by two adds one index at the end. *)
Lemma range_by2_aux_snoc (m n n' : nat) (a : Z) :
  (m <= n)%nat -> (S m <= n')%nat ->
  range_by2_aux n' a (a + 2 * Z.of_nat m + 1) =
  range_by2_aux n a (a + 2 * Z.of_nat m - 1) ++ [a + 2 * Z.of_nat m].
Proof.
  revert n n' a. induction m as [| m IH]; intros n n' a Hn Hn'.
  - destruct n' as [| n']; [lia |]. simpl.
    replace (a <? a + 0 + 1) with true by (symmetry; apply Z.ltb_lt; lia).
    replace (range_by2_aux n' (a + 2) (a + 0 + 1)) with (@nil Z).
    2:{ destruct n'; simpl; [reflexivity |].
        replace (a + 2 <? a + 0 + 1) with false
          by (symmetry; apply Z.ltb_ge; lia).
        reflexivity. }
    replace (range_by2_aux n a (a + 0 - 1)) with (@nil Z).
    2:{ destruct n; simpl; [reflexivity |].
        replace (a <? a + 0 - 1) with false
          by (symmetry; apply Z.ltb_ge; lia).
        reflexivity. }
    simpl. f_equal. lia.
  - destruct n' as [| n']; [lia |]. destruct n as [| n]; [lia |].
    remember (Z.of_nat (S m)) as k eqn:Hk.
    assert (Hk' : k = Z.of_nat m + 1) by lia. clear Hk.
    cbn [range_by2_aux].
    replace (a <? a + 2 * k + 1) with true
      by (symmetry; apply Z.ltb_lt; lia).
    replace (a <? a + 2 * k - 1) with true
      by (symmetry; apply Z.ltb_lt; lia).
    rewrite <- app_comm_cons. f_equal.
    replace (a + 2 * k + 1) with (a + 2 + 2 * Z.of_nat m + 1) by lia.
    replace (a + 2 * k - 1) with (a + 2 + 2 * Z.of_nat m - 1) by lia.
    replace (a + 2 * k) with (a + 2 + 2 * Z.of_nat m) by lia.
    apply IH; lia.
Qed.

(** The loop indices of an operator chain that grows by one link. *)
Lemma range_by2_chain_snoc (A : Type) (chain : list A) (opnode child : A) :
  Nat.odd (List.length chain) = true ->
  range_by2 2 (len (chain ++ [opnode; child])) =
  range_by2 2 (len chain) ++ [len chain + 1].
Proof.
  intros Hodd. apply Nat.odd_spec in Hodd. destruct Hodd as [k Hk].
  rewrite len_app.
  assert (Hlen : len chain = 2 + 2 * Z.of_nat k - 1) by (unfold len; lia).
  rewrite Hlen. unfold range_by2.
  replace (len [opnode; child]) with 2 by reflexivity.
  replace (2 + 2 * Z.of_nat k - 1 + 2) with (2 + 2 * Z.of_nat k + 1) by lia.
  replace (2 + 2 * Z.of_nat k - 1 + 1) with (2 + 2 * Z.of_nat k) by lia.
  apply range_by2_aux_snoc; lia.
Qed.

(** ** Line ranges *)

Lemma getitem_last_cons (A : Type) (a b : A) (l : list A) :
  getitem (a :: b :: l) (-1) = getitem (b :: l) (-1).
Proof.
  unfold getitem. replace (-1 <? 0) with true by reflexivity.
  unfold len. cbn [List.length].
  destruct (-1 + Z.of_nat (S (S (List.length l))) <? 0) eqn:H1;
    [apply Z.ltb_lt in H1; lia |].
  destruct (-1 + Z.of_nat (S (List.length l)) <? 0) eqn:H2;
    [apply Z.ltb_lt in H2; lia |].
  replace (Z.to_nat (-1 + Z.of_nat (S (S (List.length l)))))
    with (S (Z.to_nat (-1 + Z.of_nat (S (List.length l))))) by lia.
  reflexivity.
Qed.

Lemma range_of_last_getitem (first : NL) (rest : list NL) :
  range_of_last get_line_range rest (get_line_range first) =
  rbind (getitem (first :: rest) (-1)) get_line_range.
Proof.
  revert first. induction rest as [| c rest IH]; intro first.
  - reflexivity.
  - cbn [range_of_last]. rewrite getitem_last_cons. apply IH.
Qed.

(** [get_line_range] on a node, as the source has it. *)
Lemma get_line_range_Node (t : Z) (children : list NL) :
  get_line_range (Node t children) =
  rbind (getitem children 0) (fun first =>
  rbind (get_line_range first) (fun begin_range =>
  rbind (getitem children (-1)) (fun last =>
  rbind (get_line_range last) (fun end_range =>
  ok (unify_line_ranges begin_range end_range))))).
Proof.
  destruct children as [| first rest]; [reflexivity |].
  cbn [get_line_range]. rewrite getitem_cons_0. cbn [rbind ok].
  pose proof (range_of_last_getitem first rest) as Hlast.
  destruct (get_line_range first) as [e | begin_range]; [reflexivity |].
  cbn [rbind]. unfold ok at 1. rewrite Hlast.
  destruct (getitem (first :: rest) (-1)) as [e | last]; reflexivity.
Qed.

(** Facts about [str.count] and [str.rfind] on a one-character needle. *)

Lemma str_count_nonneg (s : string) (c : ascii) : 0 <= str_count s c.
Proof.
  induction s as [| a s IH]; simpl; [lia |].
  destruct (Ascii.eqb a c); lia.
Qed.

Lemma str_count_occ (s : string) (c : ascii) :
  str_count s c = Z.of_nat (count_occ ascii_dec (list_ascii_of_string s) c).
Proof.
  induction s as [| a s IH]; simpl; [reflexivity |].
  destruct (ascii_dec a c) as [-> | Hne].
  - rewrite Ascii.eqb_refl. lia.
  - apply Ascii.eqb_neq in Hne. rewrite Hne. lia.
Qed.

Lemma str_count_zero (s : string) (c : ascii) :
  str_count s c = 0 <-> ~ List.In c (list_ascii_of_string s).
Proof.
  rewrite str_count_occ. rewrite (count_occ_not_In ascii_dec). lia.
Qed.

Lemma str_rfind_absent (s : string) (c : ascii) :
  ~ List.In c (list_ascii_of_string s) -> str_rfind s c = -1.
Proof.
  induction s as [| a s IH]; simpl; intro Hnot; [reflexivity |].
  rewrite IH by tauto. simpl.
  destruct (Ascii.eqb a c) eqn:Heq; [| reflexivity].
  apply Ascii.eqb_eq in Heq. tauto.
Qed.

(** Where [rfind] finds the character, the text splits there and the rest
    has no further occurrence. *)
Lemma str_rfind_split (s : string) (c : ascii) :
  List.In c (list_ascii_of_string s) ->
  exists before after,
    s = (before ++ String c after)%string
    /\ ~ List.In c (list_ascii_of_string after)
    /\ str_rfind s c = Z.of_nat (String.length before).
Proof.
  induction s as [| a s IH]; simpl; intro Hin; [contradiction |].
  destruct (in_dec ascii_dec c (list_ascii_of_string s)) as [Hs | Hs].
  - destruct (IH Hs) as (before & after & Heq & Hafter & Hfind).
    exists (String a before), after. split; [| split].
    + simpl. now rewrite <- Heq.
    + exact Hafter.
    + rewrite Hfind.
      replace (0 <=? Z.of_nat (String.length before)) with true
        by (symmetry; apply Z.leb_le; lia).
      simpl String.length. lia.
  - destruct Hin as [-> | Hin]; [| contradiction].
    exists EmptyString, s. split; [reflexivity | split; [exact Hs |]].
    rewrite (str_rfind_absent _ _ Hs). simpl.
    now rewrite Ascii.eqb_refl.
Qed.

Lemma length_append (s1 s2 : string) :
  String.length (s1 ++ s2)%string = (String.length s1 + String.length s2)%nat.
Proof. induction s1 as [| a s1 IH]; simpl; [reflexivity | now rewrite IH]. Qed.

(** C2. For a leaf, the range starts at the leaf's recorded line and column.
    If the text has no newline, the range ends on the same line, at the
    start column plus the length of the text. Otherwise it ends on the start
    line plus the number of newlines in the text, at the column that is the
    number of characters after the last newline. *)
Theorem leaf_range_spec (leaf : Leaf) :
  let r := get_line_range_for_leaf leaf in
  let text := list_ascii_of_string (value leaf) in
  get_line_range (NLeaf leaf) = ok r
  /\ r_lineno r = lineno leaf
  /\ r_col_offset r = column leaf
  /\ (~ List.In newline text ->
      r_end_lineno r = lineno leaf
      /\ r_end_col_offset r
         = column leaf + Z.of_nat (String.length (value leaf)))
  /\ (List.In newline text ->
      r_end_lineno r
      = lineno leaf + Z.of_nat (count_occ ascii_dec text newline)
      /\ exists before after,
           value leaf = (before ++ String newline after)%string
           /\ ~ List.In newline (list_ascii_of_string after)
           /\ r_end_col_offset r = Z.of_nat (String.length after)).
Proof.
  cbv zeta.
  split; [reflexivity |]. split; [reflexivity |]. split; [reflexivity |].
  split.
  - intro Hnot. unfold get_line_range_for_leaf.
    cbn [r_end_lineno r_end_col_offset].
    apply str_count_zero in Hnot. rewrite Hnot. split; [lia | reflexivity].
  - intro Hin. split.
    + unfold get_line_range_for_leaf. cbn [r_end_lineno].
      now rewrite str_count_occ.
    + destruct (str_rfind_split _ _ Hin)
        as (before & after & Heq & Hafter & Hfind).
      exists before, after. split; [exact Heq | split; [exact Hafter |]].
      unfold get_line_range_for_leaf. cbn [r_end_col_offset].
      destruct (str_count (value leaf) newline =? 0) eqn:Hzero.
      * apply Z.eqb_eq in Hzero. apply str_count_zero in Hzero. contradiction.
      * rewrite Hfind. unfold len_str. rewrite Heq at 1.
        rewrite length_append. simpl String.length. lia.
Qed.

(** The leaf of a block string that spans three lines. *)
Lemma leaf_range_spec_witness :
  let leaf := mkLeaf token.STRING
                (String "a" (String newline (String newline "bc"))) 4 7 in
  r_end_lineno (get_line_range_for_leaf leaf) = 4 + 2
  /\ exists before after,
       value leaf = (before ++ String newline after)%string
       /\ ~ List.In newline (list_ascii_of_string after)
       /\ r_end_col_offset (get_line_range_for_leaf leaf)
          = Z.of_nat (String.length after).
Proof.
  cbv zeta.
  apply (proj2 (proj2 (proj2 (proj2
    (leaf_range_spec
       (mkLeaf token.STRING
          (String "a" (String newline (String newline "bc"))) 4 7)))))).
  simpl. right. left. reflexivity.
Defined.

(** ** The consumer *)

(** C7. [consume] hands out the current child and moves the index on by
    exactly one when there is a current child and either no kind was asked
    for or the child is of the kind asked for. In every other case it
    returns [None] and the consumer is unchanged. It cannot raise: its result
    is always such a pair. *)
Theorem consume_contract (self : _Consumer) (typ : option Z) :
  let current := nth_error (c_children self) (index self) in
  (forall node,
      current = Some node ->
      typ = None \/ typ = Some (type_of node) ->
      consume self typ
      = (Some node, mk_Consumer (c_children self) (S (index self))))
  /\ (current = None
      \/ (exists node t,
             current = Some node /\ typ = Some t /\ t <> type_of node) ->
      consume self typ = (None, self)).
Proof.
  cbv zeta. split.
  - intros node Hcur Htyp. unfold consume. rewrite Hcur.
    assert (Hlt : (index self <? List.length (c_children self))%nat = true).
    { apply Nat.ltb_lt. apply nth_error_Some. congruence. }
    rewrite Hlt. destruct Htyp as [-> | ->]; [reflexivity |].
    now rewrite Z.eqb_refl.
  - intros [Hnone | (node & t & Hcur & -> & Hne)]; unfold consume.
    + assert (Hge : (index self <? List.length (c_children self))%nat = false).
      { apply Nat.ltb_ge. now apply nth_error_None. }
      now rewrite Hge.
    + rewrite Hcur. replace (type_of node =? t) with false
        by (symmetry; apply Z.eqb_neq; congruence).
      now rewrite andb_false_r.
Qed.

Lemma consume_contract_witness :
  let c := mk_Consumer [NLeaf (mkLeaf token.COLON ":" 1 1)] 0 in
  consume c (Some token.COLON)
  = (Some (NLeaf (mkLeaf token.COLON ":" 1 1)),
     mk_Consumer [NLeaf (mkLeaf token.COLON ":" 1 1)] 1)
  /\ consume c (Some token.COMMA) = (None, c).
Proof.
  cbv zeta. split.
  - apply (proj1 (consume_contract
                    (mk_Consumer [NLeaf (mkLeaf token.COLON ":" 1 1)] 0)
                    (Some token.COLON))).
    + reflexivity.
    + right. reflexivity.
  - apply (proj2 (consume_contract
                    (mk_Consumer [NLeaf (mkLeaf token.COLON ":" 1 1)] 0)
                    (Some token.COMMA))).
    right. exists (NLeaf (mkLeaf token.COLON ":" 1 1)), token.COMMA.
    repeat split. discriminate.
Defined.

(** What [consume] does to the consumer, whatever it returns. *)
Lemma consume_children (self : _Consumer) (typ : option Z) :
  c_children (snd (consume self typ)) = c_children self.
Proof.
  unfold consume.
  destruct ((index self <? List.length (c_children self))%nat && _);
    reflexivity.
Qed.

Lemma consume_index (self : _Consumer) (typ : option Z) :
  (index self <= index (snd (consume self typ)))%nat.
Proof.
  unfold consume.
  destruct ((index self <? List.length (c_children self))%nat && _);
    simpl; lia.
Qed.

Lemma consume_any_advances (self : _Consumer) :
  done self = false ->
  index (snd (consume self None)) = S (index self).
Proof.
  unfold done, consume. intro H. apply Nat.leb_gt in H.
  apply Nat.ltb_lt in H. rewrite H. reflexivity.
Qed.

(** ** The expression context *)

(** The block as a function of the ambient context. *)
Lemma set_expr_context_run (A : Type) (ctx : expr_context) (body : M A)
  (ambient : expr_context) :
  set_expr_context ctx body ambient = (fst (body ctx), ambient).
Proof.
  unfold set_expr_context, bind, get_expr_context, put_expr_context,
    try_finally.
  destruct (body ctx) as [[e | a] s']; reflexivity.
Qed.

Lemma set_expr_context_returns (A : Type) ctx (body : M A) ambient a s' :
  body ctx = (inr a, s') -> set_expr_context ctx body ambient = (inr a, ambient).
Proof. intro H. rewrite set_expr_context_run, H. reflexivity. Qed.

Lemma set_expr_context_raises (A : Type) ctx (body : M A) ambient e s' :
  body ctx = (inl e, s') -> set_expr_context ctx body ambient = (inl e, ambient).
Proof. intro H. rewrite set_expr_context_run, H. reflexivity. Qed.

(** C5. A [with self.set_expr_context(ctx)] block, which is how the targets
    of assignment expressions, of comprehensions and of keyword arguments are
    lowered, runs its body under [ctx]; when the block is left the context is
    the one that was in force before it, on every way out: the outcome of the
    block (a value or a raised exception) is the outcome of the body, and the
    final context is the ambient one. *)
Theorem set_expr_context_restores (A : Type) (ctx : expr_context) (body : M A)
  (ambient : expr_context) :
  snd (set_expr_context ctx body ambient) = ambient
  /\ fst (set_expr_context ctx body ambient) = fst (body ctx)
  /\ (forall e s', body ctx = (inl e, s') ->
        set_expr_context ctx body ambient = (inl e, ambient)).
Proof.
  rewrite set_expr_context_run. repeat split.
  intros e s' H. now rewrite H.
Qed.

(** ** A concrete environment

    The examples below run the module. They need numbers for the grammar
    symbols: [Grammar] numbers the symbols that the module names, from 256
    on; [tok_name] has the names of the tokens of [token]; a literal is kept
    as its source text. *)

Module Grammar.

Definition symbol_names : list string :=
  [ "file_input"; "and_expr"; "and_test"; "arglist"; "argument";
    "arith_expr"; "atom"; "comp_for"; "comp_if"; "comp_op"; "comparison";
    "dictsetmaker"; "expr"; "factor"; "listmaker"; "namedexpr_test";
    "not_test"; "old_comp_for"; "or_test"; "paramspec"; "power";
    "shift_expr"; "simple_stmt"; "sliceop"; "star_expr"; "subscript";
    "subscriptlist"; "term"; "test"; "testlist_gexp"; "trailer";
    "typeparam"; "typevar"; "typevartuple"; "xor_expr" ].

Fixpoint position (name : string) (names : list string) (from : Z) : Z :=
  match names with
  | [] => from
  | n :: rest => if String.eqb n name then from else position name rest (from + 1)
  end.

Definition sym (name : string) : Z := position name symbol_names 256.

Definition symbols : python_symbols :=
  {| arglist := sym "arglist";
     comp_for := sym "comp_for";
     dictsetmaker := sym "dictsetmaker";
     listmaker := sym "listmaker";
     old_comp_for := sym "old_comp_for";
     sliceop := sym "sliceop";
     star_expr := sym "star_expr";
     testlist_gexp := sym "testlist_gexp" |}.

Definition type_repr (t : Z) : string :=
  nth (Z.to_nat (t - 256)) symbol_names
      (NilZero.string_of_int (Z.to_int t)).

Definition tok_name (t : Z) : option string :=
  let table :=
    [ (token.ENDMARKER, "ENDMARKER"); (token.NAME, "NAME");
      (token.NUMBER, "NUMBER"); (token.STRING, "STRING");
      (token.NEWLINE, "NEWLINE"); (token.INDENT, "INDENT");
      (token.DEDENT, "DEDENT"); (token.LPAR, "LPAR"); (token.RPAR, "RPAR");
      (token.LSQB, "LSQB"); (token.RSQB, "RSQB"); (token.COLON, "COLON");
      (token.COMMA, "COMMA"); (token.SEMI, "SEMI"); (token.PLUS, "PLUS");
      (token.MINUS, "MINUS"); (token.STAR, "STAR"); (token.SLASH, "SLASH");
      (token.VBAR, "VBAR"); (token.AMPER, "AMPER"); (token.LESS, "LESS");
      (token.GREATER, "GREATER"); (token.EQUAL, "EQUAL"); (token.DOT, "DOT");
      (token.PERCENT, "PERCENT"); (token.BACKQUOTE, "BACKQUOTE");
      (token.LBRACE, "LBRACE"); (token.RBRACE, "RBRACE");
      (token.EQEQUAL, "EQEQUAL"); (token.NOTEQUAL, "NOTEQUAL");
      (token.LESSEQUAL, "LESSEQUAL"); (token.GREATEREQUAL, "GREATEREQUAL");
      (token.TILDE, "TILDE"); (token.CIRCUMFLEX, "CIRCUMFLEX");
      (token.LEFTSHIFT, "LEFTSHIFT"); (token.RIGHTSHIFT, "RIGHTSHIFT");
      (token.DOUBLESTAR, "DOUBLESTAR"); (token.DOUBLESLASH, "DOUBLESLASH");
      (token.AT, "AT"); (token.AWAIT, "AWAIT"); (token.ASYNC, "ASYNC");
      (token.COLONEQUAL, "COLONEQUAL") ] in
  option_map snd (find (fun entry => fst entry =? t) table).

(** The environment of an interpreter of version [version]. *)
Definition env (version : Z * Z) : Env string :=
  {| version_info := version;
     syms := symbols;
     token_type_to_name := tok_name;
     node_type_to_name := type_repr;
     literal_eval := fun text => ok text;
     repr := fun node => type_repr (type_of node) |}.

(** A leaf on line 1, and a node, by the name of its symbol. *)
Definition tok (t : Z) (text : string) (col : Z) : NL :=
  NLeaf (mkLeaf t text 1 col).

Definition node (name : string) (children : list NL) : NL :=
  Node (sym name) children.

(** A range on line 1. *)
Definition cols (from to : Z) : LineRange := mkLineRange 1 from 1 to.

End Grammar.

(** ** Statements *)

Section Methods.
Variable literal : Type.
Variable env : Env literal.
Variable self : Self literal.

Local Notation AST := (AST literal).

(** C10. When the first child of a simple statement lowers to an expression,
    the statement lowers to an expression statement whose range is the range
    of that child alone; when it lowers to something else, that is returned
    as it is. The range of the whole statement node is another one: with the
    trailing newline token as second child it runs to the end of that
    token. *)
Theorem simple_stmt_range (node child : NL) (val : AST) (s s' : expr_context) :
  getitem (children_of node) 0 = ok child ->
  self_visit self child s = (inr val, s') ->
  (is_expr val = true ->
   forall r, get_line_range child = ok r ->
             visit_simple_stmt self node s = (inr (Expr val r), s'))
  /\ (is_expr val = false ->
      visit_simple_stmt self node s = (inr val, s'))
  /\ (forall t nl r,
         node = Node t [child; NLeaf nl] ->
         get_line_range child = ok r ->
         get_line_range node
         = ok (unify_line_ranges r (get_line_range_for_leaf nl))).
Proof.
  intros Hchild Hvisit. split; [| split].
  - intros Hexpr r Hr. unfold visit_simple_stmt.
    rewrite Hchild, run_bind_lift_ok. unfold bind at 1; rewrite Hvisit.
    rewrite Hexpr, run_bind_lift_ok, Hr. reflexivity.
  - intros Hexpr. unfold visit_simple_stmt.
    rewrite Hchild, run_bind_lift_ok. unfold bind at 1; rewrite Hvisit.
    rewrite Hexpr. reflexivity.
  - intros t nl r -> Hr. rewrite get_line_range_Node.
    rewrite getitem_cons_0. cbn [rbind ok]. rewrite Hr. reflexivity.
Qed.

(** ** Operator chains *)

Lemma visit_expr_single (t : Z) (a : NL) (left : AST) (r : LineRange) s s' :
  self_visit self a s = (inr left, s') ->
  get_line_range a = ok r ->
  visit_expr self (Node t [a]) s = (inr left, s').
Proof.
  intros Hvisit Hr. unfold visit_expr. cbn [children_of].
  rewrite getitem_cons_0, run_bind_lift_ok. unfold bind at 1; rewrite Hvisit.
  rewrite run_bind_lift_ok, Hr. reflexivity.
Qed.

Lemma visit_expr_snoc (t t' : Z) (chain : list NL) (opnode child first : NL)
  (left right : AST) (binop : operator) (rb rc : LineRange)
  (s s1 s2 : expr_context) :
  Nat.odd (List.length chain) = true ->
  getitem chain 0 = ok first ->
  visit_expr self (Node t chain) s = (inr left, s1) ->
  TOKEN_TYPE_TO_BINOP (type_of opnode) = ok binop ->
  self_visit self child s1 = (inr right, s2) ->
  get_line_range first = ok rb ->
  get_line_range child = ok rc ->
  visit_expr self (Node t' (chain ++ [opnode; child])) s
  = (inr (BinOp left binop right (unify_line_ranges rb rc)), s2).
Proof.
  intros Hodd Hfirst Hchain Hop Hright Hrb Hrc.
  assert (Hlen : 1 <= len chain).
  { unfold len. destruct chain; [discriminate |]. simpl List.length. lia. }
  unfold visit_expr in *. cbn [children_of] in *.
  rewrite getitem_app_l by lia. rewrite Hfirst in *.
  rewrite run_bind_lift_ok in *.
  unfold bind at 1. unfold bind at 1 in Hchain.
  destruct (self_visit self first s) as [[e | op0] s0]; [discriminate |].
  rewrite run_bind_lift_ok in *. rewrite Hrb in *.
  rewrite run_bind_lift_ok in *.
  rewrite range_by2_chain_snoc by exact Hodd.
  rewrite for_each_app.
  erewrite run_bind_ok.
  2:{ rewrite <- Hchain. apply for_each_ext_in.
      intros i Hi acc s'. apply range_by2_bounds in Hi.
      rewrite !getitem_app_l by lia. reflexivity. }
  cbn [for_each]. unfold bind, lift, ret.
  rewrite (@getitem_app_r _ chain [opnode; child] 1) by lia.
  replace (len chain + 1 - 1) with (len chain + 0) by lia.
  rewrite (@getitem_app_r _ chain [opnode; child] 0) by lia.
  change (getitem [opnode; child] 1) with (ok child).
  change (getitem [opnode; child] 0) with (ok opnode).
  unfold ok at 1 2. rewrite Hop, Hright, Hrc. reflexivity.
Qed.

(** C3. An operator chain [a op1 b op2 c ...] (a node of kind [expr],
    [xor_expr], [and_expr], [shift_expr], [arith_expr] or [term], which all
    share one method) lowers to a left-nested [BinOp]. A single operand
    lowers to itself. A chain that is extended by [operator child] lowers to
    the [BinOp] whose left operand is the lowering of the whole chain before
    it and whose right operand is the lowering of [child] alone; its range
    starts where the first operand of the chain starts and ends where
    [child] ends. *)
Theorem binop_chain_left_nested :
  (forall t a left r s s',
      self_visit self a s = (inr left, s') ->
      get_line_range a = ok r ->
      visit_expr self (Node t [a]) s = (inr left, s'))
  /\ (forall t t' chain opnode child first left right binop rb rc s s1 s2,
         Nat.odd (List.length chain) = true ->
         getitem chain 0 = ok first ->
         visit_expr self (Node t chain) s = (inr left, s1) ->
         TOKEN_TYPE_TO_BINOP (type_of opnode) = ok binop ->
         self_visit self child s1 = (inr right, s2) ->
         get_line_range first = ok rb ->
         get_line_range child = ok rc ->
         visit_expr self (Node t' (chain ++ [opnode; child])) s
         = (inr (BinOp left binop right
                   {| r_lineno := r_lineno rb;
                      r_col_offset := r_col_offset rb;
                      r_end_lineno := r_end_lineno rc;
                      r_end_col_offset := r_end_col_offset rc |}),
            s2))
  /\ (forall node s,
         visit_xor_expr self node s = visit_expr self node s
         /\ visit_and_expr self node s = visit_expr self node s
         /\ visit_shift_expr self node s = visit_expr self node s
         /\ visit_arith_expr self node s = visit_expr self node s
         /\ visit_term self node s = visit_expr self node s).
Proof.
  split; [| split].
  - intros. eapply visit_expr_single; eassumption.
  - intros. eapply visit_expr_snoc; eassumption.
  - intros. repeat split.
Qed.

(** ** Comparison chains *)

Lemma visit_comparison_single (t : Z) (a : NL) (left : AST) (r : LineRange)
  s s' :
  self_visit self a s = (inr left, s') ->
  get_line_range (Node t [a]) = ok r ->
  visit_comparison self (Node t [a]) s = (inr (Compare left [] [] r), s').
Proof.
  intros Hvisit Hr. unfold visit_comparison. cbn [children_of].
  rewrite getitem_cons_0, run_bind_lift_ok. unfold bind at 1. rewrite Hvisit.
  change (range_by2 2 (len [a])) with (@nil Z). cbn [for_each].
  unfold bind, ret, lift. rewrite Hr. reflexivity.
Qed.

Lemma visit_comparison_snoc (t t' : Z) (chain : list NL) (opnode child : NL)
  (left right : AST) (ops : list cmpop) (comparators : list AST) (op : cmpop)
  (r0 r : LineRange) (s s1 s2 : expr_context) :
  Nat.odd (List.length chain) = true ->
  visit_comparison self (Node t chain) s
  = (inr (Compare left ops comparators r0), s1) ->
  compare_operator opnode = ok op ->
  self_visit self child s1 = (inr right, s2) ->
  is_expr right = true ->
  get_line_range (Node t' (chain ++ [opnode; child])) = ok r ->
  visit_comparison self (Node t' (chain ++ [opnode; child])) s
  = (inr (Compare left (ops ++ [op]) (comparators ++ [right]) r), s2).
Proof.
  intros Hodd Hchain Hop Hright Hexpr Hr.
  assert (Hlen : 1 <= len chain).
  { unfold len. destruct chain; [discriminate |]. simpl List.length. lia. }
  unfold visit_comparison in *. cbn [children_of] in *.
  rewrite getitem_app_l by lia.
  destruct (getitem chain 0) as [e | first]; [discriminate |].
  rewrite run_bind_lift_ok in *.
  unfold bind at 1. unfold bind at 1 in Hchain.
  destruct (self_visit self first s) as [[e | left0] s0]; [discriminate |].
  unfold bind at 1. unfold bind at 1 in Hchain.
  rewrite range_by2_chain_snoc by exact Hodd.
  rewrite for_each_app.
  match type of Hchain with
  | context [for_each ?R ?body ?acc s0] =>
      destruct (for_each R body acc s0) as [[e | [ops0 comparators0]] s1']
        eqn:Hloop; [discriminate |]
  end.
  unfold bind at 1, lift at 1 in Hchain.
  destruct (get_line_range (Node t chain)) as [e | r0']; [discriminate |].
  injection Hchain as -> -> -> -> ->.
  erewrite run_bind_ok.
  2:{ etransitivity; [| exact Hloop]. apply for_each_ext_in.
      intros i Hi [ops' comparators'] s'. apply range_by2_bounds in Hi.
      rewrite !getitem_app_l by lia. reflexivity. }
  cbn [for_each]. unfold bind, lift, ret.
  rewrite (@getitem_app_r _ chain [opnode; child] 1) by lia.
  replace (len chain + 1 - 1) with (len chain + 0) by lia.
  rewrite (@getitem_app_r _ chain [opnode; child] 0) by lia.
  change (getitem [opnode; child] 1) with (ok child).
  change (getitem [opnode; child] 0) with (ok opnode).
  unfold ok at 1 2. rewrite Hop, Hright, Hexpr. unfold assert, ret.
  rewrite Hr. reflexivity.
Qed.

(** How the operator of a link is found. *)

Lemma compare_operator_NAME (leaf : Leaf) :
  leaf_type leaf = token.NAME ->
  compare_operator (NLeaf leaf) = NAME_TO_COMPARE_OP (value leaf).
Proof.
  intro H. unfold compare_operator. cbn [type_of value_of]. rewrite H.
  reflexivity.
Qed.

Lemma compare_operator_symbol (leaf : Leaf) :
  leaf_type leaf <> token.NAME ->
  compare_operator (NLeaf leaf) = TOKEN_TYPE_TO_COMPARE_OP (leaf_type leaf).
Proof.
  intro H. unfold compare_operator. cbn [type_of is_Leaf].
  apply Z.eqb_neq in H. rewrite H. reflexivity.
Qed.

Lemma compare_operator_pair (t : Z) (l0 l1 : Leaf) :
  t <> token.NAME ->
  compare_operator (Node t [NLeaf l0; NLeaf l1])
  = if String.eqb (value l0) "not" then
      if String.eqb (value l1) "in" then ok NotIn else throw AssertionError
    else if String.eqb (value l0) "is" then
      if String.eqb (value l1) "not" then ok IsNot else throw AssertionError
    else throw AssertionError.
Proof.
  intro H. unfold compare_operator. cbn [type_of is_Leaf children_of].
  apply Z.eqb_neq in H. rewrite H.
  change (len [NLeaf l0; NLeaf l1] =? 2) with true. cbn [negb].
  rewrite getitem_cons_0. cbn [rbind ok value_of].
  change (getitem [NLeaf l0; NLeaf l1] 1) with (ok (NLeaf l1)).
  cbn [rbind ok value_of].
  destruct (String.eqb (value l0) "not"); [reflexivity |].
  destruct (String.eqb (value l0) "is"); reflexivity.
Qed.

(** C8. A comparison chain lowers to one [Compare] node. A chain of a single
    operand has empty operator and comparator lists. A chain that is extended
    by [opnode child] keeps the left operand of the chain before it and
    appends one operator and one comparator to the two lists, which so stay
    parallel; the result is never a comparison nested in a comparison.
    The operator of a link is read off its token kind when it is a symbol,
    off its text when it is the keyword [is] or [in], and off the texts of
    both leaves when it is the two-token [is not] or [not in]. *)
Theorem comparison_chain_single_node :
  (forall t a left r s s',
      self_visit self a s = (inr left, s') ->
      get_line_range (Node t [a]) = ok r ->
      visit_comparison self (Node t [a]) s = (inr (Compare left [] [] r), s'))
  /\ (forall t t' chain opnode child left right ops comparators op r0 r
             s s1 s2,
         Nat.odd (List.length chain) = true ->
         visit_comparison self (Node t chain) s
         = (inr (Compare left ops comparators r0), s1) ->
         compare_operator opnode = ok op ->
         self_visit self child s1 = (inr right, s2) ->
         is_expr right = true ->
         get_line_range (Node t' (chain ++ [opnode; child])) = ok r ->
         visit_comparison self (Node t' (chain ++ [opnode; child])) s
         = (inr (Compare left (ops ++ [op]) (comparators ++ [right]) r), s2))
  /\ (forall leaf,
         leaf_type leaf <> token.NAME ->
         compare_operator (NLeaf leaf)
         = TOKEN_TYPE_TO_COMPARE_OP (leaf_type leaf))
  /\ (TOKEN_TYPE_TO_COMPARE_OP token.EQEQUAL = ok Eq
      /\ TOKEN_TYPE_TO_COMPARE_OP token.NOTEQUAL = ok NotEq
      /\ TOKEN_TYPE_TO_COMPARE_OP token.LESS = ok Lt
      /\ TOKEN_TYPE_TO_COMPARE_OP token.GREATER = ok Gt
      /\ TOKEN_TYPE_TO_COMPARE_OP token.LESSEQUAL = ok LtE
      /\ TOKEN_TYPE_TO_COMPARE_OP token.GREATEREQUAL = ok GtE)
  /\ (forall leaf,
         leaf_type leaf = token.NAME ->
         (value leaf = "is" -> compare_operator (NLeaf leaf) = ok Is)
         /\ (value leaf = "in" -> compare_operator (NLeaf leaf) = ok In))
  /\ (forall t l0 l1,
         t <> token.NAME ->
         (value l0 = "is" -> value l1 = "not" ->
          compare_operator (Node t [NLeaf l0; NLeaf l1]) = ok IsNot)
         /\ (value l0 = "not" -> value l1 = "in" ->
             compare_operator (Node t [NLeaf l0; NLeaf l1]) = ok NotIn)).
Proof.
  split; [| split; [| split; [| split; [| split]]]].
  - intros. eapply visit_comparison_single; eassumption.
  - intros. eapply visit_comparison_snoc; eassumption.
  - exact compare_operator_symbol.
  - repeat split.
  - intros leaf Hname.
    split; intro Hv; rewrite (compare_operator_NAME _ Hname), Hv; reflexivity.
  - intros t l0 l1 Ht.
    split; intros H0 H1; rewrite (compare_operator_pair _ _ Ht), H0, H1;
      reflexivity.
Qed.

(** ** Targets that must be names *)

Lemma named_expr_not_a_name (children : list (option NL)) (first : option NL)
  (target : AST) s s' :
  getitem children 0 = ok first ->
  visit_opt self first Store = (inr target, s') ->
  is_Name target = false ->
  _compile_named_expr self children s
  = (inl (UnsupportedSyntaxError "walrus target must be a name"), s).
Proof.
  intros Hfirst Hvisit Hname. unfold _compile_named_expr.
  unfold bind at 1. erewrite set_expr_context_returns.
  2:{ rewrite Hfirst, run_bind_lift_ok. exact Hvisit. }
  rewrite Hname. reflexivity.
Qed.

Lemma named_expr_value_raises (children : list (option NL))
  (first third : option NL) (target : AST) (e : exn) s s' s2 :
  getitem children 0 = ok first ->
  visit_opt self first Store = (inr target, s') ->
  is_Name target = true ->
  getitem children 2 = ok third ->
  visit_opt self third s = (inl e, s2) ->
  _compile_named_expr self children s = (inl e, s2).
Proof.
  intros Hfirst Hvisit Hname Hthird Hvalue. unfold _compile_named_expr.
  unfold bind at 1. erewrite set_expr_context_returns.
  2:{ rewrite Hfirst, run_bind_lift_ok. exact Hvisit. }
  rewrite Hname. cbn [negb]. rewrite Hthird, run_bind_lift_ok.
  unfold bind at 1. rewrite Hvalue. reflexivity.
Qed.

Lemma named_expr_of_a_name (children : list (option NL))
  (first third : option NL) (target value : AST) (r0 r2 : LineRange)
  s s' s2 :
  getitem children 0 = ok first ->
  visit_opt self first Store = (inr target, s') ->
  is_Name target = true ->
  getitem children 2 = ok third ->
  visit_opt self third s = (inr value, s2) ->
  get_line_range_opt first = ok r0 ->
  get_line_range_opt third = ok r2 ->
  _compile_named_expr self children s
  = (inr (NamedExpr target value (unify_line_ranges r0 r2)), s2).
Proof.
  intros Hfirst Hvisit Hname Hthird Hvalue Hr0 Hr2.
  unfold _compile_named_expr.
  unfold bind at 1. erewrite set_expr_context_returns.
  2:{ rewrite Hfirst, run_bind_lift_ok. exact Hvisit. }
  rewrite Hname. cbn [negb]. rewrite Hthird, run_bind_lift_ok.
  unfold bind at 1. rewrite Hvalue.
  rewrite Hfirst, run_bind_lift_ok, Hr0, run_bind_lift_ok.
  rewrite run_bind_lift_ok, Hr2. reflexivity.
Qed.

(** An argument of the shape [target = value]: it is a node of at least
    three children, the first is neither [*] nor [**], and the second is
    [=]. *)
Definition keyword_shaped (argument c0 c1 c2 : NL) (rest : list NL) : Prop :=
  children_of argument = c0 :: c1 :: c2 :: rest
  /\ type_of c0 <> token.STAR
  /\ type_of c0 <> token.DOUBLESTAR
  /\ type_of c1 = token.EQUAL.

(** Such an argument reaches the keyword branch of the loop body. *)
Lemma keyword_shaped_branch (node parent argument c0 c1 c2 : NL)
  (rest : list NL) (acc : list AST * list AST) s :
  keyword_shaped argument c0 c1 c2 rest ->
  compile_argument env self node parent argument acc s
  = (target <- set_expr_context Store (self_visit self c0) ;;
     match target with
     | Name id _ _ =>
         value <- self_visit self c2 ;;
         r <- lift (get_line_range argument) ;;
         ret (fst acc, snd acc ++ [keyword (Some id) value r])
     | _ =>
         raise (UnsupportedSyntaxError
                  "keyword argument target must be a name")
     end) s.
Proof.
  intros (Hchildren & Hstar & Hdstar & Hequal).
  destruct argument as [leaf | t children]; [discriminate |].
  cbn [children_of] in Hchildren. subst children.
  destruct acc as [args keywords].
  unfold compile_argument. cbn [is_Leaf children_of fst snd].
  rewrite getitem_cons_0, run_bind_lift_ok.
  apply Z.eqb_neq in Hstar, Hdstar. rewrite Hstar, Hdstar.
  assert (Hlen : len (c0 :: c1 :: c2 :: rest) = 3 + len rest).
  { unfold len. cbn [List.length]. lia. }
  pose proof (len_nonneg rest) as Hrest.
  replace (len (c0 :: c1 :: c2 :: rest) =? 1) with false
    by (symmetry; apply Z.eqb_neq; lia).
  replace (len (c0 :: c1 :: c2 :: rest) =? 2) with false
    by (symmetry; apply Z.eqb_neq; lia).
  change (getitem (c0 :: c1 :: c2 :: rest) 1) with (ok c1).
  rewrite run_bind_lift_ok, Hequal.
  change (token.EQUAL =? token.COLONEQUAL) with false.
  change (token.EQUAL =? token.EQUAL) with true. cbv iota.
  change (getitem (c0 :: c1 :: c2 :: rest) 2) with (ok c2).
  unfold bind. rewrite !set_expr_context_run. cbv beta.
  unfold lift, ok.
  destruct (self_visit self c0 Store) as [[e | target] s0]; [reflexivity |].
  cbn [fst].
  destruct target; reflexivity.
Qed.

(** X29. Where the check on a target is made: in [_compile_named_expr],
    which lowers the assignment expressions of brace literals and of call
    arguments, and in the keyword branch of [_compile_arglist]. The
    left-hand side of the assignment expression and of the
    [name = value] keyword argument is lowered under [Store]. If what comes
    back is not a [Name] node, lowering raises [UnsupportedSyntaxError] (a
    class of its own, so a caller can tell it from every other exception),
    and the context is the ambient one again; for a keyword argument this is
    also the outcome of the whole argument list once the arguments before it
    are lowered. If what comes back is a [Name], the check raises nothing:
    lowering goes on with the right-hand side, whose exception, if it raises
    one, is the outcome, and otherwise the [NamedExpr], or the [keyword] that
    is appended to the keywords, is built. *)
Theorem non_name_target_rejected :
  (forall children first target s s',
      getitem children 0 = ok first ->
      visit_opt self first Store = (inr target, s') ->
      (is_Name target = false ->
       _compile_named_expr self children s
       = (inl (UnsupportedSyntaxError "walrus target must be a name"), s))
      /\ (is_Name target = true ->
          forall third,
            getitem children 2 = ok third ->
            (forall e s2,
                visit_opt self third s = (inl e, s2) ->
                _compile_named_expr self children s = (inl e, s2))
            /\ (forall value r0 r2 s2,
                   visit_opt self third s = (inr value, s2) ->
                   get_line_range_opt first = ok r0 ->
                   get_line_range_opt third = ok r2 ->
                   _compile_named_expr self children s
                   = (inr (NamedExpr target value (unify_line_ranges r0 r2)),
                      s2))))
  /\ (forall node parent argument c0 c1 c2 rest target s',
         keyword_shaped argument c0 c1 c2 rest ->
         self_visit self c0 Store = (inr target, s') ->
         (is_Name target = false ->
          (forall acc s,
              compile_argument env self node parent argument acc s
              = (inl (UnsupportedSyntaxError
                        "keyword argument target must be a name"), s))
          /\ (forall pre post acc1 s s1,
                 arglist_arguments env node = pre ++ argument :: post ->
                 for_each pre (compile_argument env self node parent)
                          ([], []) s = (inr acc1, s1) ->
                 _compile_arglist env self node parent s
                 = (inl (UnsupportedSyntaxError
                           "keyword argument target must be a name"), s1)))
         /\ (forall id ctx r,
                target = Name id ctx r ->
                forall args keywords s,
                  (forall e s2,
                      self_visit self c2 s = (inl e, s2) ->
                      compile_argument env self node parent argument
                                       (args, keywords) s
                      = (inl e, s2))
                  /\ (forall value ra s2,
                         self_visit self c2 s = (inr value, s2) ->
                         get_line_range argument = ok ra ->
                         compile_argument env self node parent argument
                                          (args, keywords) s
                         = (inr (args,
                                 keywords ++ [keyword (Some id) value ra]),
                            s2)))).
Proof.
  split.
  - intros children first target s s' Hfirst Hvisit. split.
    + intro Hname. eapply named_expr_not_a_name; eassumption.
    + intros Hname third Hthird. split.
      * intros e s2 Hvalue. eapply named_expr_value_raises; eassumption.
      * intros value r0 r2 s2 Hvalue Hr0 Hr2.
        eapply named_expr_of_a_name; eassumption.
  - intros node parent argument c0 c1 c2 rest target s' Hshape Hvisit.
    assert (Hraise : is_Name target = false ->
                     forall acc s,
                       compile_argument env self node parent argument acc s
                       = (inl (UnsupportedSyntaxError
                                 "keyword argument target must be a name"),
                          s)).
    { intros Hname acc s. rewrite (keyword_shaped_branch _ _ _ _ Hshape).
      unfold bind at 1.
      erewrite set_expr_context_returns; [| exact Hvisit].
      destruct target; try reflexivity. discriminate. }
    split.
    + intro Hname. split; [exact (Hraise Hname) |].
      intros pre post acc1 s s1 Hargs Hpre. unfold _compile_arglist.
      rewrite Hargs. eapply for_each_raises_at; [exact Hpre |].
      apply Hraise, Hname.
    + intros id ctx r -> args keywords s. split.
      * intros e s2 Hvalue. rewrite (keyword_shaped_branch _ _ _ _ Hshape).
        unfold bind at 1.
        erewrite set_expr_context_returns; [| exact Hvisit].
        unfold bind at 1. rewrite Hvalue. reflexivity.
      * intros value ra s2 Hvalue Hra.
        rewrite (keyword_shaped_branch _ _ _ _ Hshape).
        unfold bind at 1.
        erewrite set_expr_context_returns; [| exact Hvisit].
        unfold bind at 1. rewrite Hvalue.
        rewrite Hra. reflexivity.
Qed.

(** ** Lowering is balanced

    If the three methods that [self] recurses through leave the context as
    they found it, so does every method of the class. *)

Section Balanced.
Hypothesis self_visit_preserves : forall node, preserves (self_visit self node).
Hypothesis self_comprehension_preserves :
  forall node, preserves (self_compile_comprehension self node).
Hypothesis self_comp_iter_preserves :
  forall node, preserves (self_compile_comp_iter self node).

Lemma preserves_visit_opt (node : option NL) : preserves (visit_opt self node).
Proof.
  destruct node; [apply self_visit_preserves | apply preserves_raise].
Qed.

Ltac balanced_using known :=
  repeat first
    [ known
    | apply preserves_ret
    | apply preserves_raise
    | apply preserves_lift
    | apply preserves_get
    | apply preserves_assert
    | apply preserves_set_expr_context
    | apply self_visit_preserves
    | apply self_comprehension_preserves
    | apply self_comp_iter_preserves
    | apply preserves_visit_opt
    | apply preserves_map_M; intros
    | apply preserves_for_each; intros
    | apply preserves_bind; [| intros]
    | match goal with
      | |- preserves (match ?x with _ => _ end) => destruct x
      | |- preserves (if ?b then _ else _) => destruct b
      end ].

Ltac balanced := balanced_using fail.

Lemma preserves_generic_visit node : preserves (generic_visit env node).
Proof. unfold generic_visit. balanced. Qed.

Lemma preserves_visit_typevar node : preserves (visit_typevar env self node).
Proof. unfold visit_typevar. balanced. Qed.

Lemma preserves_visit_paramspec node :
  preserves (visit_paramspec env self node).
Proof. unfold visit_paramspec. balanced. Qed.

Lemma preserves_visit_typevartuple node :
  preserves (visit_typevartuple env self node).
Proof. unfold visit_typevartuple. balanced. Qed.

Lemma preserves_visit_typeparam node : preserves (visit_typeparam self node).
Proof. unfold visit_typeparam. balanced. Qed.

Lemma preserves_visit_file_input node : preserves (visit_file_input self node).
Proof. unfold visit_file_input. balanced. Qed.

Lemma preserves_visit_simple_stmt node :
  preserves (visit_simple_stmt self node).
Proof. unfold visit_simple_stmt. balanced. Qed.

Lemma preserves_visit_testlist_gexp node parent :
  preserves (visit_testlist_gexp env self node parent).
Proof. unfold visit_testlist_gexp. balanced. Qed.

Lemma preserves_compile_named_expr children :
  preserves (_compile_named_expr self children).
Proof. unfold _compile_named_expr. balanced. Qed.

Lemma preserves_brace_comprehension node st cf :
  preserves (brace_comprehension self node st cf).
Proof. unfold brace_comprehension. balanced. Qed.

Lemma preserves_brace_element st : preserves (brace_element env self st).
Proof.
  unfold brace_element.
  balanced_using ltac:(apply preserves_compile_named_expr).
Qed.

Lemma preserves_brace_step node st : preserves (brace_step env self node st).
Proof.
  unfold brace_step. apply preserves_bind; [apply preserves_brace_element |].
  intros [st1 plain].
  balanced_using ltac:(apply preserves_brace_comprehension).
Qed.

Lemma preserves_brace_finish node (st : brace_state literal) :
  preserves (brace_finish node st).
Proof. unfold brace_finish. balanced. Qed.

Lemma preserves_brace_loop n node st :
  preserves (brace_loop env self n node st).
Proof.
  revert st. induction n as [| n IH]; intro st; cbn [brace_loop].
  - destruct (done (consumer st));
      [apply preserves_brace_finish | apply preserves_raise].
  - destruct (done (consumer st)); [apply preserves_brace_finish |].
    apply preserves_bind; [apply preserves_brace_step |].
    intros [st' | a]; [apply IH | apply preserves_ret].
Qed.

Lemma preserves_visit_atom node : preserves (visit_atom env self node).
Proof.
  unfold visit_atom.
  balanced_using
    ltac:(first [ apply preserves_visit_testlist_gexp
                | apply preserves_brace_loop ]).
Qed.

Lemma preserves_visit_expr node : preserves (visit_expr self node).
Proof. unfold visit_expr. balanced. Qed.

Lemma preserves_visit_comparison node :
  preserves (visit_comparison self node).
Proof. unfold visit_comparison. balanced. Qed.

Lemma preserves_visit_star_expr node : preserves (visit_star_expr self node).
Proof. unfold visit_star_expr. balanced. Qed.

Lemma preserves_visit_not_test node : preserves (visit_not_test self node).
Proof. unfold visit_not_test. balanced. Qed.

Lemma preserves_bool_operands node : preserves (bool_operands self node).
Proof. unfold bool_operands. balanced. Qed.

Lemma preserves_visit_and_test node : preserves (visit_and_test self node).
Proof.
  unfold visit_and_test.
  apply preserves_bind; [apply preserves_bool_operands | intros; balanced].
Qed.

Lemma preserves_visit_or_test node : preserves (visit_or_test self node).
Proof.
  unfold visit_or_test.
  apply preserves_bind; [apply preserves_bool_operands | intros; balanced].
Qed.

Lemma preserves_visit_test node : preserves (visit_test self node).
Proof. unfold visit_test, assert_value. balanced. Qed.

Lemma preserves_visit_factor node : preserves (visit_factor self node).
Proof. unfold visit_factor. balanced. Qed.

Lemma preserves_compile_argument node parent argument acc :
  preserves (compile_argument env self node parent argument acc).
Proof.
  unfold compile_argument.
  balanced_using ltac:(apply preserves_compile_named_expr).
Qed.

Lemma preserves_compile_arglist node parent :
  preserves (_compile_arglist env self node parent).
Proof.
  unfold _compile_arglist. apply preserves_for_each.
  intros. apply preserves_compile_argument.
Qed.

Lemma preserves_visit_power_without_await children :
  preserves (_visit_power_without_await env self children).
Proof.
  unfold _visit_power_without_await.
  balanced_using ltac:(apply preserves_compile_arglist).
Qed.

Lemma preserves_visit_power_without_power children :
  preserves (_visit_power_without_power env self children).
Proof.
  unfold _visit_power_without_power.
  balanced_using ltac:(apply preserves_visit_power_without_await).
Qed.

Lemma preserves_visit_power node : preserves (visit_power env self node).
Proof.
  unfold visit_power.
  balanced_using ltac:(apply preserves_visit_power_without_power).
Qed.

Lemma preserves_compile_comprehension node :
  preserves (_compile_comprehension env self node).
Proof. unfold _compile_comprehension. balanced. Qed.

Lemma preserves_compile_comp_iter node :
  preserves (_compile_comp_iter self node).
Proof. unfold _compile_comp_iter. balanced. Qed.

Lemma preserves_visit_subscript node : preserves (visit_subscript env self node).
Proof.
  unfold visit_subscript, visit_sliceop.
  balanced_using ltac:(apply preserves_compile_named_expr).
Qed.

Lemma preserves_visit_subscriptlist node :
  preserves (visit_subscriptlist self node).
Proof. unfold visit_subscriptlist. balanced. Qed.

Lemma preserves_visit_NAME node : preserves (@visit_NAME literal node).
Proof. unfold visit_NAME. balanced. Qed.

Lemma preserves_visit_NUMBER node : preserves (visit_NUMBER env node).
Proof. unfold visit_NUMBER. balanced. Qed.

Lemma preserves_visit_STRING node : preserves (visit_STRING env node).
Proof. unfold visit_STRING. balanced. Qed.

Lemma preserves_visit_COLON node : preserves (@visit_COLON literal node).
Proof. unfold visit_COLON. balanced. Qed.

Lemma preserves_getattr_visit name node :
  preserves (getattr_visit env self name node).
Proof.
  unfold getattr_visit, visit_methods. cbn [find fst snd].
  repeat match goal with
         | |- context [String.eqb ?a name] => destruct (String.eqb a name)
         end;
    first
      [ apply preserves_visit_typevar | apply preserves_visit_paramspec
      | apply preserves_visit_typevartuple | apply preserves_visit_typeparam
      | apply preserves_visit_file_input | apply preserves_visit_simple_stmt
      | apply preserves_visit_testlist_gexp | apply preserves_visit_atom
      | apply preserves_visit_expr | apply preserves_visit_comparison
      | apply preserves_visit_star_expr | apply preserves_visit_not_test
      | apply preserves_visit_and_test | apply preserves_visit_or_test
      | apply preserves_visit_test | apply preserves_visit_factor
      | apply preserves_visit_power | apply preserves_visit_subscript
      | apply preserves_visit_subscriptlist | apply preserves_visit_NAME
      | apply preserves_visit_NUMBER | apply preserves_visit_STRING
      | apply preserves_visit_COLON | apply preserves_generic_visit ].
Qed.

Lemma preserves_visit node : preserves (visit env self node).
Proof.
  unfold visit. apply preserves_bind; [apply preserves_lift |].
  intro name. apply preserves_getattr_visit.
Qed.

End Balanced.

(** ** Brace literals *)

Lemma consume_hit (children : list NL) (i : nat) (node : NL) (typ : option Z) :
  nth_error children i = Some node ->
  match typ with
  | None => true
  | Some t => type_of node =? t
  end = true ->
  consume (mk_Consumer children i) typ
  = (Some node, mk_Consumer children (S i)).
Proof.
  intros Hcur Htyp. unfold consume. cbn [c_children index]. rewrite Hcur.
  assert (Hlt : (i <? List.length children)%nat = true).
  { apply Nat.ltb_lt. apply nth_error_Some. congruence. }
  rewrite Hlt. destruct typ; [rewrite Htyp |]; reflexivity.
Qed.

Lemma consume_miss (children : list NL) (i : nat) (node : NL) (t : Z) :
  nth_error children i = Some node ->
  type_of node <> t ->
  consume (mk_Consumer children i) (Some t) = (None, mk_Consumer children i).
Proof.
  intros Hcur Hne. unfold consume. cbn [c_children index]. rewrite Hcur.
  apply Z.eqb_neq in Hne. rewrite Hne. now rewrite andb_false_r.
Qed.

Lemma nth_error_not_done (children : list NL) (i : nat) (node : NL) :
  nth_error children i = Some node -> done (mk_Consumer children i) = false.
Proof.
  intro H. unfold done. cbn [c_children index]. apply Nat.leb_gt.
  apply nth_error_Some. congruence.
Qed.

(** The element is [*x]: the loop reads the [star_expr] node and then lowers
    the child after it. *)
Lemma brace_element_starred (children : list NL) (i : nat) (d : bool)
  (ks : list (option AST)) (vs es : list AST) (star_node operand : NL)
  (value : AST) (r : LineRange) s s' :
  nth_error children i = Some star_node ->
  type_of star_node = star_expr (syms env) ->
  star_expr (syms env) <> token.DOUBLESTAR ->
  nth_error children (S i) = Some operand ->
  self_visit self operand s = (inr value, s') ->
  get_line_range star_node = ok r ->
  brace_element env self (mkBrace (mk_Consumer children i) d ks vs es) s
  = (inr (mkBrace (mk_Consumer children (S (S i))) d ks vs
                  (es ++ [Starred value s' r]),
          false),
     s').
Proof.
  intros Hcur Hstar Hne Hnext Hvisit Hr. unfold brace_element.
  cbn [consumer is_dict keys values elts].
  rewrite (consume_miss _ _ Hcur) by congruence. cbv beta iota.
  rewrite (consume_hit _ _ (Some (star_expr (syms env))) Hcur)
    by (rewrite Hstar; apply Z.eqb_refl).
  cbv beta iota.
  rewrite (consume_hit _ _ None Hnext) by reflexivity. cbv beta iota.
  cbn [visit_opt]. unfold bind at 1. rewrite Hvisit.
  unfold bind, get_expr_context, lift, ret. rewrite Hr. reflexivity.
Qed.


(** The element is a [key: value] pair. *)
Lemma brace_element_pair (children : list NL) (i : nat) (d : bool)
  (ks : list (option AST)) (vs es : list AST) (k colon v : NL)
  (key value : AST) s s1 s2 :
  nth_error children i = Some k ->
  type_of k <> token.DOUBLESTAR ->
  type_of k <> star_expr (syms env) ->
  nth_error children (S i) = Some colon ->
  type_of colon = token.COLON ->
  nth_error children (S (S i)) = Some v ->
  self_visit self k s = (inr key, s1) ->
  self_visit self v s1 = (inr value, s2) ->
  brace_element env self (mkBrace (mk_Consumer children i) d ks vs es) s
  = (inr (mkBrace (mk_Consumer children (S (S (S i)))) true
                  (ks ++ [Some key]) (vs ++ [value]) es,
          true),
     s2).
Proof.
  intros Hcur Hds Hstar Hcolon Htype Hv Hkey Hvalue. unfold brace_element.
  cbn [consumer is_dict keys values elts].
  rewrite (consume_miss _ _ Hcur) by assumption. cbv beta iota.
  rewrite (consume_miss _ _ Hcur) by assumption. cbv beta iota.
  rewrite (consume_hit _ _ None Hcur) by reflexivity. cbv beta iota.
  rewrite (consume_miss _ _ Hcolon) by (rewrite Htype; discriminate).
  cbv beta iota.
  rewrite (consume_hit _ _ (Some token.COLON) Hcolon)
    by (rewrite Htype; reflexivity).
  cbv beta iota. cbn [visit_opt]. unfold bind at 1. rewrite Hkey.
  rewrite (consume_hit _ _ None Hv) by reflexivity. cbv beta iota.
  cbn [visit_opt]. unfold bind at 1. rewrite Hvalue. reflexivity.
Qed.

(** After an element of the last branch, a comprehension clause ends the
    loop. *)
Lemma brace_step_comprehension (node : NL) (st st1 : brace_state literal)
  (children : list NL) (j : nat) (cf : NL) s s1 :
  brace_element env self st s = (inr (st1, true), s1) ->
  consumer st1 = mk_Consumer children j ->
  nth_error children j = Some cf ->
  type_of cf = comp_for (syms env) ->
  brace_step env self node st s
  = (a <- brace_comprehension self node st1 cf ;; ret (Return a)) s1.
Proof.
  intros Helt Hcons Hcf Htype. unfold brace_step.
  unfold bind at 1. rewrite Helt. rewrite Hcons.
  rewrite (consume_hit _ _ (Some (comp_for (syms env))) Hcf)
    by (rewrite Htype; apply Z.eqb_refl).
  reflexivity.
Qed.



Lemma len_eq_1 (A : Type) (l : list A) :
  (len l =? 1) = true -> exists a, l = [a].
Proof.
  intro H. apply Z.eqb_eq in H. unfold len in H.
  destruct l as [| a [| b l]]; cbn [List.length] in H; try lia.
  now exists a.
Qed.

Lemma brace_comprehension_too_many (node cf : NL) (st : brace_state literal)
  (comps : list AST) s s' :
  self_compile_comprehension self cf s = (inr comps, s') ->
  (1 < List.length (keys st) + List.length (elts st))%nat ->
  brace_comprehension self node st cf s = (inl AssertionError, s').
Proof.
  intros Hcomps Hmany. unfold brace_comprehension. unfold bind at 1.
  rewrite Hcomps. destruct (is_dict st).
  - destruct (len (keys st) =? 1) eqn:Hk; [| reflexivity].
    destruct (len (values st) =? 1) eqn:Hv;
      [| unfold bind, assert, ret, raise; reflexivity].
    apply len_eq_1 in Hk. destruct Hk as [k Hk]. rewrite Hk in Hmany.
    destruct (elts st) as [| e es]; [cbn in Hmany; lia |].
    unfold bind, assert, ret, raise. reflexivity.
  - destruct (len (elts st) =? 1) eqn:He; [| reflexivity].
    apply len_eq_1 in He. destruct He as [e He]. rewrite He in Hmany.
    destruct (keys st) as [| k ks]; [cbn in Hmany; lia |].
    unfold bind, assert, ret, raise. reflexivity.
Qed.

(** A node [{ inner }] whose [inner] is a [dictsetmaker] with the children
    [items]. *)
Definition brace_atom (node inner : NL) (items : list NL) : Prop :=
  exists lbrace rest,
    children_of node = lbrace :: inner :: rest
    /\ rest <> []
    /\ type_of lbrace = token.LBRACE
    /\ type_of inner = dictsetmaker (syms env)
    /\ children_of inner = items.

Lemma visit_atom_brace (node inner : NL) (items : list NL) s :
  brace_atom node inner items ->
  visit_atom env self node s
  = brace_loop env self (List.length items) node
      (mkBrace (new_Consumer items) false [] [] []) s.
Proof.
  intros (lbrace & rest & Hchildren & Hrest & Hlbrace & Hinner & Hitems).
  unfold visit_atom. rewrite Hchildren, getitem_cons_0, run_bind_lift_ok.
  rewrite Hlbrace.
  change (token.LBRACE =? token.LPAR) with false.
  change (token.LBRACE =? token.LSQB) with false.
  change (token.LBRACE =? token.LBRACE) with true. cbv iota.
  replace (len (lbrace :: inner :: rest) =? 2) with false.
  2:{ symmetry. apply Z.eqb_neq. unfold len.
      destruct rest; [contradiction |]. cbn [List.length]. lia. }
  change (getitem (lbrace :: inner :: rest) 1) with (ok inner).
  rewrite run_bind_lift_ok, Hinner, Z.eqb_refl. cbn [negb].
  rewrite Hitems. reflexivity.
Qed.


Lemma brace_loop_return (n : nat) (node : NL) (st : brace_state literal)
  (m : M AST) s s1 :
  done (consumer st) = false ->
  brace_step env self node st s = (a <- m ;; ret (Return a)) s1 ->
  brace_loop env self (S n) node st s = m s1.
Proof.
  intros Hdone Hstep. cbn [brace_loop]. rewrite Hdone.
  unfold bind at 1. rewrite Hstep. unfold bind, ret.
  destruct (m s1) as [[e | a] s']; reflexivity.
Qed.





Lemma pair_after_others (n : nat) (node : NL) (children : list NL)
  (i : nat) (d : bool) (ks : list (option AST)) (vs es : list AST)
  (k colon v cf : NL) (key value : AST) (comps : list AST) s s1 s2 s3 :
  (0 < List.length ks + List.length es)%nat ->
  nth_error children i = Some k ->
  type_of k <> token.DOUBLESTAR ->
  type_of k <> star_expr (syms env) ->
  nth_error children (S i) = Some colon ->
  type_of colon = token.COLON ->
  nth_error children (S (S i)) = Some v ->
  nth_error children (S (S (S i))) = Some cf ->
  type_of cf = comp_for (syms env) ->
  self_visit self k s = (inr key, s1) ->
  self_visit self v s1 = (inr value, s2) ->
  self_compile_comprehension self cf s2 = (inr comps, s3) ->
  brace_loop env self (S n) node (mkBrace (mk_Consumer children i) d ks vs es)
             s
  = (inl AssertionError, s3).
Proof.
  intros Hsome Hk Hds Hstar Hcolon Htype Hv Hnext Hcf Hkey Hvalue Hcomps.
  assert (Helt :
            brace_element env self
              (mkBrace (mk_Consumer children i) d ks vs es) s
            = (inr (mkBrace (mk_Consumer children (S (S (S i)))) true
                            (ks ++ [Some key]) (vs ++ [value]) es,
                    true), s2)).
  { apply brace_element_pair with (k := k) (colon := colon) (v := v) (s1 := s1);
      assumption. }
  rewrite (@brace_loop_return n node _
             (brace_comprehension self node
                (mkBrace (mk_Consumer children (S (S (S i)))) true
                         (ks ++ [Some key]) (vs ++ [value]) es)
                cf)
             s s2).
  - apply brace_comprehension_too_many with (comps := comps);
      [assumption |]. cbn [keys elts]. rewrite length_app.
    cbn [List.length]. lia.
  - exact (nth_error_not_done _ _ Hk).
  - eapply brace_step_comprehension;
      [exact Helt | reflexivity | exact Hnext | exact Hcf].
Qed.


(** *** The bound of the [while] loop is never used up *)

Lemma consume_spec (c c' : _Consumer) (typ : option Z) (o : option NL) :
  consume c typ = (o, c') ->
  c_children c' = c_children c
  /\ match o with
     | Some _ => index c' = S (index c)
     | None => c' = c
     end
  /\ (typ = None -> done c = false -> index c' = S (index c)).
Proof.
  unfold consume, done. intro H.
  destruct (index c <? List.length (c_children c))%nat eqn:Hlt.
  - apply Nat.ltb_lt in Hlt.
    destruct (nth_error (c_children c) (index c)) as [node |] eqn:Hnth.
    2:{ apply nth_error_None in Hnth. lia. }
    cbn [andb] in H.
    destruct typ as [t |].
    + destruct (type_of node =? t); injection H as <- <-;
        (split; [reflexivity | split; [reflexivity | discriminate]]).
    + injection H as <- <-. repeat split.
  - cbn [andb] in H. injection H as <- <-.
    split; [reflexivity | split; [reflexivity |]].
    intros _ Hdone. apply Nat.leb_gt in Hdone. apply Nat.ltb_ge in Hlt. lia.
Qed.

Ltac split_consume H :=
  match type of H with
  | context [consume ?c ?t] =>
      let o := fresh "o" in
      let c' := fresh "c" in
      let E := fresh "E" in
      destruct (consume c t) as [o c'] eqn:E;
      apply consume_spec in E;
      destruct E as (? & ? & ?);
      destruct o; try subst c'
  end.

Ltac split_run H :=
  match type of H with
  | context [match ?x with _ => _ end] => destruct x; try discriminate H
  end.

Lemma brace_element_advances (st st1 : brace_state literal) (plain : bool)
  s s1 :
  done (consumer st) = false ->
  brace_element env self st s = (inr (st1, plain), s1) ->
  c_children (consumer st1) = c_children (consumer st)
  /\ (index (consumer st) < index (consumer st1))%nat.
Proof.
  intros Hdone H. unfold brace_element in H.
  unfold bind, ret, lift, get_expr_context in H.
  repeat split_consume H;
    repeat split_run H;
    injection H as <- <- <-; cbn [consumer];
    repeat match goal with
           | Hn : None = None -> _ |- _ => specialize (Hn eq_refl)
           end;
    split; try congruence;
    repeat match goal with
           | Hd : done ?c = false -> _, Hc : done ?c = false |- _ =>
               specialize (Hd Hc)
           end;
    lia.
Qed.

Lemma brace_step_advances (node : NL) (st st' : brace_state literal) s s' :
  done (consumer st) = false ->
  brace_step env self node st s = (inr (Continue st'), s') ->
  c_children (consumer st') = c_children (consumer st)
  /\ (index (consumer st) < index (consumer st'))%nat.
Proof.
  intros Hdone H. unfold brace_step in H. unfold bind at 1 in H.
  destruct (brace_element env self st s) as [[e | [st1 plain]] s1] eqn:Helt;
    [discriminate |].
  eapply brace_element_advances in Helt; [| exact Hdone].
  destruct Helt as [Hc Hi].
  assert (Hrest :
            forall c,
              c_children c = c_children (consumer st1) ->
              (index (consumer st1) <= index c)%nat ->
              (if negb (done c)
               then
                 let '(comma, c') := consume c (Some token.COMMA) in
                 assert (match comma with Some _ => true | None => false end) ;;
                 ret (Continue (mkBrace c' (is_dict st1) (keys st1)
                                        (values st1) (elts st1)))
               else
                 ret (Continue (mkBrace c (is_dict st1) (keys st1)
                                        (values st1) (elts st1)))) s1
              = (inr (Continue st'), s') ->
              c_children (consumer st') = c_children (consumer st)
              /\ (index (consumer st) < index (consumer st'))%nat).
  { intros c Hcc Hci Hrun. destruct (done c); cbn [negb] in Hrun.
    - injection Hrun as <- <-. cbn [consumer]. split; [congruence | lia].
    - destruct (consume c (Some token.COMMA)) as [comma c'] eqn:E.
      apply consume_spec in E. destruct E as (Hc' & Hi' & _).
      destruct comma; unfold bind, assert, ret, raise in Hrun;
        [| discriminate].
      injection Hrun as <- <-. cbn [consumer]. split; [congruence | lia]. }
  destruct plain.
  - destruct (consume (consumer st1) (Some (comp_for (syms env))))
      as [comp c] eqn:E.
    apply consume_spec in E. destruct E as (Hc' & Hi' & _).
    destruct comp as [cf |].
    + unfold bind, ret in H.
      destruct (brace_comprehension self node st1 cf s1) as [[e | a] s2];
        discriminate.
    + subst c. apply (Hrest (consumer st1)); [reflexivity | lia | exact H].
  - apply (Hrest (consumer st1)); [reflexivity | lia | exact H].
Qed.

(** With as many iterations allowed as there are children left, allowing
    more changes nothing: the [RecursionError] of [brace_loop] is never
    raised from the initial state of [visit_atom]. *)
Lemma brace_loop_bound (n m : nat) (node : NL) (st : brace_state literal) s :
  (List.length (c_children (consumer st)) - index (consumer st) <= n)%nat ->
  (n <= m)%nat ->
  brace_loop env self n node st s = brace_loop env self m node st s.
Proof.
  revert m st s. induction n as [| n IH]; intros m st s Hleft Hle.
  - assert (Hdone : done (consumer st) = true).
    { unfold done. apply Nat.leb_le. lia. }
    destruct m; cbn [brace_loop]; rewrite Hdone; reflexivity.
  - destruct m as [| m]; [lia |]. cbn [brace_loop].
    destruct (done (consumer st)) eqn:Hdone; [reflexivity |].
    unfold bind.
    destruct (brace_step env self node st s) as [[e | [st' | a]] s'] eqn:Hstep;
      try reflexivity.
    eapply brace_step_advances in Hstep; [| exact Hdone].
    destruct Hstep as [Hc Hi]. apply IH; [rewrite Hc |]; lia.
Qed.

(** *** A clause after each kind of item *)









(** ** Starred values *)

Lemma argument_starred (node parent argument c0 c1 : NL)
  (args keywords : list AST) (value : AST) (ra : LineRange) s s' :
  is_Leaf argument = false ->
  getitem (children_of argument) 0 = ok c0 ->
  type_of c0 = token.STAR ->
  getitem (children_of argument) 1 = ok c1 ->
  self_visit self c1 s = (inr value, s') ->
  get_line_range argument = ok ra ->
  compile_argument env self node parent argument (args, keywords) s
  = (inr (args ++ [Starred value Load ra], keywords), s').
Proof.
  intros Hnode Hc0 Hstar Hc1 Hvisit Hra. unfold compile_argument.
  rewrite Hnode, Hc0, run_bind_lift_ok, Hstar, Z.eqb_refl.
  rewrite Hc1, run_bind_lift_ok. unfold bind at 1. rewrite Hvisit.
  rewrite Hra. reflexivity.
Qed.

Lemma star_expr_context (node child : NL) (value : AST) (r : LineRange)
  s s' :
  getitem (children_of node) 1 = ok child ->
  self_visit self child s = (inr value, s') ->
  get_line_range node = ok r ->
  visit_star_expr self node s = (inr (Starred value s' r), s').
Proof.
  intros Hchild Hvisit Hr. unfold visit_star_expr.
  rewrite Hchild, run_bind_lift_ok. unfold bind at 1. rewrite Hvisit.
  unfold bind, get_expr_context, lift, ret. rewrite Hr. reflexivity.
Qed.

(** ** Type parameters *)

(** Under 3.12, [visit_typevar] rejects a default. *)
Lemma typevar_default_rejected (node name eq d : NL) (default : AST) s s' :
  version_info env = (3, 12) ->
  children_of node = [name; eq; d] ->
  type_of eq = token.EQUAL ->
  self_visit self d s = (inr default, s') ->
  visit_typevar env self node s
  = (inl (UnsupportedSyntaxError "TypeVar default"), s').
Proof.
  intros Hversion Hchildren Heq Hvisit. unfold visit_typevar.
  rewrite Hversion, Hchildren.
  change (version_ge (3, 12) (3, 12)) with true.
  change (version_ge (3, 12) (3, 13)) with false.
  change (version_lt (3, 12) (3, 13)) with true. cbv iota.
  cbn [for_each].
  change (1 <? len [name; eq; d]) with true.
  change (3 <? len [name; eq; d]) with false. cbv iota.
  change (getitem [name; eq; d] 1) with (ok eq).
  change (getitem [name; eq; d] (1 + 1)) with (ok d).
  unfold bind at 1. unfold bind at 1. rewrite run_bind_lift_ok, Heq.
  change (token.EQUAL =? token.COLON) with false.
  change (token.EQUAL =? token.EQUAL) with true. cbv iota.
  rewrite run_bind_lift_ok. unfold bind at 1. rewrite Hvisit.
  reflexivity.
Qed.

(** Under 3.12, [visit_paramspec] and [visit_typevartuple] do not look at a
    default: whatever follows the name, the node is built without one and
    nothing is raised. *)
Lemma paramspec_default_dropped (node first : NL) (name : string)
  (r : LineRange) s :
  version_info env = (3, 12) ->
  getitem (children_of node) 0 = ok first ->
  value_of first = ok name ->
  get_line_range node = ok r ->
  visit_paramspec env self node s = (inr (ParamSpec name None r), s).
Proof.
  intros Hversion Hfirst Hname Hr. unfold visit_paramspec.
  rewrite Hversion.
  change (version_ge (3, 12) (3, 13)) with false.
  change (version_ge (3, 12) (3, 12)) with true. cbv iota.
  rewrite Hfirst, run_bind_lift_ok, Hname, run_bind_lift_ok, Hr.
  reflexivity.
Qed.

Lemma typevartuple_default_dropped (node first : NL) (name : string)
  (r : LineRange) s :
  version_info env = (3, 12) ->
  getitem (children_of node) 0 = ok first ->
  value_of first = ok name ->
  get_line_range node = ok r ->
  visit_typevartuple env self node s = (inr (TypeVarTuple name None r), s).
Proof.
  intros Hversion Hfirst Hname Hr. unfold visit_typevartuple.
  rewrite Hversion.
  change (version_ge (3, 12) (3, 13)) with false.
  change (version_ge (3, 12) (3, 12)) with true. cbv iota.
  rewrite Hfirst, run_bind_lift_ok, Hname, run_bind_lift_ok, Hr.
  reflexivity.
Qed.

End Methods.

(** ** The compiler as a whole *)

(** Every method of a [Compiler], at every depth, leaves the expression
    context as it found it, whether it returns or raises. *)
Lemma compiler_preserves (literal : Type) (env : Env literal) (depth : nat) :
  (forall node, preserves (self_visit (Compiler env depth) node))
  /\ (forall node,
         preserves (self_compile_comprehension (Compiler env depth) node))
  /\ (forall node,
         preserves (self_compile_comp_iter (Compiler env depth) node)).
Proof.
  induction depth as [| depth (IHvisit & IHcomp & IHiter)].
  - repeat split; intro node; apply preserves_raise.
  - cbn [Compiler self_visit self_compile_comprehension
           self_compile_comp_iter].
    split; [| split]; intro node.
    + apply preserves_visit; assumption.
    + apply preserves_compile_comprehension; assumption.
    + apply preserves_compile_comp_iter; assumption.
Qed.

Lemma visit_returns_in_context (literal : Type) (env : Env literal)
  (depth : nat) (node : NL) (outcome : result (AST literal)) s s' :
  self_visit (Compiler env depth) node s = (outcome, s') -> s' = s.
Proof.
  intro H. pose proof (proj1 (compiler_preserves env depth) node s) as Hs.
  rewrite H in Hs. exact Hs.
Qed.

(** [Compiler().visit] of a whole tree ends in the [Load] context it began
    in. *)
Lemma compile_tree_context (literal : Type) (env : Env literal) (depth : nat)
  (tree : NL) :
  snd (compile_tree env depth tree) = Load.
Proof. apply (proj1 (compiler_preserves env depth)). Qed.

(** A node whose kind is named [star_expr] is lowered by [visit_star_expr]. *)
Lemma visit_dispatches_star_expr (literal : Type) (env : Env literal)
  (self : Self literal) (node : NL) s :
  256 <= type_of node ->
  node_type_to_name env (type_of node) = "star_expr" ->
  visit env self node s = visit_star_expr self node s.
Proof.
  intros Hsym Hname. unfold visit, get_node_name.
  replace (type_of node <? 256) with false
    by (symmetry; apply Z.ltb_ge; exact Hsym).
  rewrite Hname. reflexivity.
Qed.

(** C9. In an argument list, [*expr] becomes a [Starred] node whose context
    is [Load] whatever the ambient context is. A [star_expr] node, which is
    how a starred element of a list or tuple display, or one standing alone,
    is lowered, becomes a [Starred] node with the ambient context, and so
    does the [star_expr] that the loop over a brace literal reads. *)
Theorem starred_context (literal : Type) (env : Env literal) (depth : nat) :
  let self := Compiler env depth in
  (forall node parent argument c0 c1 args keywords value ra ambient s',
      is_Leaf argument = false ->
      getitem (children_of argument) 0 = ok c0 ->
      type_of c0 = token.STAR ->
      getitem (children_of argument) 1 = ok c1 ->
      self_visit self c1 ambient = (inr value, s') ->
      get_line_range argument = ok ra ->
      compile_argument env self node parent argument (args, keywords) ambient
      = (inr (args ++ [Starred value Load ra], keywords), ambient))
  /\ (forall node child value r ambient s',
         getitem (children_of node) 1 = ok child ->
         self_visit self child ambient = (inr value, s') ->
         get_line_range node = ok r ->
         visit_star_expr self node ambient
         = (inr (Starred value ambient r), ambient))
  /\ (forall node ambient,
         256 <= type_of node ->
         node_type_to_name env (type_of node) = "star_expr" ->
         self_visit (Compiler env (S depth)) node ambient
         = visit_star_expr self node ambient)
  /\ (forall children i d ks vs es star_node operand value r ambient s',
         nth_error children i = Some star_node ->
         type_of star_node = star_expr (syms env) ->
         star_expr (syms env) <> token.DOUBLESTAR ->
         nth_error children (S i) = Some operand ->
         self_visit self operand ambient = (inr value, s') ->
         get_line_range star_node = ok r ->
         brace_element env self (mkBrace (mk_Consumer children i) d ks vs es)
                       ambient
         = (inr (mkBrace (mk_Consumer children (S (S i))) d ks vs
                         (es ++ [Starred value ambient r]),
                 false),
            ambient)).
Proof.
  cbv zeta. split; [| split; [| split]].
  - intros node parent argument c0 c1 args keywords value ra ambient s'
      Hnode Hc0 Hstar Hc1 Hvisit Hra.
    assert (s' = ambient) as ->
      by (eapply visit_returns_in_context; exact Hvisit).
    eapply argument_starred; eassumption.
  - intros node child value r ambient s' Hchild Hvisit Hr.
    assert (s' = ambient) as ->
      by (eapply visit_returns_in_context; exact Hvisit).
    eapply star_expr_context; eassumption.
  - intros node ambient Hsym Hname. cbn [Compiler self_visit].
    apply visit_dispatches_star_expr; assumption.
  - intros children i d ks vs es star_node operand value r ambient s'
      Hcur Htype Hne Hnext Hvisit Hr.
    assert (s' = ambient) as ->
      by (eapply visit_returns_in_context; exact Hvisit).
    eapply brace_element_starred; eassumption.
Qed.

(* ===================================================================== *)
(** * Part 4. The module at work                                         *)
(* ===================================================================== *)

Section Examples.
Import Grammar.

Definition py312 : Env string := env (3, 12).
Definition py313 : Env string := env (3, 13).

Definition name_leaf (text : string) (col : Z) : NL := tok token.NAME text col.
Definition name_node (text : string) (ctx : expr_context) (col : Z)
  : AST string :=
  Name text ctx (cols col (col + len_str text)).

(** [a] *)
Definition tree_a : NL :=
  node "file_input"
    [ node "simple_stmt"
        [ name_leaf "a" 0; tok token.NEWLINE (String newline "") 1 ];
      NLeaf (mkLeaf token.ENDMARKER "" 2 0) ].

Example compile_a :
  compile_tree py312 3 tree_a
  = (inr (Module [Expr (name_node "a" Load 0) (cols 0 1)] []
                 (mkLineRange 1 0 2 0)),
     Load).
Proof. reflexivity. Qed.

(** The statement [a] at the head of [tree_a]: the expression statement ends
    with the name, the statement node with the newline token. *)
Lemma simple_stmt_range_witness :
  let stmt := node "simple_stmt"
                [ name_leaf "a" 0; tok token.NEWLINE (String newline "") 1 ] in
  visit_simple_stmt (Compiler py312 1) stmt Load
  = (inr (Expr (name_node "a" Load 0) (cols 0 1)), Load)
  /\ get_line_range stmt = ok (mkLineRange 1 0 2 0).
Proof.
  cbv zeta.
  destruct (@simple_stmt_range string (Compiler py312 1)
              (node "simple_stmt"
                 [ name_leaf "a" 0; tok token.NEWLINE (String newline "") 1 ])
              (name_leaf "a" 0) (name_node "a" Load 0) Load Load
              eq_refl eq_refl)
    as (Hexpr & _ & Hnode).
  split.
  - exact (Hexpr eq_refl (cols 0 1) eq_refl).
  - exact (Hnode _ _ _ eq_refl eq_refl).
Defined.

(** [a - b - c] is [(a - b) - c]. *)
Lemma binop_chain_left_nested_witness :
  visit_expr (Compiler py312 1)
    (node "arith_expr"
       ([ name_leaf "a" 0; tok token.MINUS "-" 2; name_leaf "b" 4 ]
        ++ [ tok token.MINUS "-" 6; name_leaf "c" 8 ]))
    Load
  = (inr (BinOp (BinOp (name_node "a" Load 0) Sub (name_node "b" Load 4)
                       (cols 0 5))
                Sub (name_node "c" Load 8) (cols 0 9)),
     Load).
Proof.
  apply (proj1 (proj2 (binop_chain_left_nested (Compiler py312 1))))
    with (t := sym "arith_expr") (first := name_leaf "a" 0) (s1 := Load)
         (rb := cols 0 1) (rc := cols 8 9);
    reflexivity.
Defined.

(** [a < b is not c] is one [Compare]. *)
Lemma comparison_chain_single_node_witness :
  visit_comparison (Compiler py312 1)
    (node "comparison"
       ([ name_leaf "a" 0; tok token.LESS "<" 2; name_leaf "b" 4 ]
        ++ [ node "comp_op" [ name_leaf "is" 6; name_leaf "not" 9 ];
             name_leaf "c" 13 ]))
    Load
  = (inr (Compare (name_node "a" Load 0) ([Lt] ++ [IsNot])
                  ([name_node "b" Load 4] ++ [name_node "c" Load 13])
                  (cols 0 14)),
     Load).
Proof.
  apply (proj1 (proj2 (comparison_chain_single_node (Compiler py312 1))))
    with (t := sym "comparison") (r0 := cols 0 5) (s1 := Load);
    reflexivity.
Defined.

(** Leaving the block by an exception. *)
Lemma set_expr_context_restores_witness :
  set_expr_context Store (@raise unit AssertionError) Load
  = (inl AssertionError, Load).
Proof.
  apply (proj2 (proj2 (set_expr_context_restores Store
                         (@raise unit AssertionError) Load)))
    with (s' := Store).
  reflexivity.
Defined.

(** [(1 := 2)] and [f(1=2)]: the target is a number. *)
Definition walrus_children : list (option NL) :=
  [ Some (tok token.NUMBER "1" 0); Some (tok token.COLONEQUAL ":=" 2);
    Some (tok token.NUMBER "2" 5) ].

Definition keyword_argument : NL :=
  node "argument"
    [ tok token.NUMBER "1" 2; tok token.EQUAL "=" 3; tok token.NUMBER "2" 4 ].

Lemma keyword_argument_shaped :
  keyword_shaped keyword_argument (tok token.NUMBER "1" 2)
    (tok token.EQUAL "=" 3) (tok token.NUMBER "2" 4) [].
Proof. repeat split; discriminate. Defined.

Lemma non_name_target_rejected_witness :
  _compile_named_expr (Compiler py312 1) walrus_children Load
  = (inl (UnsupportedSyntaxError "walrus target must be a name"), Load)
  /\ compile_argument py312 (Compiler py312 1) keyword_argument
       (node "trailer" []) keyword_argument ([], []) Load
     = (inl (UnsupportedSyntaxError "keyword argument target must be a name"),
        Load).
Proof.
  split.
  - destruct (proj1 (non_name_target_rejected py312 (Compiler py312 1))
                walrus_children (Some (tok token.NUMBER "1" 0))
                (Constant (Literal "1") (cols 0 1)) Load Store
                eq_refl eq_refl)
      as [Hreject _].
    exact (Hreject eq_refl).
  - destruct (proj2 (non_name_target_rejected py312 (Compiler py312 1))
                keyword_argument (node "trailer" []) keyword_argument
                (tok token.NUMBER "1" 2) (tok token.EQUAL "=" 3)
                (tok token.NUMBER "2" 4) []
                (Constant (Literal "1") (cols 2 3)) Store
                keyword_argument_shaped eq_refl)
      as [Hreject _].
    exact (proj1 (Hreject eq_refl) ([], []) Load).
Defined.

(** [a[1 := 2]], [f(1 := 2)] and [{1 := 2}], each as the parser hands it
    over. *)
Definition one_walrus_two (col : Z) : list NL :=
  [ tok token.NUMBER "1" col; tok token.COLONEQUAL ":=" (col + 2);
    tok token.NUMBER "2" (col + 5) ].

Definition subscript_walrus : NL :=
  node "file_input"
    [ node "simple_stmt"
        [ node "power"
            [ name_leaf "a" 0;
              node "trailer"
                [ tok token.LSQB "[" 1;
                  node "subscript" (one_walrus_two 2);
                  tok token.RSQB "]" 8 ] ];
          tok token.NEWLINE (String newline "") 9 ];
      NLeaf (mkLeaf token.ENDMARKER "" 2 0) ].

Definition call_walrus : NL :=
  node "file_input"
    [ node "simple_stmt"
        [ node "power"
            [ name_leaf "f" 0;
              node "trailer"
                [ tok token.LPAR "(" 1;
                  node "argument" (one_walrus_two 2);
                  tok token.RPAR ")" 8 ] ];
          tok token.NEWLINE (String newline "") 9 ];
      NLeaf (mkLeaf token.ENDMARKER "" 2 0) ].

Definition brace_walrus : NL :=
  node "file_input"
    [ node "simple_stmt"
        [ node "atom"
            [ tok token.LBRACE "{" 0;
              node "dictsetmaker" (one_walrus_two 1);
              tok token.RBRACE "}" 7 ];
          tok token.NEWLINE (String newline "") 8 ];
      NLeaf (mkLeaf token.ENDMARKER "" 2 0) ].

(** Lines 653-658 of [visit_subscript] mean to hand [target := value] over
    to [_compile_named_expr], but compare the text of the middle leaf with a
    token number, so the branch is never taken: the node is read as a slice,
    the target is lowered as its lower bound in the ambient context, and the
    assertion that a colon follows fails. *)
Lemma visit_subscript_walrus (literal : Type) (env : Env literal)
  (self : Self literal) (t : Z) (target walrus value : NL)
  (lowered : AST literal) (s s1 : expr_context) :
  type_of target <> token.COLON ->
  type_of walrus = token.COLONEQUAL ->
  self_visit self target s = (inr lowered, s1) ->
  visit_subscript env self (Node t [target; walrus; value]) s
  = (inl AssertionError, s1).
Proof.
  intros Htarget Hwalrus Hvisit. unfold visit_subscript.
  cbn [children_of].
  change (len [target; walrus; value] =? 3) with true. cbv beta iota.
  change (getitem [target; walrus; value] 1) with (@inr exn NL walrus).
  assert (Hskip :
            (if is_Leaf walrus
             then bind (lift (value_of walrus))
                       (fun v => ret (str_eq_int v token.COLONEQUAL))
             else ret false) s
            = (inr false, s)).
  { destruct walrus; reflexivity. }
  unfold bind at 1. rewrite run_bind_lift_ok. rewrite Hskip. cbv beta iota.
  unfold new_Consumer.
  rewrite (@consume_miss [target; walrus; value] 0 target token.COLON)
    by (reflexivity || assumption).
  cbv beta iota.
  rewrite (@consume_hit [target; walrus; value] 0 target None)
    by reflexivity.
  cbv beta iota. cbn [visit_opt].
  unfold bind at 1. unfold bind at 1. rewrite Hvisit.
  rewrite (@consume_miss [target; walrus; value] 1 walrus token.COLON)
    by (reflexivity || (rewrite Hwalrus; discriminate)).
  reflexivity.
Qed.

(** C6, as the code has it. The check on the target is made where
    [_compile_named_expr] is reached: [f(1 := 2)] and [{1 := 2}] raise
    [UnsupportedSyntaxError]. An assignment expression in a subscript never
    gets there: whatever its target lowers to, a name or not,
    [visit_subscript] fails an assertion, so [a[1 := 2]] ends in
    [AssertionError] and not in [UnsupportedSyntaxError]. *)
Theorem subscript_walrus_target_unchecked :
  (forall (literal : Type) (env : Env literal) (self : Self literal) (t : Z)
          (target walrus value : NL) (lowered : AST literal)
          (s s1 : expr_context),
      type_of target <> token.COLON ->
      type_of walrus = token.COLONEQUAL ->
      self_visit self target s = (inr lowered, s1) ->
      visit_subscript env self (Node t [target; walrus; value]) s
      = (inl AssertionError, s1))
  /\ compile_tree py312 6 subscript_walrus = (inl AssertionError, Load)
  /\ compile_tree py312 6 call_walrus
     = (inl (UnsupportedSyntaxError "walrus target must be a name"), Load)
  /\ compile_tree py312 6 brace_walrus
     = (inl (UnsupportedSyntaxError "walrus target must be a name"), Load).
Proof.
  split; [| repeat split].
  intros literal env self t target walrus value lowered s s1.
  apply visit_subscript_walrus.
Qed.

(** [{a for x in y}] and [{a, b for x in y}]. *)
Definition for_x_in_y (col : Z) : NL :=
  node "comp_for"
    [ name_leaf "for" col; name_leaf "x" (col + 4); name_leaf "in" (col + 6);
      name_leaf "y" (col + 9) ].

Definition x_in_y (col : Z) : AST string :=
  comprehension (name_node "x" Store (col + 4)) (name_node "y" Load (col + 9))
                [] 0.








(** [{a := b for x in y}] is a set comprehension of the assignment
    expression. *)
Example walrus_comprehension :
  visit_atom py312 (Compiler py312 2)
    (node "atom"
       [ tok token.LBRACE "{" 0;
         node "dictsetmaker"
           [ name_leaf "a" 1; tok token.COLONEQUAL ":=" 3; name_leaf "b" 6;
             for_x_in_y 8 ];
         tok token.RBRACE "}" 18 ])
    Load
  = (inr (SetComp (NamedExpr (name_node "a" Store 1) (name_node "b" Load 6)
                             (cols 1 7))
                  [x_in_y 8] (cols 0 19)),
     Load).
Proof. reflexivity. Qed.

(** A starred argument of a call and a starred element, both met in a
    [Store] context. *)
Definition starred_argument : NL :=
  node "argument" [ tok token.STAR "*" 2; name_leaf "a" 3 ].

Definition starred_element : NL :=
  node "star_expr" [ tok token.STAR "*" 2; name_leaf "a" 3 ].

Lemma starred_context_witness :
  compile_argument py312 (Compiler py312 1) starred_argument
    (node "trailer" []) starred_argument ([], []) Store
  = (inr ([] ++ [Starred (name_node "a" Store 3) Load (cols 2 4)], []), Store)
  /\ visit_star_expr (Compiler py312 1) starred_element Store
     = (inr (Starred (name_node "a" Store 3) Store (cols 2 4)), Store).
Proof.
  pose proof (starred_context py312 1) as H. cbv zeta in H.
  destruct H as (Hargument & Helement & _).
  split.
  - apply (Hargument starred_argument (node "trailer" []) starred_argument
             (tok token.STAR "*" 2) (name_leaf "a" 3) [] []
             (name_node "a" Store 3) (cols 2 4) Store Store);
      reflexivity.
  - apply (Helement starred_element (name_leaf "a" 3) (name_node "a" Store 3)
             (cols 2 4) Store Store);
      reflexivity.
Defined.

(** [**P = int], [*Ts = int] and [T = int] in a type parameter list. *)
Definition paramspec_with_default : NL :=
  node "paramspec"
    [ tok token.DOUBLESTAR "**" 0; name_leaf "P" 2; tok token.EQUAL "=" 4;
      name_leaf "int" 6 ].

Definition typevartuple_with_default : NL :=
  node "typevartuple"
    [ tok token.STAR "*" 0; name_leaf "Ts" 1; tok token.EQUAL "=" 4;
      name_leaf "int" 6 ].

Definition typevar_with_default : NL :=
  node "typevar" [ name_leaf "T" 0; tok token.EQUAL "=" 2; name_leaf "int" 4 ].

(** C1, as the code has it. Under 3.12 a default on a [TypeVar] raises
    [UnsupportedSyntaxError], but a default on a [ParamSpec] or on a
    [TypeVarTuple] is dropped without a word: the node comes back without
    it. Under 3.13 the same trees keep their default. *)
Theorem type_parameter_default_under_312 :
  self_visit (Compiler py312 2) typevar_with_default Load
  = (inl (UnsupportedSyntaxError "TypeVar default"), Load)
  /\ self_visit (Compiler py312 2) paramspec_with_default Load
     = (inr (ParamSpec "**" None (cols 0 9)), Load)
  /\ self_visit (Compiler py312 2) typevartuple_with_default Load
     = (inr (TypeVarTuple "*" None (cols 0 9)), Load)
  /\ self_visit (Compiler py313 2) paramspec_with_default Load
     = (inr (ParamSpec "**" (Some (name_node "int" Load 6)) (cols 0 9)), Load)
  /\ self_visit (Compiler py313 2) typevartuple_with_default Load
     = (inr (TypeVarTuple "*" (Some (name_node "int" Load 6)) (cols 0 9)),
        Load).
Proof. repeat split. Qed.

End Examples.

(* ===================================================================== *)
(** * Part 5. Further properties of the module                           *)
(* ===================================================================== *)

(** ** The depth of a compiler

    [extends m m']: whatever [m] comes to, other than running out of depth,
    [m'] comes to as well. *)

Definition extends {A} (m m' : M A) : Prop :=
  forall s r s', m s = (r, s') -> r <> inl RecursionError -> m' s = (r, s').

Lemma extends_refl (A : Type) (m : M A) : extends m m.
Proof. intros s r s' H _. exact H. Qed.

Lemma extends_trans (A : Type) (m1 m2 m3 : M A) :
  extends m1 m2 -> extends m2 m3 -> extends m1 m3.
Proof. intros H12 H23 s r s' H Hr. apply H23, Hr. apply H12, Hr. exact H. Qed.

Lemma extends_bind (A B : Type) (m m' : M A) (k k' : A -> M B) :
  extends m m' -> (forall a, extends (k a) (k' a)) ->
  extends (bind m k) (bind m' k').
Proof.
  intros Hm Hk s r s' H Hr. unfold bind in *.
  destruct (m s) as [[e | a] s1] eqn:Hms.
  - injection H as <- <-.
    assert (He : @inl exn A e <> inl RecursionError) by congruence.
    rewrite (Hm _ _ _ Hms He). reflexivity.
  - rewrite (Hm _ _ _ Hms) by discriminate. apply Hk; assumption.
Qed.

Lemma extends_set_expr_context (A : Type) (ctx : expr_context)
  (body body' : M A) :
  extends body body' ->
  extends (set_expr_context ctx body) (set_expr_context ctx body').
Proof.
  intros Hbody s r s' H Hr. rewrite set_expr_context_run in *.
  injection H as <- <-.
  destruct (body ctx) as [r0 s0] eqn:Hrun. cbn [fst] in *.
  rewrite (Hbody _ _ _ Hrun Hr). reflexivity.
Qed.

Lemma extends_for_each (X S : Type) (xs : list X) (body body' : X -> S -> M S) :
  (forall x acc, extends (body x acc) (body' x acc)) ->
  forall acc, extends (for_each xs body acc) (for_each xs body' acc).
Proof.
  intros Hbody. induction xs as [| x xs IH]; intro acc; cbn [for_each].
  - apply extends_refl.
  - apply extends_bind; [apply Hbody | exact IH].
Qed.

Lemma extends_map_M (X Y : Type) (xs : list X) (f f' : X -> M Y) :
  (forall x, extends (f x) (f' x)) -> extends (map_M f xs) (map_M f' xs).
Proof.
  intros Hf. induction xs as [| x xs IH]; cbn [map_M].
  - apply extends_refl.
  - apply extends_bind; [apply Hf |].
    intro y. apply extends_bind; [exact IH |].
    intro ys. apply extends_refl.
Qed.

Section Deeper.
Variable literal : Type.
Variable env : Env literal.
Variables self self' : Self literal.

Hypothesis deeper_visit :
  forall node, extends (self_visit self node) (self_visit self' node).
Hypothesis deeper_comprehension :
  forall node, extends (self_compile_comprehension self node)
                       (self_compile_comprehension self' node).
Hypothesis deeper_comp_iter :
  forall node, extends (self_compile_comp_iter self node)
                       (self_compile_comp_iter self' node).

Lemma extends_visit_opt (node : option NL) :
  extends (visit_opt self node) (visit_opt self' node).
Proof. destruct node; [apply deeper_visit | apply extends_refl]. Qed.

Ltac deeper_using known :=
  repeat first
    [ match goal with
      | |- extends ?m ?m => apply extends_refl
      end
    | known
    | apply deeper_visit
    | apply deeper_comprehension
    | apply deeper_comp_iter
    | apply extends_visit_opt
    | apply extends_set_expr_context
    | apply extends_map_M; intros
    | apply extends_for_each; intros
    | apply extends_bind; [| intros]
    | match goal with
      | |- extends (match ?x with _ => _ end) (match ?x with _ => _ end) =>
          destruct x
      | |- extends (if ?b then _ else _) (if ?b then _ else _) => destruct b
      end ].

Ltac deeper := deeper_using fail.

Lemma extends_visit_typevar node :
  extends (visit_typevar env self node) (visit_typevar env self' node).
Proof. unfold visit_typevar. deeper. Qed.

Lemma extends_visit_paramspec node :
  extends (visit_paramspec env self node) (visit_paramspec env self' node).
Proof. unfold visit_paramspec. deeper. Qed.

Lemma extends_visit_typevartuple node :
  extends (visit_typevartuple env self node)
          (visit_typevartuple env self' node).
Proof. unfold visit_typevartuple. deeper. Qed.

Lemma extends_visit_typeparam node :
  extends (visit_typeparam self node) (visit_typeparam self' node).
Proof. unfold visit_typeparam. deeper. Qed.

Lemma extends_visit_file_input node :
  extends (visit_file_input self node) (visit_file_input self' node).
Proof. unfold visit_file_input. deeper. Qed.

Lemma extends_visit_simple_stmt node :
  extends (visit_simple_stmt self node) (visit_simple_stmt self' node).
Proof. unfold visit_simple_stmt. deeper. Qed.

Lemma extends_visit_testlist_gexp node parent :
  extends (visit_testlist_gexp env self node parent)
          (visit_testlist_gexp env self' node parent).
Proof. unfold visit_testlist_gexp. deeper. Qed.

Lemma extends_compile_named_expr children :
  extends (_compile_named_expr self children)
          (_compile_named_expr self' children).
Proof. unfold _compile_named_expr. deeper. Qed.

Lemma extends_brace_comprehension node st cf :
  extends (brace_comprehension self node st cf)
          (brace_comprehension self' node st cf).
Proof. unfold brace_comprehension. deeper. Qed.

Lemma extends_brace_element st :
  extends (brace_element env self st) (brace_element env self' st).
Proof.
  unfold brace_element.
  deeper_using ltac:(apply extends_compile_named_expr).
Qed.

Lemma extends_brace_step node st :
  extends (brace_step env self node st) (brace_step env self' node st).
Proof.
  unfold brace_step. apply extends_bind; [apply extends_brace_element |].
  intros [st1 plain].
  deeper_using ltac:(apply extends_brace_comprehension).
Qed.

Lemma extends_brace_loop n node st :
  extends (brace_loop env self n node st) (brace_loop env self' n node st).
Proof.
  revert st. induction n as [| n IH]; intro st; cbn [brace_loop].
  - apply extends_refl.
  - destruct (done (consumer st)); [apply extends_refl |].
    apply extends_bind; [apply extends_brace_step |].
    intros [st' | a]; [apply IH | apply extends_refl].
Qed.

Lemma extends_visit_atom node :
  extends (visit_atom env self node) (visit_atom env self' node).
Proof.
  unfold visit_atom.
  deeper_using
    ltac:(first [ apply extends_visit_testlist_gexp
                | apply extends_brace_loop ]).
Qed.

Lemma extends_visit_expr node :
  extends (visit_expr self node) (visit_expr self' node).
Proof. unfold visit_expr. deeper. Qed.

Lemma extends_visit_comparison node :
  extends (visit_comparison self node) (visit_comparison self' node).
Proof. unfold visit_comparison. deeper. Qed.

Lemma extends_visit_star_expr node :
  extends (visit_star_expr self node) (visit_star_expr self' node).
Proof. unfold visit_star_expr. deeper. Qed.

Lemma extends_visit_not_test node :
  extends (visit_not_test self node) (visit_not_test self' node).
Proof. unfold visit_not_test. deeper. Qed.

Lemma extends_bool_operands node :
  extends (bool_operands self node) (bool_operands self' node).
Proof. unfold bool_operands. deeper. Qed.

Lemma extends_visit_and_test node :
  extends (visit_and_test self node) (visit_and_test self' node).
Proof.
  unfold visit_and_test.
  apply extends_bind; [apply extends_bool_operands | intros; deeper].
Qed.

Lemma extends_visit_or_test node :
  extends (visit_or_test self node) (visit_or_test self' node).
Proof.
  unfold visit_or_test.
  apply extends_bind; [apply extends_bool_operands | intros; deeper].
Qed.

Lemma extends_visit_test node :
  extends (visit_test self node) (visit_test self' node).
Proof. unfold visit_test, assert_value. deeper. Qed.

Lemma extends_visit_factor node :
  extends (visit_factor self node) (visit_factor self' node).
Proof. unfold visit_factor. deeper. Qed.

Lemma extends_compile_argument node parent argument acc :
  extends (compile_argument env self node parent argument acc)
          (compile_argument env self' node parent argument acc).
Proof.
  unfold compile_argument.
  deeper_using ltac:(apply extends_compile_named_expr).
Qed.

Lemma extends_compile_arglist node parent :
  extends (_compile_arglist env self node parent)
          (_compile_arglist env self' node parent).
Proof.
  unfold _compile_arglist. apply extends_for_each.
  intros. apply extends_compile_argument.
Qed.

Lemma extends_visit_power_without_await children :
  extends (_visit_power_without_await env self children)
          (_visit_power_without_await env self' children).
Proof.
  unfold _visit_power_without_await.
  deeper_using ltac:(apply extends_compile_arglist).
Qed.

Lemma extends_visit_power_without_power children :
  extends (_visit_power_without_power env self children)
          (_visit_power_without_power env self' children).
Proof.
  unfold _visit_power_without_power.
  deeper_using ltac:(apply extends_visit_power_without_await).
Qed.

Lemma extends_visit_power node :
  extends (visit_power env self node) (visit_power env self' node).
Proof.
  unfold visit_power.
  deeper_using ltac:(apply extends_visit_power_without_power).
Qed.

Lemma extends_compile_comprehension node :
  extends (_compile_comprehension env self node)
          (_compile_comprehension env self' node).
Proof. unfold _compile_comprehension. deeper. Qed.

Lemma extends_compile_comp_iter node :
  extends (_compile_comp_iter self node) (_compile_comp_iter self' node).
Proof. unfold _compile_comp_iter. deeper. Qed.

Lemma extends_visit_subscript node :
  extends (visit_subscript env self node) (visit_subscript env self' node).
Proof.
  unfold visit_subscript, visit_sliceop.
  deeper_using ltac:(apply extends_compile_named_expr).
Qed.

Lemma extends_visit_subscriptlist node :
  extends (visit_subscriptlist self node) (visit_subscriptlist self' node).
Proof. unfold visit_subscriptlist. deeper. Qed.

Lemma extends_getattr_visit name node :
  extends (getattr_visit env self name node)
          (getattr_visit env self' name node).
Proof.
  unfold getattr_visit, visit_methods. cbn [find fst snd].
  repeat match goal with
         | |- context [String.eqb ?a name] => destruct (String.eqb a name)
         end;
    first
      [ apply extends_visit_typevar | apply extends_visit_paramspec
      | apply extends_visit_typevartuple | apply extends_visit_typeparam
      | apply extends_visit_file_input | apply extends_visit_simple_stmt
      | apply extends_visit_testlist_gexp | apply extends_visit_atom
      | apply extends_visit_expr | apply extends_visit_comparison
      | apply extends_visit_star_expr | apply extends_visit_not_test
      | apply extends_visit_and_test | apply extends_visit_or_test
      | apply extends_visit_test | apply extends_visit_factor
      | apply extends_visit_power | apply extends_visit_subscript
      | apply extends_visit_subscriptlist | apply extends_refl ].
Qed.

Lemma extends_visit node :
  extends (visit env self node) (visit env self' node).
Proof.
  unfold visit. apply extends_bind; [apply extends_refl |].
  intro name. apply extends_getattr_visit.
Qed.

End Deeper.

Lemma compiler_deeper_step (literal : Type) (env : Env literal) (d : nat) :
  (forall node, extends (self_visit (Compiler env d) node)
                        (self_visit (Compiler env (S d)) node))
  /\ (forall node,
         extends (self_compile_comprehension (Compiler env d) node)
                 (self_compile_comprehension (Compiler env (S d)) node))
  /\ (forall node,
         extends (self_compile_comp_iter (Compiler env d) node)
                 (self_compile_comp_iter (Compiler env (S d)) node)).
Proof.
  induction d as [| d (IHvisit & IHcomp & IHiter)].
  - repeat split; intros node s r s' H Hr; injection H as <- <-;
      contradiction Hr; reflexivity.
  - split; [| split]; intro node.
    + change (extends (visit env (Compiler env d) node)
                      (visit env (Compiler env (S d)) node)).
      apply extends_visit; assumption.
    + change (extends (_compile_comprehension env (Compiler env d) node)
                      (_compile_comprehension env (Compiler env (S d)) node)).
      apply extends_compile_comprehension; assumption.
    + change (extends (_compile_comp_iter (Compiler env d) node)
                      (_compile_comp_iter (Compiler env (S d)) node)).
      apply extends_compile_comp_iter; assumption.
Qed.

Lemma compiler_deeper (literal : Type) (env : Env literal) (d d' : nat)
  (node : NL) :
  (d <= d')%nat ->
  extends (self_visit (Compiler env d) node)
          (self_visit (Compiler env d') node).
Proof.
  induction 1 as [| d' Hle IH].
  - apply extends_refl.
  - eapply extends_trans; [exact IH |].
    apply (proj1 (compiler_deeper_step env d')).
Qed.

(** X1. Lowering is balanced as a whole: whatever tree a compiler of
    whatever depth is given, and whether it returns a node or raises, the
    expression context afterwards is the one it started from; so is it after
    lowering a comprehension clause. Nothing leaks from one sibling to the
    next. *)
Theorem lowering_is_balanced (literal : Type) (env : Env literal)
  (depth : nat) (node : NL) (s : expr_context) :
  snd (self_visit (Compiler env depth) node s) = s
  /\ snd (self_compile_comprehension (Compiler env depth) node s) = s
  /\ snd (self_compile_comp_iter (Compiler env depth) node s) = s.
Proof.
  destruct (compiler_preserves env depth) as (Hvisit & Hcomp & Hiter).
  split; [apply Hvisit | split; [apply Hcomp | apply Hiter]].
Qed.

(** X2. The outcome of lowering does not depend on how deep the compiler may
    nest its calls, once that is deep enough: an outcome other than
    [RecursionError] at one depth is the outcome at every greater depth. *)
Theorem outcome_independent_of_depth (literal : Type) (env : Env literal)
  (d d' : nat) (node : NL) (r : result (AST literal)) (s s' : expr_context) :
  (d <= d')%nat ->
  self_visit (Compiler env d) node s = (r, s') ->
  r <> inl RecursionError ->
  self_visit (Compiler env d') node s = (r, s').
Proof. intros Hle. apply compiler_deeper. exact Hle. Qed.

(** ** The range of a tree *)

(** Induction over parse trees: a property of the children carries to the
    node. *)
Fixpoint NL_induction (P : NL -> Prop)
  (Hleaf : forall leaf, P (NLeaf leaf))
  (Hnode : forall t children, Forall P children -> P (Node t children))
  (node : NL) {struct node} : P node :=
  match node with
  | NLeaf leaf => Hleaf leaf
  | Node t children =>
      Hnode t children
        ((fix all (cs : list NL) : Forall P cs :=
            match cs with
            | [] => @Forall_nil NL P
            | c :: cs' =>
                @Forall_cons NL P c cs' (NL_induction Hleaf Hnode c) (all cs')
            end) children)
  end.

(** The leftmost and the rightmost leaf of a tree, when the way down to
    them meets no node without children. *)
Fixpoint first_leaf (node : NL) : option Leaf :=
  match node with
  | NLeaf leaf => Some leaf
  | Node _ [] => None
  | Node _ (first :: _) => first_leaf first
  end.

Definition leaf_of_last (leaf_of : NL -> option Leaf)
  : list NL -> option Leaf -> option Leaf :=
  fix of_last (cs : list NL) (sofar : option Leaf) {struct cs} :=
    match cs with
    | [] => sofar
    | c :: cs' => of_last cs' (leaf_of c)
    end.

Fixpoint last_leaf (node : NL) : option Leaf :=
  match node with
  | NLeaf leaf => Some leaf
  | Node _ children => leaf_of_last last_leaf children None
  end.

(** No node of the tree is without children. *)
Fixpoint no_empty_node (node : NL) : bool :=
  match node with
  | NLeaf _ => true
  | Node _ children =>
      match children with
      | [] => false
      | _ :: _ => forallb no_empty_node children
      end
  end.

Lemma leaf_of_last_getitem (first : NL) (rest : list NL) (sofar : option Leaf) :
  exists last,
    getitem (first :: rest) (-1) = ok last
    /\ leaf_of_last last_leaf (first :: rest) sofar = last_leaf last.
Proof.
  revert first sofar. induction rest as [| c rest IH]; intros first sofar.
  - exists first. split; reflexivity.
  - destruct (IH c (last_leaf first)) as (last & Hlast & Hleaf).
    exists last. split.
    + rewrite getitem_last_cons. exact Hlast.
    + exact Hleaf.
Qed.

Lemma get_line_range_spans (node : NL) :
  (forall r,
      get_line_range node = ok r ->
      exists a b,
        first_leaf node = Some a
        /\ last_leaf node = Some b
        /\ r = unify_line_ranges (get_line_range_for_leaf a)
                                 (get_line_range_for_leaf b))
  /\ (forall e, get_line_range node = throw e -> e = IndexError).
Proof.
  induction node as [leaf | t children IH] using NL_induction.
  - split.
    + intros r H. injection H as <-. exists leaf, leaf. repeat split.
    + intros e H. discriminate.
  - rewrite get_line_range_Node.
    destruct children as [| first rest].
    { split; [discriminate |]. intros e H. injection H as <-. reflexivity. }
    rewrite getitem_cons_0. cbn [rbind ok].
    destruct (leaf_of_last_getitem first rest None) as (last & Hlast & Hleaf).
    assert (Hfirst_in : List.In first (first :: rest)) by (left; reflexivity).
    assert (Hlast_in : List.In last (first :: rest))
      by (eapply getitem_ok_In; exact Hlast).
    rewrite Forall_forall in IH.
    destruct (IH _ Hfirst_in) as [IHf_ok IHf_err].
    destruct (IH _ Hlast_in) as [IHl_ok IHl_err].
    destruct (get_line_range first) as [e1 | rb].
    { split; [discriminate |]. intros e H. injection H as <-.
      apply IHf_err. reflexivity. }
    cbn [rbind]. rewrite Hlast. cbn [rbind ok].
    destruct (get_line_range last) as [e2 | re].
    { split; [discriminate |]. intros e H. injection H as <-.
      apply IHl_err. reflexivity. }
    cbn [rbind]. split; [| discriminate].
    intros r H. injection H as <-.
    destruct (IHf_ok rb eq_refl) as (a & a' & Ha & _ & Hrb).
    destruct (IHl_ok re eq_refl) as (b' & b & _ & Hb & Hre).
    exists a, b. split; [exact Ha | split].
    + cbn [last_leaf]. rewrite Hleaf. exact Hb.
    + rewrite Hrb, Hre. reflexivity.
Qed.

Lemma get_line_range_total (node : NL) :
  no_empty_node node = true -> exists r, get_line_range node = ok r.
Proof.
  induction node as [leaf | t children IH] using NL_induction; intro Hwf.
  - eexists. reflexivity.
  - rewrite get_line_range_Node.
    destruct children as [| first rest]; [discriminate |].
    cbn [no_empty_node] in Hwf. rewrite forallb_forall in Hwf.
    rewrite Forall_forall in IH.
    rewrite getitem_cons_0. cbn [rbind ok].
    destruct (leaf_of_last_getitem first rest None) as (last & Hlast & _).
    assert (Hfirst_in : List.In first (first :: rest)) by (left; reflexivity).
    assert (Hlast_in : List.In last (first :: rest))
      by (eapply getitem_ok_In; exact Hlast).
    destruct (IH _ Hfirst_in (Hwf _ Hfirst_in)) as [rb ->].
    cbn [rbind]. rewrite Hlast. cbn [rbind ok].
    destruct (IH _ Hlast_in (Hwf _ Hlast_in)) as [re ->].
    eexists. reflexivity.
Qed.

(** X3. The range of a tree, when [get_line_range] returns one, starts where
    the leftmost leaf of the tree starts and ends where its rightmost leaf
    ends: nothing in between matters. The only exception it raises is
    [IndexError], on a node without children; on a tree that has no such
    node it returns. *)
Theorem range_spans_first_to_last_leaf (node : NL) :
  (forall r,
      get_line_range node = ok r ->
      exists a b,
        first_leaf node = Some a
        /\ last_leaf node = Some b
        /\ r_lineno r = lineno a
        /\ r_col_offset r = column a
        /\ r_end_lineno r = r_end_lineno (get_line_range_for_leaf b)
        /\ r_end_col_offset r = r_end_col_offset (get_line_range_for_leaf b))
  /\ (forall e, get_line_range node = throw e -> e = IndexError)
  /\ (no_empty_node node = true -> exists r, get_line_range node = ok r).
Proof.
  destruct (get_line_range_spans node) as [Hok Herr].
  split; [| split; [exact Herr | apply get_line_range_total]].
  intros r Hr. destruct (Hok r Hr) as (a & b & Ha & Hb & ->).
  exists a, b. repeat split; assumption.
Qed.

(** ** More on the consumer *)

(** Consuming without a kind, up to [n] times, and collecting what comes. *)
Fixpoint drain (n : nat) (c : _Consumer) : list NL * _Consumer :=
  match n with
  | O => ([], c)
  | S n' =>
      match consume c None with
      | (Some node, c') =>
          let '(nodes, c'') := drain n' c' in (node :: nodes, c'')
      | (None, c') => ([], c')
      end
  end.

Lemma consume_end (children : list NL) (i : nat) (typ : option Z) :
  nth_error children i = None ->
  consume (mk_Consumer children i) typ = (None, mk_Consumer children i).
Proof.
  intro H. unfold consume. cbn [c_children index].
  apply nth_error_None in H.
  replace (i <? List.length children)%nat with false
    by (symmetry; apply Nat.ltb_ge; exact H).
  reflexivity.
Qed.

Lemma drain_from (children : list NL) (n i : nat) :
  (i + n = List.length children)%nat ->
  drain n (mk_Consumer children i)
  = (skipn i children, mk_Consumer children (List.length children)).
Proof.
  revert i. induction n as [| n IH]; intros i Hlen; cbn [drain].
  - replace i with (List.length children) by lia.
    rewrite skipn_all. reflexivity.
  - destruct (nth_error children i) as [node |] eqn:Hnth.
    2:{ apply nth_error_None in Hnth. lia. }
    rewrite (consume_hit _ _ None Hnth) by reflexivity.
    rewrite IH by lia. f_equal.
    clear - Hnth. revert i Hnth.
    induction children as [| c children IHc]; intros [| i] Hnth;
      cbn in *; try discriminate.
    + now injection Hnth as ->.
    + apply IHc. exact Hnth.
Qed.

(** X4. A consumer never moves past the end of its children; once it is
    done, [consume] returns [None] for every kind and stays where it is; and
    consuming without a kind as many times as there are children hands out
    the children in their order, each once, and leaves the consumer done. *)
Theorem consumer_walks_the_children (children : list NL) :
  (forall i typ,
      (i <= List.length children)%nat ->
      (index (snd (consume (mk_Consumer children i) typ))
       <= List.length children)%nat)
  /\ (forall c typ, done c = true -> consume c typ = (None, c))
  /\ drain (List.length children) (new_Consumer children)
     = (children, mk_Consumer children (List.length children))
  /\ done (mk_Consumer children (List.length children)) = true.
Proof.
  split; [| split; [| split]].
  - intros i typ Hi. unfold consume. cbn [c_children index].
    destruct (i <? List.length children)%nat eqn:Hlt.
    + apply Nat.ltb_lt in Hlt.
      destruct (match typ with None => true | Some _ => _ end);
        cbn [andb snd index]; lia.
    + cbn [andb snd index]. exact Hi.
  - intros [cs i] typ Hdone. apply consume_end. unfold done in Hdone.
    cbn [c_children index] in Hdone. apply Nat.leb_le in Hdone.
    now apply nth_error_None.
  - apply (drain_from children (List.length children) 0). reflexivity.
  - unfold done. cbn [c_children index]. apply Nat.leb_refl.
Qed.

(** ** Kinds without a method *)

Section Dispatch.
Variable literal : Type.
Variable env : Env literal.
Variable self : Self literal.

Lemma getattr_visit_default (name : string) (node : NL) :
  ~ List.In name
      [ "typevar"; "paramspec"; "typevartuple"; "typeparam"; "file_input";
        "simple_stmt"; "testlist_gexp"; "atom"; "expr"; "xor_expr";
        "and_expr"; "shift_expr"; "arith_expr"; "term"; "comparison";
        "star_expr"; "not_test"; "and_test"; "or_test"; "test"; "factor";
        "power"; "subscript"; "subscriptlist"; "NAME"; "NUMBER"; "STRING";
        "COLON" ] ->
  getattr_visit env self name node = generic_visit env node.
Proof.
  intro Hnot. unfold getattr_visit, visit_methods. cbn [find fst snd].
  repeat match goal with
         | |- context [String.eqb ?a name] =>
             destruct (String.eqb_spec a name) as [Heq | Hne];
             [ exfalso; apply Hnot; rewrite <- Heq;
               repeat first [ left; reflexivity | right ]
             | clear Hne ]
         end.
  reflexivity.
Qed.

(** X5. A node whose kind has no [visit_] method makes [visit] raise
    [NotImplementedError] with the name the method would have had, and a
    leaf whose token number is not in the table of token names makes it
    raise [KeyError]; neither changes the context, and nothing of the node
    is lowered. *)
Theorem visit_without_method (node : NL) (s : expr_context) :
  (forall name,
      get_node_name env node = ok name ->
      ~ List.In name
          [ "typevar"; "paramspec"; "typevartuple"; "typeparam"; "file_input";
            "simple_stmt"; "testlist_gexp"; "atom"; "expr"; "xor_expr";
            "and_expr"; "shift_expr"; "arith_expr"; "term"; "comparison";
            "star_expr"; "not_test"; "and_test"; "or_test"; "test"; "factor";
            "power"; "subscript"; "subscriptlist"; "NAME"; "NUMBER";
            "STRING"; "COLON" ] ->
      visit env self node s
      = (inl (NotImplementedError ("visit_" ++ name)%string), s))
  /\ (type_of node < 256 ->
      token_type_to_name env (type_of node) = None ->
      visit env self node s = (inl KeyError, s)).
Proof.
  split.
  - intros name Hname Hnot. unfold visit. rewrite Hname, run_bind_lift_ok.
    rewrite (getattr_visit_default _ Hnot). unfold generic_visit.
    rewrite Hname. reflexivity.
  - intros Htoken Hnone. unfold visit, get_node_name.
    replace (type_of node <? 256) with true
      by (symmetry; apply Z.ltb_lt; exact Htoken).
    rewrite Hnone. reflexivity.
Qed.

(** ** The version gate *)

Lemma version_ge_313_312 (v : Z * Z) :
  version_ge v (3, 12) = false -> version_ge v (3, 13) = false.
Proof.
  unfold version_ge. cbn [fst snd]. intro H.
  apply orb_false_iff in H. destruct H as [H1 H2].
  apply orb_false_iff. split; [exact H1 |].
  apply andb_false_iff in H2. apply andb_false_iff.
  destruct H2 as [H2 | H2]; [left; exact H2 | right].
  apply Z.leb_gt in H2. apply Z.leb_gt. lia.
Qed.

(** X6. Below 3.12 the three type-parameter methods raise
    [UnsupportedSyntaxError] naming the construct, for every node and
    without lowering any part of it; the context is unchanged. *)
Theorem type_parameters_gated (node : NL) (s : expr_context) :
  version_ge (version_info env) (3, 12) = false ->
  visit_typevar env self node s = (inl (UnsupportedSyntaxError "TypeVar"), s)
  /\ visit_paramspec env self node s
     = (inl (UnsupportedSyntaxError "ParamSpec"), s)
  /\ visit_typevartuple env self node s
     = (inl (UnsupportedSyntaxError "TypeVarTuple"), s).
Proof.
  intro Hold. pose proof (version_ge_313_312 _ Hold) as Hold'.
  unfold visit_typevar, visit_paramspec, visit_typevartuple.
  rewrite Hold, Hold'. repeat split.
Qed.

(** X7. From 3.13 on, a type variable [name : bound = default] lowers to a
    [TypeVar] with both parts, each lowered from the child after its
    punctuation, the bound first; under 3.12 the same tree without the
    default keeps its bound. *)
Theorem typevar_bound_and_default (node name colon b eq d : NL)
  (text : string) (bound default : AST literal) (r : LineRange) s s1 s2 :
  type_of colon = token.COLON ->
  type_of eq = token.EQUAL ->
  value_of name = ok text ->
  get_line_range node = ok r ->
  self_visit self b s = (inr bound, s1) ->
  (version_ge (version_info env) (3, 13) = true ->
   children_of node = [name; colon; b; eq; d] ->
   self_visit self d s1 = (inr default, s2) ->
   visit_typevar env self node s
   = (inr (TypeVar text (Some bound) (Some default) r), s2))
  /\ (version_info env = (3, 12) ->
      children_of node = [name; colon; b] ->
      visit_typevar env self node s
      = (inr (TypeVar text (Some bound) None r), s1)).
Proof.
  intros Hcolon Heq Htext Hr Hbound. split.
  - intros Hnew Hchildren Hdefault. unfold visit_typevar.
    assert (Hge : version_ge (version_info env) (3, 12) = true).
    { destruct (version_ge (version_info env) (3, 12)) eqn:H12;
        [reflexivity |].
      apply version_ge_313_312 in H12. congruence. }
    rewrite Hge, Hnew, Hchildren. cbn [for_each].
    change (1 <? len [name; colon; b; eq; d]) with true.
    change (3 <? len [name; colon; b; eq; d]) with true. cbv iota.
    change (getitem [name; colon; b; eq; d] 1) with (ok colon).
    change (getitem [name; colon; b; eq; d] (1 + 1)) with (ok b).
    change (getitem [name; colon; b; eq; d] 3) with (ok eq).
    change (getitem [name; colon; b; eq; d] (3 + 1)) with (ok d).
    rewrite getitem_cons_0.
    unfold bind, lift, ret. unfold ok at 1. rewrite Hcolon.
    change (token.COLON =? token.COLON) with true. cbv iota.
    unfold ok at 1. rewrite Hbound. unfold ok at 1. rewrite Heq.
    change (token.EQUAL =? token.COLON) with false.
    change (token.EQUAL =? token.EQUAL) with true. cbv iota.
    unfold ok at 1. rewrite Hdefault. unfold ok at 1.
    rewrite Htext, Hr. reflexivity.
  - intros Hversion Hchildren. unfold visit_typevar.
    rewrite Hversion, Hchildren.
    change (version_ge (3, 12) (3, 12)) with true.
    change (version_ge (3, 12) (3, 13)) with false. cbv iota.
    cbn [for_each].
    change (1 <? len [name; colon; b]) with true.
    change (3 <? len [name; colon; b]) with false. cbv iota.
    change (getitem [name; colon; b] 1) with (ok colon).
    change (getitem [name; colon; b] (1 + 1)) with (ok b).
    rewrite getitem_cons_0.
    unfold bind, lift, ret. unfold ok at 1. rewrite Hcolon.
    change (token.COLON =? token.COLON) with true. cbv iota.
    unfold ok at 1. rewrite Hbound. unfold ok at 1.
    rewrite Htext, Hr. reflexivity.
Qed.

(** ** The module node *)

(** X8. [visit_file_input] lowers every child but the last, in order, into
    the body of a [Module] with no type-ignore entries: the end marker is
    never lowered, whatever would come of it. A [file_input] without
    children raises [IndexError]. *)
Theorem file_input_skips_end_marker :
  (forall t stmts endmarker body r s s',
      map_M (self_visit self) stmts s = (inr body, s') ->
      get_line_range (Node t (stmts ++ [endmarker])) = ok r ->
      visit_file_input self (Node t (stmts ++ [endmarker])) s
      = (inr (Module body [] r), s'))
  /\ (forall t s, visit_file_input self (Node t []) s = (inl IndexError, s)).
Proof.
  split.
  - intros t stmts endmarker body r s s' Hbody Hr.
    unfold visit_file_input, drop_last. cbn [children_of].
    rewrite removelast_last. unfold bind at 1. rewrite Hbody.
    rewrite Hr. reflexivity.
  - intros t s. reflexivity.
Qed.

End Dispatch.

(** ** Postfix chains *)

Section Postfix.
Variable literal : Type.
Variable env : Env literal.
Variable self : Self literal.

Local Notation AST := (AST literal).

(** The body of the loop of [_visit_power_without_await]. *)
Definition apply_trailer (begin_range : LineRange) (trailer : NL) (atom : AST)
  : M AST :=
  let tchildren := children_of trailer in
  t0 <- lift (getitem tchildren 0) ;;
  if type_of t0 =? token.LPAR then
    ' (args, keywords) <-
      (if len tchildren =? 2 then ret ([], [])
       else
         t1 <- lift (getitem tchildren 1) ;;
         _compile_arglist env self t1 trailer) ;;
    last <- lift (getitem tchildren (-1)) ;;
    r <- lift (get_line_range last) ;;
    ret (Call atom args keywords (unify_line_ranges begin_range r))
  else if type_of t0 =? token.LSQB then
    t1 <- lift (getitem tchildren 1) ;;
    subscript <- self_visit self t1 ;;
    ctx <- get_expr_context ;;
    last <- lift (getitem tchildren (-1)) ;;
    r <- lift (get_line_range last) ;;
    ret (Subscript atom subscript ctx (unify_line_ranges begin_range r))
  else if type_of t0 =? token.DOT then
    t1 <- lift (getitem tchildren 1) ;;
    attr <- lift (value_of t1) ;;
    ctx <- get_expr_context ;;
    r <- lift (get_line_range t1) ;;
    ret (Attribute atom attr ctx (unify_line_ranges begin_range r))
  else raise (NotImplementedError (repr env trailer)).

Lemma power_without_await_loop (children : list NL) :
  _visit_power_without_await env self children
  = (c0 <- lift (getitem children 0) ;;
     atom <- self_visit self c0 ;;
     begin_range <- lift (get_line_range c0) ;;
     for_each (drop_first children) (apply_trailer begin_range) atom).
Proof. reflexivity. Qed.

(** The chain with one more trailer: what was lowered so far, then the body
    of the loop on the new trailer. *)
Lemma power_without_await_snoc (children : list NL) (c0 trailer : NL)
  (atom : AST) (rb : LineRange) s s1 :
  getitem children 0 = ok c0 ->
  get_line_range c0 = ok rb ->
  _visit_power_without_await env self children s = (inr atom, s1) ->
  _visit_power_without_await env self (children ++ [trailer]) s
  = apply_trailer rb trailer atom s1.
Proof.
  intros Hc0 Hrb Hchain.
  assert (Hlen : 1 <= len children).
  { unfold len. destruct children; [discriminate |]. cbn [List.length]. lia. }
  rewrite power_without_await_loop in *.
  rewrite getitem_app_l by lia. rewrite Hc0 in *.
  rewrite run_bind_lift_ok in *.
  unfold bind at 1. unfold bind at 1 in Hchain.
  destruct (self_visit self c0 s) as [[e | atom0] s0]; [discriminate |].
  rewrite Hrb in *. rewrite run_bind_lift_ok in *.
  assert (Hdrop : drop_first (children ++ [trailer])
                  = drop_first children ++ [trailer]).
  { destruct children; [discriminate | reflexivity]. }
  rewrite Hdrop, for_each_app. unfold bind at 1. rewrite Hchain.
  cbn [for_each]. unfold bind, ret.
  destruct (apply_trailer rb trailer atom s1) as [[e | a] s2]; reflexivity.
Qed.

(** X9. A postfix chain nests to the left: the chain with one more trailer
    lowers to that trailer applied to the lowering of the chain before it,
    and its range runs from the start of the first child of the chain to the
    end of the trailer. So [.name] gives an [Attribute], [()] a [Call]
    without arguments, and [[index]] a [Subscript]; attribute and subscript
    carry the ambient context. *)
Theorem postfix_chain_left_nested (children : list NL) (c0 : NL) (atom : AST)
  (rb : LineRange) (s s1 : expr_context) :
  getitem children 0 = ok c0 ->
  get_line_range c0 = ok rb ->
  _visit_power_without_await env self children s = (inr atom, s1) ->
  (forall t dot name attr rn,
      type_of dot = token.DOT ->
      value_of name = ok attr ->
      get_line_range name = ok rn ->
      _visit_power_without_await env self
        (children ++ [Node t [dot; name]]) s
      = (inr (Attribute atom attr s1 (unify_line_ranges rb rn)), s1))
  /\ (forall t lpar rpar rr,
         type_of lpar = token.LPAR ->
         get_line_range rpar = ok rr ->
         _visit_power_without_await env self
           (children ++ [Node t [lpar; rpar]]) s
         = (inr (Call atom [] [] (unify_line_ranges rb rr)), s1))
  /\ (forall t lsqb index rsqb slice rr s2,
         type_of lsqb = token.LSQB ->
         self_visit self index s1 = (inr slice, s2) ->
         get_line_range rsqb = ok rr ->
         _visit_power_without_await env self
           (children ++ [Node t [lsqb; index; rsqb]]) s
         = (inr (Subscript atom slice s2 (unify_line_ranges rb rr)), s2))
  /\ (forall t lpar arguments rpar args keywords rr s2,
         type_of lpar = token.LPAR ->
         _compile_arglist env self arguments (Node t [lpar; arguments; rpar])
                          s1
         = (inr (args, keywords), s2) ->
         get_line_range rpar = ok rr ->
         _visit_power_without_await env self
           (children ++ [Node t [lpar; arguments; rpar]]) s
         = (inr (Call atom args keywords (unify_line_ranges rb rr)), s2)).
Proof.
  intros Hc0 Hrb Hchain. split; [| split; [| split]].
  - intros t dot name attr rn Hdot Hattr Hrn.
    erewrite power_without_await_snoc;
      [| exact Hc0 | exact Hrb | exact Hchain].
    unfold apply_trailer. cbn [children_of].
    rewrite getitem_cons_0. unfold bind, lift, ret, get_expr_context.
    unfold ok at 1. rewrite Hdot.
    change (token.DOT =? token.LPAR) with false.
    change (token.DOT =? token.LSQB) with false.
    change (token.DOT =? token.DOT) with true. cbv iota.
    change (getitem [dot; name] 1) with (ok name). unfold ok at 1.
    rewrite Hattr. unfold ok at 1. rewrite Hrn. reflexivity.
  - intros t lpar rpar rr Hlpar Hrr.
    erewrite power_without_await_snoc;
      [| exact Hc0 | exact Hrb | exact Hchain].
    unfold apply_trailer. cbn [children_of].
    rewrite getitem_cons_0. unfold bind, lift, ret.
    unfold ok at 1. rewrite Hlpar.
    change (token.LPAR =? token.LPAR) with true. cbv iota.
    change (len [lpar; rpar] =? 2) with true. cbv iota.
    change (getitem [lpar; rpar] (-1)) with (ok rpar). unfold ok at 1.
    rewrite Hrr. reflexivity.
  - intros t lsqb index rsqb slice rr s2 Hlsqb Hslice Hrr.
    erewrite power_without_await_snoc;
      [| exact Hc0 | exact Hrb | exact Hchain].
    unfold apply_trailer. cbn [children_of].
    rewrite getitem_cons_0. unfold bind, lift, ret, get_expr_context.
    unfold ok at 1. rewrite Hlsqb.
    change (token.LSQB =? token.LPAR) with false.
    change (token.LSQB =? token.LSQB) with true. cbv iota.
    change (getitem [lsqb; index; rsqb] 1) with (ok index). unfold ok at 1.
    rewrite Hslice.
    change (getitem [lsqb; index; rsqb] (-1)) with (ok rsqb). unfold ok at 1.
    rewrite Hrr. reflexivity.
  - intros t lpar arguments rpar args keywords rr s2 Hlpar Hargs Hrr.
    erewrite power_without_await_snoc;
      [| exact Hc0 | exact Hrb | exact Hchain].
    unfold apply_trailer. cbn [children_of].
    rewrite getitem_cons_0, run_bind_lift_ok. rewrite Hlpar.
    change (token.LPAR =? token.LPAR) with true. cbv iota.
    change (len [lpar; arguments; rpar] =? 2) with false. cbv iota.
    change (getitem [lpar; arguments; rpar] 1) with (ok arguments).
    change (getitem [lpar; arguments; rpar] (-1)) with (ok rpar).
    unfold bind at 1. rewrite run_bind_lift_ok, Hargs.
    rewrite run_bind_lift_ok, Hrr. reflexivity.
Qed.

End Postfix.

(** ** Powers and slices *)

Lemma getitem_app_last2 (A : Type) (l : list A) (a b : A) :
  getitem (l ++ [a; b]) (-2) = ok a /\ getitem (l ++ [a; b]) (-1) = ok b.
Proof.
  unfold getitem. rewrite len_app. pose proof (len_nonneg l) as Hl.
  change (len [a; b]) with 2.
  change (-2 <? 0) with true. change (-1 <? 0) with true. cbv iota.
  replace (-2 + (len l + 2) <? 0) with false
    by (symmetry; apply Z.ltb_ge; lia).
  replace (-1 + (len l + 2) <? 0) with false
    by (symmetry; apply Z.ltb_ge; lia).
  rewrite !nth_error_app2 by (unfold len; lia).
  replace (Z.to_nat (-2 + (len l + 2)) - List.length l)%nat with 0%nat
    by (unfold len; lia).
  replace (Z.to_nat (-1 + (len l + 2)) - List.length l)%nat with 1%nat
    by (unfold len; lia).
  split; reflexivity.
Qed.

Lemma drop_last2_app (A : Type) (l : list A) (a b : A) :
  drop_last2 (l ++ [a; b]) = l.
Proof.
  unfold drop_last2.
  change (l ++ [a; b]) with (l ++ [a] ++ [b]).
  rewrite app_assoc, !removelast_last. reflexivity.
Qed.

Ltac kind_true :=
  first [ reflexivity
        | apply Z.eqb_eq;
          solve [ reflexivity | assumption | congruence
                | symmetry; assumption ] ].

Ltac kind_differs :=
  first [ assumption
        | congruence
        | intro;
          unfold token.COLON, token.COMMA, token.COLONEQUAL, token.DOUBLESTAR
            in *;
          lia ].

(** Unfold the monad, and use an equation about a sub-computation. *)
Ltac simp_run :=
  unfold assert, bind, lift, ret, raise, get_expr_context, ok, throw;
  cbv beta iota.

(** Decide the comparisons of the goal that are between two numbers. *)
Ltac eval_kinds :=
  repeat match goal with
         | |- context [Z.eqb ?a ?b] =>
             let v := eval cbv in (Z.eqb a b) in
             lazymatch v with
             | true => change (Z.eqb a b) with true
             | false => change (Z.eqb a b) with false
             end
         end;
  cbv beta iota.

Ltac rw H := rewrite H; unfold ok, throw; cbv beta iota; eval_kinds.

(** Settle the next [consume] of the goal from what is known of the kinds. *)
Ltac consume_now :=
  match goal with
  | |- context [consume (mk_Consumer ?cs ?i) ?typ] =>
      first
        [ rewrite (@consume_end cs i typ) by reflexivity
        | erewrite (@consume_hit cs i _ typ);
          [| reflexivity | solve [kind_true]]
        | match typ with
          | Some ?t =>
              erewrite (@consume_miss cs i _ t);
              [| reflexivity | solve [kind_differs]]
          end ];
      cbv beta iota
  end.

Section Slices.
Variable literal : Type.
Variable env : Env literal.
Variable self : Self literal.

Local Notation AST := (AST literal).

(** X10. In [base ** exponent] the exponent is lowered first and the base,
    a postfix chain, second; the [BinOp] takes the range of the whole node.
    If lowering the exponent raises, that is the outcome and the base is not
    looked at. *)
Theorem power_lowers_exponent_first (t : Z) (base : list NL)
  (dstar exponent : NL) (s : expr_context) :
  base <> [] ->
  type_of dstar = token.DOUBLESTAR ->
  (forall operand left r s1 s2,
      self_visit self exponent s = (inr operand, s1) ->
      _visit_power_without_power env self base s1 = (inr left, s2) ->
      get_line_range (Node t (base ++ [dstar; exponent])) = ok r ->
      visit_power env self (Node t (base ++ [dstar; exponent])) s
      = (inr (BinOp left Pow operand r), s2))
  /\ (forall e s1,
         self_visit self exponent s = (inl e, s1) ->
         visit_power env self (Node t (base ++ [dstar; exponent])) s
         = (inl e, s1)).
Proof.
  intros Hbase Hdstar.
  destruct (getitem_app_last2 base dstar exponent) as [Hm2 Hm1].
  assert (Hlen : (2 <? len (base ++ [dstar; exponent])) = true).
  { apply Z.ltb_lt. rewrite len_app. change (len [dstar; exponent]) with 2.
    unfold len. destruct base; [contradiction |]. cbn [List.length]. lia. }
  split.
  - intros operand left r s1 s2 Hoperand Hleft Hr.
    unfold visit_power. cbn [children_of]. simp_run.
    rw Hlen. rw Hm2. rw Hdstar.
    change (token.DOUBLESTAR =? token.DOUBLESTAR) with true. cbv beta iota.
    rw Hm1. rw Hoperand. rewrite drop_last2_app. rw Hleft. rw Hr.
    reflexivity.
  - intros e s1 Hoperand.
    unfold visit_power. cbn [children_of]. simp_run.
    rw Hlen. rw Hm2. rw Hdstar.
    change (token.DOUBLESTAR =? token.DOUBLESTAR) with true. cbv beta iota.
    rw Hm1. rw Hoperand. reflexivity.
Qed.

(** X11. A postfix chain that starts with the [await] token lowers to an
    [Await] around the chain after the token; its range runs from the token
    to the end of the last child. *)
Theorem await_wraps_the_chain (await : NL) (rest : list NL) (last : NL)
  (value : AST) (r0 r1 : LineRange) (s s' : expr_context) :
  type_of await = token.AWAIT ->
  get_line_range await = ok r0 ->
  getitem (await :: rest) (-1) = ok last ->
  get_line_range last = ok r1 ->
  _visit_power_without_await env self rest s = (inr value, s') ->
  _visit_power_without_power env self (await :: rest) s
  = (inr (Await value (unify_line_ranges r0 r1)), s').
Proof.
  intros Hawait Hr0 Hlast Hr1 Hvalue. unfold _visit_power_without_power.
  simp_run. rewrite getitem_cons_0. unfold ok. cbv beta iota. rw Hawait.
  change (token.AWAIT =? token.AWAIT) with true. cbv beta iota.
  rw Hr0. rw Hlast. rw Hr1. cbn [drop_first tl]. rw Hvalue. reflexivity.
Qed.

(** X12. The shapes of a slice. With [l], [u] and [st] the lowerings of the
    lower bound, the upper bound and the step: [lower :] gives
    [Slice(l, None, None)], [: upper] gives [Slice(None, u, None)],
    [lower : upper] gives [Slice(l, u, None)], [lower : upper : step] gives
    [Slice(l, u, st)] and [: : step] gives [Slice(None, None, st)]. A lower
    bound that is not followed by a colon fails an assertion, and a step
    clause that is only a colon raises [IndexError]. *)
Theorem slice_shapes (t : Z) (colon lower upper : NL) (l u : AST)
  (s s1 s2 : expr_context) :
  type_of colon = token.COLON ->
  type_of lower <> token.COLON ->
  type_of upper <> token.COLON ->
  type_of upper <> sliceop (syms env) ->
  256 <= sliceop (syms env) ->
  self_visit self lower s = (inr l, s1) ->
  (forall r,
      get_line_range (Node t [lower; colon]) = ok r ->
      visit_subscript env self (Node t [lower; colon]) s
      = (inr (Slice (Some l) None None r), s1))
  /\ (forall r s',
         self_visit self upper s = (inr u, s') ->
         get_line_range (Node t [colon; upper]) = ok r ->
         visit_subscript env self (Node t [colon; upper]) s
         = (inr (Slice None (Some u) None r), s'))
  /\ (forall r,
         self_visit self upper s1 = (inr u, s2) ->
         get_line_range (Node t [lower; colon; upper]) = ok r ->
         visit_subscript env self (Node t [lower; colon; upper]) s
         = (inr (Slice (Some l) (Some u) None r), s2))
  /\ (forall r ts colon2 step st s3,
         self_visit self upper s1 = (inr u, s2) ->
         ts = sliceop (syms env) ->
         self_visit self step s2 = (inr st, s3) ->
         get_line_range
           (Node t [lower; colon; upper; Node ts [colon2; step]]) = ok r ->
         visit_subscript env self
           (Node t [lower; colon; upper; Node ts [colon2; step]]) s
         = (inr (Slice (Some l) (Some u) (Some st) r), s3))
  /\ (forall r ts colon2 step st s',
         ts = sliceop (syms env) ->
         self_visit self step s = (inr st, s') ->
         get_line_range (Node t [colon; Node ts [colon2; step]]) = ok r ->
         visit_subscript env self (Node t [colon; Node ts [colon2; step]]) s
         = (inr (Slice None None (Some st) r), s'))
  /\ visit_subscript env self (Node t [lower; upper]) s
     = (inl AssertionError, s1)
  /\ (forall ts colon2,
         ts = sliceop (syms env) ->
         visit_subscript env self (Node t [colon; Node ts [colon2]]) s
         = (inl IndexError, s)).
Proof.
  intros Hcolon Hlower Hupper Hupper' Hsym Hl.
  assert (Hcs : type_of colon <> sliceop (syms env))
    by (rewrite Hcolon; unfold token.COLON; lia).
  assert (Hwalrus :
            forall c0 c2 s0,
              (c1 <- lift (getitem [c0; colon; c2] 1) ;;
               if is_Leaf c1
               then v <- lift (value_of c1) ;;
                    ret (str_eq_int v token.COLONEQUAL)
               else ret false) s0
              = (inr false, s0)).
  { intros c0 c2 s0. change (getitem [c0; colon; c2] 1) with (ok colon).
    destruct colon; reflexivity. }
  split; [| split; [| split; [| split; [| split; [| split]]]]].
  - intros r Hr. unfold visit_subscript, new_Consumer. cbn [children_of].
    change (len [lower; colon] =? 3) with false. simp_run.
    repeat consume_now. cbn [visit_opt]. rw Hl.
    repeat consume_now. rw Hr. reflexivity.
  - intros r s' Hu Hr. unfold visit_subscript, new_Consumer.
    cbn [children_of].
    change (len [colon; upper] =? 3) with false. simp_run.
    repeat consume_now. rw Hu. repeat consume_now. rw Hr. reflexivity.
  - intros r Hu Hr. unfold visit_subscript, new_Consumer.
    cbn [children_of].
    change (len [lower; colon; upper] =? 3) with true. cbv beta iota.
    unfold bind at 1. rewrite Hwalrus. simp_run.
    repeat consume_now. cbn [visit_opt]. rw Hl.
    repeat consume_now. rw Hu. repeat consume_now. rw Hr. reflexivity.
  - intros r ts colon2 step st s3 Hu -> Hst Hr.
    unfold visit_subscript, new_Consumer. cbn [children_of].
    match goal with
    | |- context [len ?cs =? 3] => change (len cs =? 3) with false
    end.
    simp_run. repeat consume_now. cbn [visit_opt]. rw Hl.
    repeat consume_now. rw Hu. repeat consume_now.
    unfold visit_sliceop. cbn [children_of].
    change (getitem [colon2; step] 1) with (@inr exn NL step).
    simp_run. rw Hst. rw Hr. reflexivity.
  - intros r ts colon2 step st s' -> Hst Hr.
    unfold visit_subscript, new_Consumer. cbn [children_of].
    match goal with
    | |- context [len ?cs =? 3] => change (len cs =? 3) with false
    end.
    simp_run. repeat consume_now.
    unfold visit_sliceop. cbn [children_of].
    change (getitem [colon2; step] 1) with (@inr exn NL step).
    simp_run. rw Hst. rw Hr. reflexivity.
  - unfold visit_subscript, new_Consumer. cbn [children_of].
    change (len [lower; upper] =? 3) with false. simp_run.
    repeat consume_now. cbn [visit_opt]. rw Hl.
    repeat consume_now. reflexivity.
  - intros ts colon2 ->.
    unfold visit_subscript, new_Consumer. cbn [children_of].
    match goal with
    | |- context [len ?cs =? 3] => change (len cs =? 3) with false
    end.
    simp_run. repeat consume_now. reflexivity.
Qed.

End Slices.

(** ** Comprehension clauses *)

Section Clauses.
Variable literal : Type.
Variable env : Env literal.
Variable self : Self literal.

Local Notation AST := (AST literal).

(** X13. A comprehension clause [for target in iter]: the target is lowered
    under [Store] and the iterable under the ambient context, in which the
    clause also ends; a leading [async] token sets the flag to 1; the
    filters and further clauses that follow come from the fifth child and
    are lowered before the target, and the target before the iterable: if
    lowering what follows raises, that is the outcome whatever the target
    and the iterable would do; if the target raises, that is the outcome
    whatever the iterable would do. A node of another kind fails the
    assertion of the method before anything is lowered. *)
Theorem comprehension_clause (node : NL) (s : expr_context) :
  (type_of node <> old_comp_for (syms env) ->
   type_of node <> comp_for (syms env) ->
   _compile_comprehension env self node s = (inl AssertionError, s))
  /\ (forall kw_for target kw_in iter tg it s0 s',
         type_of node = old_comp_for (syms env)
         \/ type_of node = comp_for (syms env) ->
         children_of node = [kw_for; target; kw_in; iter] ->
         type_of kw_for <> token.ASYNC ->
         self_visit self target Store = (inr tg, s0) ->
         self_visit self iter s = (inr it, s') ->
         _compile_comprehension env self node s
         = (inr [comprehension tg it [] 0], s'))
  /\ (forall async kw_for target kw_in iter tg it s0 s',
         type_of node = old_comp_for (syms env)
         \/ type_of node = comp_for (syms env) ->
         children_of node = [async; kw_for; target; kw_in; iter] ->
         type_of async = token.ASYNC ->
         self_visit self target Store = (inr tg, s0) ->
         self_visit self iter s = (inr it, s') ->
         _compile_comprehension env self node s
         = (inr [comprehension tg it [] 1], s'))
  /\ (forall kw_for target kw_in iter more ifs comps tg it s0 s1 s2,
         type_of node = old_comp_for (syms env)
         \/ type_of node = comp_for (syms env) ->
         children_of node = [kw_for; target; kw_in; iter; more] ->
         type_of kw_for <> token.ASYNC ->
         self_compile_comp_iter self more s = (inr (ifs, comps), s1) ->
         self_visit self target Store = (inr tg, s0) ->
         self_visit self iter s1 = (inr it, s2) ->
         _compile_comprehension env self node s
         = (inr (comprehension tg it ifs 0 :: comps), s2))
  /\ (forall kw_for target kw_in iter more e s1,
         type_of node = old_comp_for (syms env)
         \/ type_of node = comp_for (syms env) ->
         children_of node = [kw_for; target; kw_in; iter; more] ->
         type_of kw_for <> token.ASYNC ->
         self_compile_comp_iter self more s = (inl e, s1) ->
         _compile_comprehension env self node s = (inl e, s1))
  /\ (forall kw_for target kw_in iter more ifs comps e s0 s1,
         type_of node = old_comp_for (syms env)
         \/ type_of node = comp_for (syms env) ->
         children_of node = [kw_for; target; kw_in; iter; more] ->
         type_of kw_for <> token.ASYNC ->
         self_compile_comp_iter self more s = (inr (ifs, comps), s1) ->
         self_visit self target Store = (inl e, s0) ->
         _compile_comprehension env self node s = (inl e, s1))
  /\ (forall kw_for target kw_in iter more ifs comps tg e s0 s1 s2,
         type_of node = old_comp_for (syms env)
         \/ type_of node = comp_for (syms env) ->
         children_of node = [kw_for; target; kw_in; iter; more] ->
         type_of kw_for <> token.ASYNC ->
         self_compile_comp_iter self more s = (inr (ifs, comps), s1) ->
         self_visit self target Store = (inr tg, s0) ->
         self_visit self iter s1 = (inl e, s2) ->
         _compile_comprehension env self node s = (inl e, s2))
  /\ (forall kw_for target kw_in iter e s0,
         type_of node = old_comp_for (syms env)
         \/ type_of node = comp_for (syms env) ->
         children_of node = [kw_for; target; kw_in; iter] ->
         type_of kw_for <> token.ASYNC ->
         self_visit self target Store = (inl e, s0) ->
         _compile_comprehension env self node s = (inl e, s)).
Proof.
  assert (Hkind :
            type_of node = old_comp_for (syms env)
            \/ type_of node = comp_for (syms env) ->
            (type_of node =? old_comp_for (syms env))
            || (type_of node =? comp_for (syms env)) = true).
  { intros [-> | ->]; rewrite Z.eqb_refl; [reflexivity | apply orb_true_r]. }
  split; [| split; [| split; [| split; [| split; [| split; [| split]]]]]].
  - intros Hold Hnew. unfold _compile_comprehension.
    apply Z.eqb_neq in Hold, Hnew. rewrite Hold, Hnew. reflexivity.
  - intros kw_for target kw_in iter tg it s0 s' Htype Hchildren Hsync
      Htarget Hiter.
    unfold _compile_comprehension. rewrite (Hkind Htype), Hchildren.
    simp_run. rewrite getitem_cons_0. unfold ok. cbv beta iota.
    apply Z.eqb_neq in Hsync. rw Hsync.
    change (4 <? len [kw_for; target; kw_in; iter]) with false.
    cbv beta iota. rewrite set_expr_context_run.
    change (getitem [kw_for; target; kw_in; iter] 1) with (@inr exn NL target).
    change (getitem [kw_for; target; kw_in; iter] 3) with (@inr exn NL iter).
    cbv beta iota. rw Htarget. cbn [fst]. rw Hiter. reflexivity.
  - intros async kw_for target kw_in iter tg it s0 s' Htype Hchildren Hasync
      Htarget Hiter.
    unfold _compile_comprehension. rewrite (Hkind Htype), Hchildren.
    simp_run. rewrite getitem_cons_0. unfold ok. cbv beta iota.
    rw Hasync. change (token.ASYNC =? token.ASYNC) with true.
    cbv beta iota. cbn [drop_first tl].
    change (4 <? len [kw_for; target; kw_in; iter]) with false.
    cbv beta iota. rewrite set_expr_context_run.
    change (getitem [kw_for; target; kw_in; iter] 1) with (@inr exn NL target).
    change (getitem [kw_for; target; kw_in; iter] 3) with (@inr exn NL iter).
    cbv beta iota. rw Htarget. cbn [fst]. rw Hiter. reflexivity.
  - intros kw_for target kw_in iter more ifs comps tg it s0 s1 s2 Htype
      Hchildren Hsync Hmore Htarget Hiter.
    unfold _compile_comprehension. rewrite (Hkind Htype), Hchildren.
    simp_run. rewrite getitem_cons_0. unfold ok. cbv beta iota.
    apply Z.eqb_neq in Hsync. rw Hsync.
    change (4 <? len [kw_for; target; kw_in; iter; more]) with true.
    cbv beta iota.
    change (getitem [kw_for; target; kw_in; iter; more] 4)
      with (@inr exn NL more).
    cbv beta iota. rw Hmore. rewrite set_expr_context_run.
    change (getitem [kw_for; target; kw_in; iter; more] 1)
      with (@inr exn NL target).
    change (getitem [kw_for; target; kw_in; iter; more] 3)
      with (@inr exn NL iter).
    cbv beta iota. rw Htarget. cbn [fst]. rw Hiter. reflexivity.
  - intros kw_for target kw_in iter more e s1 Htype Hchildren Hsync Hmore.
    unfold _compile_comprehension. rewrite (Hkind Htype), Hchildren.
    simp_run. rewrite getitem_cons_0. unfold ok. cbv beta iota.
    apply Z.eqb_neq in Hsync. rw Hsync.
    change (4 <? len [kw_for; target; kw_in; iter; more]) with true.
    cbv beta iota.
    change (getitem [kw_for; target; kw_in; iter; more] 4)
      with (@inr exn NL more).
    cbv beta iota. rw Hmore. reflexivity.
  - intros kw_for target kw_in iter more ifs comps e s0 s1 Htype Hchildren
      Hsync Hmore Htarget.
    unfold _compile_comprehension. rewrite (Hkind Htype), Hchildren.
    simp_run. rewrite getitem_cons_0. unfold ok. cbv beta iota.
    apply Z.eqb_neq in Hsync. rw Hsync.
    change (4 <? len [kw_for; target; kw_in; iter; more]) with true.
    cbv beta iota.
    change (getitem [kw_for; target; kw_in; iter; more] 4)
      with (@inr exn NL more).
    cbv beta iota. rw Hmore. rewrite set_expr_context_run.
    change (getitem [kw_for; target; kw_in; iter; more] 1)
      with (@inr exn NL target).
    cbv beta iota. rw Htarget. reflexivity.
  - intros kw_for target kw_in iter more ifs comps tg e s0 s1 s2 Htype
      Hchildren Hsync Hmore Htarget Hiter.
    unfold _compile_comprehension. rewrite (Hkind Htype), Hchildren.
    simp_run. rewrite getitem_cons_0. unfold ok. cbv beta iota.
    apply Z.eqb_neq in Hsync. rw Hsync.
    change (4 <? len [kw_for; target; kw_in; iter; more]) with true.
    cbv beta iota.
    change (getitem [kw_for; target; kw_in; iter; more] 4)
      with (@inr exn NL more).
    cbv beta iota. rw Hmore. rewrite set_expr_context_run.
    change (getitem [kw_for; target; kw_in; iter; more] 1)
      with (@inr exn NL target).
    change (getitem [kw_for; target; kw_in; iter; more] 3)
      with (@inr exn NL iter).
    cbv beta iota. rw Htarget. cbn [fst]. rw Hiter. reflexivity.
  - intros kw_for target kw_in iter e s0 Htype Hchildren Hsync Htarget.
    unfold _compile_comprehension. rewrite (Hkind Htype), Hchildren.
    simp_run. rewrite getitem_cons_0. unfold ok. cbv beta iota.
    apply Z.eqb_neq in Hsync. rw Hsync.
    change (4 <? len [kw_for; target; kw_in; iter]) with false.
    cbv beta iota. rewrite set_expr_context_run.
    change (getitem [kw_for; target; kw_in; iter] 1) with (@inr exn NL target).
    cbv beta iota. rw Htarget. reflexivity.
Qed.

(** X14. What follows a clause: [if test] adds the lowered test in front of
    the filters that follow it, which so keep the order of the source; a
    test that does not lower to an expression fails an assertion; and a
    node that does not start with [if] is a further clause, lowered as
    one. *)
Theorem comprehension_filters (node : NL) (s : expr_context) :
  (forall kw_if test c s1,
      children_of node = [kw_if; test] ->
      value_of kw_if = ok "if" ->
      self_visit self test s = (inr c, s1) ->
      (is_expr c = true ->
       _compile_comp_iter self node s = (inr ([c], []), s1))
      /\ (is_expr c = false ->
          _compile_comp_iter self node s = (inl AssertionError, s1)))
  /\ (forall kw_if test more c ifs comps s1 s2,
         children_of node = [kw_if; test; more] ->
         value_of kw_if = ok "if" ->
         self_visit self test s = (inr c, s1) ->
         is_expr c = true ->
         self_compile_comp_iter self more s1 = (inr (ifs, comps), s2) ->
         _compile_comp_iter self node s = (inr (c :: ifs, comps), s2))
  /\ (forall first text comps s',
         getitem (children_of node) 0 = ok first ->
         value_of first = ok text ->
         text <> "if" ->
         self_compile_comprehension self node s = (inr comps, s') ->
         _compile_comp_iter self node s = (inr ([], comps), s')).
Proof.
  split; [| split].
  - intros kw_if test c s1 Hchildren Hif Htest.
    split; intro Hexpr; unfold _compile_comp_iter; rewrite Hchildren;
      simp_run; rewrite getitem_cons_0; unfold ok; cbv beta iota;
      rw Hif; change (String.eqb "if" "if") with true; cbv beta iota;
      change (getitem [kw_if; test] 1) with (@inr exn NL test);
      cbv beta iota; rw Htest; rw Hexpr; reflexivity.
  - intros kw_if test more c ifs comps s1 s2 Hchildren Hif Htest Hexpr Hmore.
    unfold _compile_comp_iter. rewrite Hchildren.
    simp_run. rewrite getitem_cons_0. unfold ok. cbv beta iota.
    rw Hif. change (String.eqb "if" "if") with true. cbv beta iota.
    change (getitem [kw_if; test; more] 1) with (@inr exn NL test).
    cbv beta iota. rw Htest. rw Hexpr.
    change (2 <? len [kw_if; test; more]) with true. cbv beta iota.
    change (getitem [kw_if; test; more] 2) with (@inr exn NL more).
    cbv beta iota. rw Hmore. reflexivity.
  - intros first text comps s' Hfirst Htext Hnot Hcomps.
    unfold _compile_comp_iter. simp_run. rw Hfirst. rw Htext.
    apply String.eqb_neq in Hnot. rw Hnot. rw Hcomps. reflexivity.
Qed.

(** ** Boolean, conditional and unary expressions *)

Lemma collect_operands (xs : list NL) (acc vals : list AST) s s' :
  map_M (self_visit self) xs s = (inr vals, s') ->
  forallb (@is_expr literal) vals = true ->
  for_each xs
    (fun child operands =>
       operand <- self_visit self child ;;
       assert (is_expr operand) ;;
       ret (operands ++ [operand]))
    acc s
  = (inr (acc ++ vals), s').
Proof.
  revert acc vals s. induction xs as [| x xs IH]; intros acc vals s Hmap Hall.
  - injection Hmap as <- <-. rewrite app_nil_r. reflexivity.
  - cbn [map_M for_each] in *. unfold bind at 1 in Hmap. unfold bind at 1.
    unfold bind at 1.
    destruct (self_visit self x s) as [[e | v] s1]; [discriminate |].
    unfold bind at 1 in Hmap.
    destruct (map_M (self_visit self) xs s1) as [[e | vs] s2] eqn:Hrest;
      [discriminate |].
    injection Hmap as <- <-. cbn [forallb] in Hall.
    apply andb_prop in Hall. destruct Hall as [Hv Hvs].
    rewrite Hv. unfold bind at 1, assert at 1, ret at 1.
    unfold ret at 1.
    rewrite (IH (acc ++ [v]) vs s1 Hrest Hvs), <- app_assoc. reflexivity.
Qed.

(** X15. [visit_and_test] and [visit_or_test] lower the children at the even
    positions, in order, into the values of one [BoolOp]: a chain of any
    length is one flat node, and the tokens in between are not looked at.
    An operand that does not lower to an expression fails an assertion. *)
Theorem bool_op_is_flat (node : NL) (s : expr_context) :
  (forall vals r s',
      map_M (self_visit self) (every_other (children_of node)) s
      = (inr vals, s') ->
      forallb (@is_expr literal) vals = true ->
      get_line_range node = ok r ->
      visit_and_test self node s = (inr (BoolOp And vals r), s')
      /\ visit_or_test self node s = (inr (BoolOp Or vals r), s'))
  /\ (forall first rest v s1,
         children_of node = first :: rest ->
         self_visit self first s = (inr v, s1) ->
         is_expr v = false ->
         visit_and_test self node s = (inl AssertionError, s1)
         /\ visit_or_test self node s = (inl AssertionError, s1)).
Proof.
  split.
  - intros vals r s' Hmap Hall Hr.
    pose proof (@collect_operands (every_other (children_of node)) [] vals
                  s s' Hmap Hall) as Hloop.
    cbn [app] in Hloop.
    unfold visit_and_test, visit_or_test, bool_operands.
    split; unfold bind at 1; rewrite Hloop, Hr; reflexivity.
  - intros first rest v s1 Hchildren Hvisit Hexpr.
    unfold visit_and_test, visit_or_test, bool_operands.
    rewrite Hchildren. cbn [every_other for_each].
    simp_run. rw Hvisit. rw Hexpr. split; reflexivity.
Qed.

(** X16. A conditional expression [body if test else orelse] is lowered test
    first, then body, then orelse, into [IfExp(test, body, orelse)]. A node
    that does not have five children, or whose second child is not the
    word [if], fails an assertion before anything is lowered. *)
Theorem conditional_expression (node : NL) (s : expr_context) :
  (len (children_of node) <> 5 ->
   visit_test self node s = (inl AssertionError, s))
  /\ (forall body kw_if test kw_else orelse text,
         children_of node = [body; kw_if; test; kw_else; orelse] ->
         value_of kw_if = ok text ->
         text <> "if" ->
         visit_test self node s = (inl AssertionError, s))
  /\ (forall body kw_if test kw_else orelse t b o r s1 s2 s3,
         children_of node = [body; kw_if; test; kw_else; orelse] ->
         value_of kw_if = ok "if" ->
         value_of kw_else = ok "else" ->
         self_visit self test s = (inr t, s1) ->
         self_visit self body s1 = (inr b, s2) ->
         self_visit self orelse s2 = (inr o, s3) ->
         get_line_range node = ok r ->
         visit_test self node s = (inr (IfExp t b o r), s3)).
Proof.
  split; [| split].
  - intro Hlen. unfold visit_test. apply Z.eqb_neq in Hlen. rewrite Hlen.
    reflexivity.
  - intros body kw_if test kw_else orelse text Hchildren Hif Hnot.
    unfold visit_test, assert_value. rewrite Hchildren.
    change (len [body; kw_if; test; kw_else; orelse] =? 5) with true.
    change (getitem [body; kw_if; test; kw_else; orelse] 1)
      with (@inr exn NL kw_if).
    simp_run. rw Hif.
    replace (String.eqb text "if") with false
      by (symmetry; apply String.eqb_neq; exact Hnot).
    reflexivity.
  - intros body kw_if test kw_else orelse t b o r s1 s2 s3 Hchildren Hif
      Helse Htest Hbody Horelse Hr.
    unfold visit_test, assert_value. rewrite Hchildren.
    change (len [body; kw_if; test; kw_else; orelse] =? 5) with true.
    change (getitem [body; kw_if; test; kw_else; orelse] 1)
      with (@inr exn NL kw_if).
    change (getitem [body; kw_if; test; kw_else; orelse] 3)
      with (@inr exn NL kw_else).
    change (getitem [body; kw_if; test; kw_else; orelse] 2)
      with (@inr exn NL test).
    change (getitem [body; kw_if; test; kw_else; orelse] 4)
      with (@inr exn NL orelse).
    rewrite getitem_cons_0.
    simp_run. rw Hif. change (String.eqb "if" "if") with true.
    cbv beta iota. rw Helse. change (String.eqb "else" "else") with true.
    cbv beta iota. rw Htest. rw Hbody. rw Horelse. rw Hr. reflexivity.
Qed.

(** X17. A sign or [~] in front of an operand lowers to a [UnaryOp] whose
    operator is read off the token kind ([+], [-], [~]); with any other
    token the table lookup raises [KeyError] before the operand is lowered.
    [not operand] lowers to [UnaryOp(Not, ...)] whatever its first child
    is. *)
Theorem unary_operators (node sign operand : NL) (s : expr_context) :
  children_of node = [sign; operand] ->
  (forall v r s',
      self_visit self operand s = (inr v, s') ->
      get_line_range node = ok r ->
      (type_of sign = token.PLUS ->
       visit_factor self node s = (inr (UnaryOp UAdd v r), s'))
      /\ (type_of sign = token.MINUS ->
          visit_factor self node s = (inr (UnaryOp USub v r), s'))
      /\ (type_of sign = token.TILDE ->
          visit_factor self node s = (inr (UnaryOp Invert v r), s'))
      /\ visit_not_test self node s = (inr (UnaryOp Not v r), s'))
  /\ (type_of sign <> token.PLUS ->
      type_of sign <> token.MINUS ->
      type_of sign <> token.TILDE ->
      visit_factor self node s = (inl KeyError, s)).
Proof.
  intro Hchildren. split.
  - intros v r s' Hv Hr.
    assert (Hfactor :
              forall u, TOKEN_TYPE_TO_UNARY_OP (type_of sign) = ok u ->
                        visit_factor self node s = (inr (UnaryOp u v r), s')).
    { intros u Hu. unfold visit_factor. rewrite Hchildren.
      rewrite getitem_cons_0.
      change (getitem [sign; operand] 1) with (@inr exn NL operand).
      simp_run. rw Hu. rw Hv. rw Hr. reflexivity. }
    split; [| split; [| split]].
    + intro H. apply Hfactor. rewrite H. reflexivity.
    + intro H. apply Hfactor. rewrite H. reflexivity.
    + intro H. apply Hfactor. rewrite H. reflexivity.
    + unfold visit_not_test. rewrite Hchildren.
      change (getitem [sign; operand] 1) with (@inr exn NL operand).
      simp_run. rw Hv. rw Hr. reflexivity.
  - intros Hplus Hminus Htilde. unfold visit_factor. rewrite Hchildren.
    rewrite getitem_cons_0. simp_run. unfold TOKEN_TYPE_TO_UNARY_OP.
    apply Z.eqb_neq in Hplus, Hminus, Htilde.
    rewrite Hplus, Hminus, Htilde. reflexivity.
Qed.

End Clauses.

(** ** Atoms *)

Section Atoms.
Variable literal : Type.
Variable env : Env literal.
Variable self : Self literal.

Local Notation AST := (AST literal).

(** X18. Parentheses leave no node of their own: [(x)] lowers to whatever
    [x] lowers to, with the range of [x], not of the parentheses. [()] is
    the empty [Tuple]; [(a, b)] is a [Tuple] of the children at the even
    positions of its [testlist_gexp], and its range is that of the whole
    atom, parentheses included. Both tuples carry the ambient context. *)
Theorem parenthesized_atoms (node lpar rpar : NL) (s : expr_context) :
  type_of lpar = token.LPAR ->
  (forall r,
      children_of node = [lpar; rpar] ->
      get_line_range node = ok r ->
      visit_atom env self node s = (inr (Tuple [] s r), s))
  /\ (forall x,
         children_of node = [lpar; x; rpar] ->
         type_of x <> testlist_gexp (syms env) ->
         visit_atom env self node s = self_visit self x s)
  /\ (forall inner second elts r s',
         children_of node = [lpar; inner; rpar] ->
         type_of inner = testlist_gexp (syms env) ->
         getitem (children_of inner) 1 = ok second ->
         type_of second <> old_comp_for (syms env) ->
         map_M (self_visit self) (every_other (children_of inner)) s
         = (inr elts, s') ->
         get_line_range node = ok r ->
         visit_atom env self node s = (inr (Tuple elts s' r), s')).
Proof.
  intro Hlpar. split; [| split].
  - intros r Hchildren Hr. unfold visit_atom. rewrite Hchildren.
    rewrite getitem_cons_0. simp_run. rw Hlpar.
    change (token.LPAR =? token.LPAR) with true.
    change (len [lpar; rpar] =? 2) with true. cbv beta iota.
    rw Hr. reflexivity.
  - intros x Hchildren Hx. unfold visit_atom. rewrite Hchildren.
    rewrite getitem_cons_0. simp_run. rw Hlpar.
    change (token.LPAR =? token.LPAR) with true.
    change (len [lpar; x; rpar] =? 2) with false.
    change (getitem [lpar; x; rpar] 1) with (@inr exn NL x).
    cbv beta iota. apply Z.eqb_neq in Hx. rw Hx. reflexivity.
  - intros inner second elts r s' Hchildren Hinner Hsecond Hnot Helts Hr.
    unfold visit_atom. rewrite Hchildren.
    rewrite getitem_cons_0. simp_run. rw Hlpar.
    change (token.LPAR =? token.LPAR) with true.
    change (len [lpar; inner; rpar] =? 2) with false.
    change (getitem [lpar; inner; rpar] 1) with (@inr exn NL inner).
    cbv beta iota. rw Hinner. rewrite Z.eqb_refl. cbv beta iota.
    unfold visit_testlist_gexp. simp_run. rw Hsecond.
    apply Z.eqb_neq in Hnot. rw Hnot. rw Helts. rw Hr. reflexivity.
Qed.

(** X19. The other atoms. [[]] is the empty [List] and [[x]] a [List] of one
    element; [{}] is the empty [Dict] and [{x}] a [Set] of one element; three
    dots are the [Ellipsis] constant; a backquoted expression is a call of
    the name [repr], in [Load] context whatever the ambient one, on the
    lowered expression. An atom that opens with any other token raises
    [NotImplementedError], and one without children [IndexError]. *)
Theorem displays_and_other_atoms (node : NL) (s : expr_context) :
  (forall opener closer r,
      children_of node = [opener; closer] ->
      get_line_range node = ok r ->
      (type_of opener = token.LSQB ->
       visit_atom env self node s = (inr (List [] s r), s))
      /\ (type_of opener = token.LBRACE ->
          visit_atom env self node s = (inr (Dict [] [] r), s)))
  /\ (forall opener x closer v r s',
         children_of node = [opener; x; closer] ->
         self_visit self x s = (inr v, s') ->
         get_line_range node = ok r ->
         (type_of opener = token.LSQB ->
          type_of x <> listmaker (syms env) ->
          visit_atom env self node s = (inr (List [v] s' r), s'))
         /\ (type_of opener = token.LBRACE ->
             type_of x <> dictsetmaker (syms env) ->
             visit_atom env self node s = (inr (Set_ [v] s' r), s'))
         /\ (type_of opener = token.BACKQUOTE ->
             visit_atom env self node s
             = (inr (Call (Name "repr" Load r) [v] [] r), s')))
  /\ (forall d1 d2 d3 r,
         children_of node = [d1; d2; d3] ->
         type_of d1 = token.DOT ->
         type_of d2 = token.DOT ->
         type_of d3 = token.DOT ->
         get_line_range node = ok r ->
         visit_atom env self node s = (inr (Constant Ellipsis r), s))
  /\ (forall opener,
         getitem (children_of node) 0 = ok opener ->
         type_of opener <> token.LPAR ->
         type_of opener <> token.LSQB ->
         type_of opener <> token.LBRACE ->
         type_of opener <> token.DOT ->
         type_of opener <> token.BACKQUOTE ->
         visit_atom env self node s
         = (inl (NotImplementedError (repr env node)), s))
  /\ (children_of node = [] ->
      visit_atom env self node s = (inl IndexError, s)).
Proof.
  split; [| split; [| split; [| split]]].
  - intros opener closer r Hchildren Hr.
    split; intro Hopen; unfold visit_atom; rewrite Hchildren;
      rewrite getitem_cons_0; simp_run; rw Hopen;
      change (len [opener; closer] =? 2) with true; cbv beta iota;
      rw Hr; reflexivity.
  - intros opener x closer v r s' Hchildren Hv Hr.
    split; [| split].
    + intros Hopen Hx. unfold visit_atom. rewrite Hchildren.
      rewrite getitem_cons_0. simp_run. rw Hopen.
      change (len [opener; x; closer] =? 2) with false.
      change (getitem [opener; x; closer] 1) with (@inr exn NL x).
      cbv beta iota. apply Z.eqb_neq in Hx. rw Hx. cbn [negb].
      rw Hv. rw Hr. reflexivity.
    + intros Hopen Hx. unfold visit_atom. rewrite Hchildren.
      rewrite getitem_cons_0. simp_run. rw Hopen.
      change (len [opener; x; closer] =? 2) with false.
      change (getitem [opener; x; closer] 1) with (@inr exn NL x).
      cbv beta iota. apply Z.eqb_neq in Hx. rw Hx. cbn [negb].
      rw Hv. rw Hr. reflexivity.
    + intros Hopen. unfold visit_atom. rewrite Hchildren.
      rewrite getitem_cons_0. simp_run. rw Hopen.
      change (getitem [opener; x; closer] 1) with (@inr exn NL x).
      cbv beta iota. rw Hr. rw Hv. reflexivity.
  - intros d1 d2 d3 r Hchildren H1 H2 H3 Hr.
    unfold visit_atom. rewrite Hchildren.
    rewrite getitem_cons_0. simp_run. rw H1.
    change (len [d1; d2; d3] =? 3) with true. cbn [forallb].
    rewrite H1, H2, H3. cbv beta iota. cbn [andb]. cbv beta iota.
    rw Hr. reflexivity.
  - intros opener Hopener Hlpar Hlsqb Hlbrace Hdot Hbackquote.
    unfold visit_atom. simp_run. rw Hopener.
    apply Z.eqb_neq in Hlpar, Hlsqb, Hlbrace, Hdot, Hbackquote.
    rewrite Hlpar, Hlsqb, Hlbrace, Hdot, Hbackquote. reflexivity.
  - intro Hchildren. unfold visit_atom. rewrite Hchildren. reflexivity.
Qed.

End Atoms.

(** ** Brace literals without a comprehension clause *)

Ltac loop_now :=
  cbn [List.length brace_loop]; unfold done at 1;
  cbn [consumer c_children index List.length Nat.leb negb]; cbv beta iota.

Ltac state_now := cbn [consumer is_dict keys values elts app visit_opt].

Section Braces.
Variable literal : Type.
Variable env : Env literal.

Local Notation AST := (AST literal).

(** X20. [{e1, e2}] lowers to a [Set] of the two elements in the ambient
    context, [{k: v}] to a [Dict] of one pair, and [{**m}] to a [Dict] whose
    key is [None]. A pair followed by a plain element, as in [{k: v, e}],
    fails an assertion once everything is lowered, and two elements without
    a comma between them fail one after the first is lowered. *)
Theorem brace_literals (self : Self literal) (node inner : NL)
  (s : expr_context) :
  256 <= comp_for (syms env) ->
  256 <= star_expr (syms env) ->
  (forall e1 comma e2 v1 v2 r s1 s2,
      brace_atom env node inner [e1; comma; e2] ->
      type_of e1 <> token.DOUBLESTAR ->
      type_of e1 <> star_expr (syms env) ->
      type_of comma = token.COMMA ->
      type_of e2 <> token.DOUBLESTAR ->
      type_of e2 <> star_expr (syms env) ->
      self_visit self e1 s = (inr v1, s1) ->
      self_visit self e2 s1 = (inr v2, s2) ->
      get_line_range node = ok r ->
      visit_atom env self node s = (inr (Set_ [v1; v2] s2 r), s2))
  /\ (forall k colon v key value r s1 s2,
         brace_atom env node inner [k; colon; v] ->
         type_of k <> token.DOUBLESTAR ->
         type_of k <> star_expr (syms env) ->
         type_of colon = token.COLON ->
         self_visit self k s = (inr key, s1) ->
         self_visit self v s1 = (inr value, s2) ->
         get_line_range node = ok r ->
         visit_atom env self node s
         = (inr (Dict [Some key] [value] r), s2))
  /\ (forall dstar m vm r s1,
         brace_atom env node inner [dstar; m] ->
         type_of dstar = token.DOUBLESTAR ->
         self_visit self m s = (inr vm, s1) ->
         get_line_range node = ok r ->
         visit_atom env self node s = (inr (Dict [None] [vm] r), s1))
  /\ (forall k colon v comma e key value elt s1 s2 s3,
         brace_atom env node inner [k; colon; v; comma; e] ->
         type_of k <> token.DOUBLESTAR ->
         type_of k <> star_expr (syms env) ->
         type_of colon = token.COLON ->
         type_of comma = token.COMMA ->
         type_of e <> token.DOUBLESTAR ->
         type_of e <> star_expr (syms env) ->
         self_visit self k s = (inr key, s1) ->
         self_visit self v s1 = (inr value, s2) ->
         self_visit self e s2 = (inr elt, s3) ->
         visit_atom env self node s = (inl AssertionError, s3))
  /\ (forall e1 e2 v1 s1,
         brace_atom env node inner [e1; e2] ->
         type_of e1 <> token.DOUBLESTAR ->
         type_of e1 <> star_expr (syms env) ->
         type_of e2 <> token.COLONEQUAL ->
         type_of e2 <> token.COLON ->
         type_of e2 <> comp_for (syms env) ->
         type_of e2 <> token.COMMA ->
         self_visit self e1 s = (inr v1, s1) ->
         visit_atom env self node s = (inl AssertionError, s1)).
Proof.
  intros Hsym Hsym'. split; [| split; [| split; [| split]]].
  - intros e1 comma e2 v1 v2 r s1 s2 Hatom H1 H1' Hcomma H2 H2' Hv1 Hv2 Hr.
    erewrite visit_atom_brace; [| exact Hatom]. unfold new_Consumer.
    loop_now. unfold brace_step, brace_element. state_now.
    simp_run. repeat consume_now. state_now. rw Hv1.
    repeat consume_now. state_now. repeat consume_now.
    loop_now. repeat consume_now. loop_now.
    repeat consume_now. state_now. rw Hv2.
    repeat consume_now. state_now. repeat consume_now.
    loop_now. loop_now.
    unfold brace_finish. state_now. simp_run. rw Hr. reflexivity.
  - intros k colon v key value r s1 s2 Hatom Hk Hk' Hcolon Hkey Hvalue Hr.
    erewrite visit_atom_brace; [| exact Hatom]. unfold new_Consumer.
    loop_now. unfold brace_step, brace_element. state_now.
    simp_run. repeat consume_now. state_now. rw Hkey.
    repeat consume_now. state_now. rw Hvalue.
    repeat consume_now. state_now. repeat consume_now.
    loop_now. loop_now.
    unfold brace_finish. state_now. simp_run. rw Hr. reflexivity.
  - intros dstar m vm r s1 Hatom Hdstar Hm Hr.
    erewrite visit_atom_brace; [| exact Hatom]. unfold new_Consumer.
    loop_now. unfold brace_step, brace_element. state_now.
    simp_run. repeat consume_now. state_now. rw Hm.
    state_now. loop_now. loop_now.
    unfold brace_finish. state_now. simp_run. rw Hr. reflexivity.
  - intros k colon v comma e key value elt s1 s2 s3 Hatom Hk Hk' Hcolon
      Hcomma He He' Hkey Hvalue Helt.
    erewrite visit_atom_brace; [| exact Hatom]. unfold new_Consumer.
    loop_now. unfold brace_step, brace_element. state_now.
    simp_run. repeat consume_now. state_now. rw Hkey.
    repeat consume_now. state_now. rw Hvalue.
    repeat consume_now. state_now. repeat consume_now.
    loop_now. repeat consume_now. loop_now.
    repeat consume_now. state_now. rw Helt.
    repeat consume_now. state_now. repeat consume_now.
    loop_now. loop_now. reflexivity.
  - intros e1 e2 v1 s1 Hatom H1 H1' Hw Hc Hcf Hcm Hv1.
    erewrite visit_atom_brace; [| exact Hatom]. unfold new_Consumer.
    loop_now. unfold brace_step, brace_element. state_now.
    simp_run. repeat consume_now. state_now. rw Hv1.
    repeat consume_now. state_now. repeat consume_now.
    loop_now. repeat consume_now. reflexivity.
Qed.

(** X21. Every iteration of the loop over a brace literal that goes on to
    another one has consumed at least one child and has left the children
    themselves alone, so the loop ends after at most as many iterations as
    there are children: allowing it more changes no outcome, whatever the
    children are and whatever lowering them does. *)
Theorem brace_loop_makes_progress (self : Self literal) (node : NL)
  (st : brace_state literal) (s : expr_context) :
  (forall st' s',
      done (consumer st) = false ->
      brace_step env self node st s = (inr (Continue st'), s') ->
      c_children (consumer st') = c_children (consumer st)
      /\ (index (consumer st) < index (consumer st'))%nat)
  /\ (forall items more,
         brace_loop env self (List.length items) node
           (mkBrace (new_Consumer items) false [] [] []) s
         = brace_loop env self (List.length items + more) node
             (mkBrace (new_Consumer items) false [] [] []) s).
Proof.
  split.
  - intros st' s' Hdone Hstep.
    eapply brace_step_advances; [exact Hdone | exact Hstep].
  - intros items more. apply brace_loop_bound; cbn [consumer c_children index];
      unfold new_Consumer; cbn [c_children index]; lia.
Qed.

(** A comma, at any depth that lets [visit] run at all. *)
Lemma visit_comma (d : nat) (comma : NL) (s : expr_context) :
  type_of comma = token.COMMA ->
  token_type_to_name env token.COMMA = Some "COMMA" ->
  self_visit (Compiler env (S d)) comma s
  = (inl (NotImplementedError "visit_COMMA"), s).
Proof.
  intros Hcomma Hname. cbn [Compiler self_visit].
  unfold visit, get_node_name. rewrite Hcomma.
  change (token.COMMA <? 256) with true. rewrite Hname, run_bind_lift_ok.
  change (getattr_visit env (Compiler env d) "COMMA" comma)
    with (generic_visit env comma).
  unfold generic_visit, get_node_name. rewrite Hcomma.
  change (token.COMMA <? 256) with true. rewrite Hname. reflexivity.
Qed.

(** X22. In a set display with more than one item, a starred item is not
    lowered: after reading the [star_expr] node the loop lowers the child
    that comes next, and that is the comma, for which there is no method.
    So [{*a, b}] raises [NotImplementedError] for [visit_COMMA], at every
    depth of at least one and with the context unchanged. *)
Theorem starred_item_then_comma (d : nat) (node inner star comma : NL)
  (rest : list NL) (s : expr_context) :
  brace_atom env node inner (star :: comma :: rest) ->
  type_of star = star_expr (syms env) ->
  256 <= star_expr (syms env) ->
  type_of comma = token.COMMA ->
  token_type_to_name env token.COMMA = Some "COMMA" ->
  visit_atom env (Compiler env (S d)) node s
  = (inl (NotImplementedError "visit_COMMA"), s).
Proof.
  intros Hatom Hstar Hsym Hcomma Hname.
  erewrite visit_atom_brace; [| exact Hatom]. unfold new_Consumer.
  cbn [List.length brace_loop]. unfold done at 1.
  cbn [consumer c_children index List.length Nat.leb negb]. cbv beta iota.
  unfold brace_step at 1. unfold brace_element at 1. state_now.
  unfold bind at 1. unfold bind at 1.
  erewrite consume_miss;
    [| reflexivity | rewrite Hstar; unfold token.DOUBLESTAR; lia].
  cbv beta iota.
  erewrite (@consume_hit (star :: comma :: rest) 0 star);
    [| reflexivity | rewrite Hstar; apply Z.eqb_refl].
  cbv beta iota.
  erewrite (@consume_hit (star :: comma :: rest) 1 comma None);
    [| reflexivity | reflexivity].
  cbv beta iota. cbn [visit_opt]. unfold bind at 1.
  rewrite (visit_comma d comma s Hcomma Hname). reflexivity.
Qed.

End Braces.

(** ** Call arguments *)

Section Arguments.
Variable literal : Type.
Variable env : Env literal.
Variable self : Self literal.

Local Notation AST := (AST literal).

Ltac case_outcome H :=
  match type of H with
  | context [match ?x with _ => _ end] => destruct x; try discriminate H
  end.

Lemma compile_argument_appends (node parent argument : NL)
  (args keywords args' keywords' : list AST) s s' :
  compile_argument env self node parent argument (args, keywords) s
  = (inr (args', keywords'), s') ->
  (exists a, args' = args ++ [a] /\ keywords' = keywords)
  \/ (exists value r,
         args' = args
         /\ (keywords' = keywords ++ [keyword None value r]
             \/ exists name, keywords' = keywords ++ [keyword (Some name) value r])).
Proof.
  intro H. unfold compile_argument in H.
  unfold assert, bind, lift, ret, raise in H.
  repeat case_outcome H;
    injection H as <- <- <-;
    first
      [ left; eexists; split; reflexivity
      | right; do 2 eexists; split; [reflexivity |];
        first [ left; reflexivity | right; eexists; reflexivity ] ].
Qed.

Lemma arglist_loop_counts (arguments : list NL) (node parent : NL)
  (args keywords args' keywords' : list AST) s s' :
  for_each arguments (compile_argument env self node parent)
           (args, keywords) s
  = (inr (args', keywords'), s') ->
  (List.length args' + List.length keywords'
   = List.length args + List.length keywords + List.length arguments)%nat
  /\ (exists more, args' = args ++ more)
  /\ (exists more, keywords' = keywords ++ more).
Proof.
  revert args keywords s.
  induction arguments as [| argument arguments IH]; intros args keywords s H.
  - injection H as <- <- <-. cbn [List.length].
    split; [lia | split; exists []; now rewrite app_nil_r].
  - cbn [for_each] in H. unfold bind at 1 in H.
    destruct (compile_argument env self node parent argument (args, keywords) s)
      as [[e | [args1 keywords1]] s1] eqn:Hone; [discriminate |].
    apply compile_argument_appends in Hone.
    apply IH in H. destruct H as (Hcount & [ma Hma] & [mk Hmk]).
    cbn [List.length].
    destruct Hone as [(a & -> & ->) | (value & r & -> & Hk)].
    + rewrite length_app in Hcount. cbn [List.length] in Hcount.
      split; [lia | split].
      * exists (a :: ma). rewrite Hma, <- app_assoc. reflexivity.
      * exists mk. exact Hmk.
    + assert (Hk' : exists k, keywords1 = keywords ++ [k]).
      { destruct Hk as [-> | [name ->]]; eexists; reflexivity. }
      destruct Hk' as [k ->].
      rewrite length_app in Hcount. cbn [List.length] in Hcount.
      split; [lia | split].
      * exists ma. exact Hma.
      * exists (k :: mk). rewrite Hmk, <- app_assoc. reflexivity.
Qed.

(** X23. A call's arguments are what [_compile_arglist] is given, taken as
    one argument unless it is an [arglist] node, whose children at the even
    positions they then are. When the method returns, every argument has
    become exactly one positional argument or exactly one keyword: the two
    lists together are as long as the arguments are many. *)
Theorem every_argument_counts (node parent : NL) (args keywords : list AST)
  (s s' : expr_context) :
  (is_Leaf node = true \/ type_of node <> arglist (syms env) ->
   arglist_arguments env node = [node])
  /\ (is_Leaf node = false ->
      type_of node = arglist (syms env) ->
      arglist_arguments env node = every_other (children_of node))
  /\ (_compile_arglist env self node parent s = (inr (args, keywords), s') ->
      (List.length args + List.length keywords
       = List.length (arglist_arguments env node))%nat).
Proof.
  split; [| split].
  - intros [Hleaf | Hkind]; unfold arglist_arguments.
    + rewrite Hleaf. reflexivity.
    + apply Z.eqb_neq in Hkind. rewrite Hkind. cbn [negb].
      rewrite orb_true_r. reflexivity.
  - intros Hnode Hkind. unfold arglist_arguments.
    rewrite Hnode, Hkind, Z.eqb_refl. reflexivity.
  - intro H. unfold _compile_arglist in H.
    apply arglist_loop_counts in H. destruct H as [H _].
    cbn [List.length] in H. lia.
Qed.

(** X24. The argument shapes other than [*expr] and [name = value]. A leaf
    is a positional argument and must lower to an expression, or an
    assertion fails; [**expr] is a keyword without a name; an expression followed
    by a comprehension clause is a generator expression whose range is that
    of the parent handed in, which is the trailer of the call with its
    parentheses. *)
Theorem argument_shapes (node parent argument : NL) (args keywords : list AST)
  (s : expr_context) :
  (forall leaf v s1,
      argument = NLeaf leaf ->
      self_visit self argument s = (inr v, s1) ->
      (is_expr v = true ->
       compile_argument env self node parent argument (args, keywords) s
       = (inr (args ++ [v], keywords), s1))
      /\ (is_expr v = false ->
          compile_argument env self node parent argument (args, keywords) s
          = (inl AssertionError, s1)))
  /\ (forall t dstar operand v r s1,
         argument = Node t [dstar; operand] ->
         type_of dstar = token.DOUBLESTAR ->
         self_visit self operand s = (inr v, s1) ->
         get_line_range argument = ok r ->
         compile_argument env self node parent argument (args, keywords) s
         = (inr (args, keywords ++ [keyword None v r]), s1))
  /\ (forall t elt clause v comps r s1 s2,
         argument = Node t [elt; clause] ->
         type_of elt <> token.STAR ->
         type_of elt <> token.DOUBLESTAR ->
         self_visit self elt s = (inr v, s1) ->
         self_compile_comprehension self clause s1 = (inr comps, s2) ->
         get_line_range parent = ok r ->
         compile_argument env self node parent argument (args, keywords) s
         = (inr (args ++ [GeneratorExp v comps r], keywords), s2)).
Proof.
  split; [| split].
  - intros leaf v s1 -> Hv.
    split; intro Hexpr; unfold compile_argument; cbn [is_Leaf]; simp_run;
      rw Hv; rw Hexpr; reflexivity.
  - intros t dstar operand v r s1 -> Hdstar Hv Hr.
    unfold compile_argument. cbn [is_Leaf children_of].
    rewrite getitem_cons_0.
    change (getitem [dstar; operand] 1) with (@inr exn NL operand).
    simp_run. rw Hdstar. rw Hv. rw Hr. reflexivity.
  - intros t elt clause v comps r s1 s2 -> Hstar Hdstar Hv Hcomps Hr.
    unfold compile_argument. cbn [is_Leaf children_of].
    rewrite getitem_cons_0.
    change (getitem [elt; clause] 1) with (@inr exn NL clause).
    change (len [elt; clause] =? 1) with false.
    change (len [elt; clause] =? 2) with true.
    simp_run. apply Z.eqb_neq in Hstar, Hdstar. rw Hstar. rw Hdstar.
    rw Hv. rw Hcomps. rw Hr. reflexivity.
Qed.

(** X25. A list comprehension and a parenthesized generator expression take
    the range of the whole atom, brackets included, and their element is
    lowered before the clauses; as the only thing in the atom they are what
    the atom lowers to. *)
Theorem bracketed_comprehensions (node opener inner closer elt clause : NL)
  (v : AST) (comps : list AST) (r : LineRange) (s s1 s2 : expr_context) :
  children_of node = [opener; inner; closer] ->
  getitem (children_of inner) 0 = ok elt ->
  getitem (children_of inner) 1 = ok clause ->
  type_of clause = old_comp_for (syms env) ->
  self_visit self elt s = (inr v, s1) ->
  self_compile_comprehension self clause s1 = (inr comps, s2) ->
  get_line_range node = ok r ->
  (type_of opener = token.LSQB ->
   type_of inner = listmaker (syms env) ->
   visit_atom env self node s = (inr (ListComp v comps r), s2))
  /\ (type_of opener = token.LPAR ->
      type_of inner = testlist_gexp (syms env) ->
      visit_atom env self node s = (inr (GeneratorExp v comps r), s2)).
Proof.
  intros Hchildren Helt Hclause Hkind Hv Hcomps Hr. split.
  - intros Hopen Hinner. unfold visit_atom. rewrite Hchildren.
    rewrite getitem_cons_0.
    change (getitem [opener; inner; closer] 1) with (@inr exn NL inner).
    change (len [opener; inner; closer] =? 2) with false.
    simp_run. rw Hopen. rw Hinner. rewrite Z.eqb_refl. cbn [negb].
    cbv beta iota. rw Hclause. rw Hkind. rewrite Z.eqb_refl. cbv beta iota.
    rw Helt. rw Hv. rw Hcomps. rw Hr. reflexivity.
  - intros Hopen Hinner. unfold visit_atom. rewrite Hchildren.
    rewrite getitem_cons_0.
    change (getitem [opener; inner; closer] 1) with (@inr exn NL inner).
    change (len [opener; inner; closer] =? 2) with false.
    simp_run. rw Hopen. rw Hinner. rewrite Z.eqb_refl. cbv beta iota.
    unfold visit_testlist_gexp. simp_run.
    rw Hclause. rw Hkind. rewrite Z.eqb_refl. cbv beta iota.
    rw Helt. rw Hv. rw Hcomps. rw Hr. reflexivity.
Qed.

(** X26. The leaves. A name becomes a [Name] with the text of the leaf, in
    the ambient context; a number or a string becomes a [Constant] with what
    [ast.literal_eval] makes of the text, and what [literal_eval] raises is
    the outcome; a colon becomes the slice that is open on all sides. None
    lowers anything else, and each takes the range of the leaf. *)
Theorem leaf_methods (leaf : Leaf) (s : expr_context) :
  @visit_NAME literal (NLeaf leaf) s
  = (inr (Name (value leaf) s (get_line_range_for_leaf leaf)), s)
  /\ (forall v : literal,
         literal_eval env (value leaf) = ok v ->
         visit_NUMBER env (NLeaf leaf) s
         = (inr (Constant (Literal v) (get_line_range_for_leaf leaf)), s)
         /\ visit_STRING env (NLeaf leaf) s
            = (inr (Constant (Literal v) (get_line_range_for_leaf leaf)), s))
  /\ (forall e,
         literal_eval env (value leaf) = throw e ->
         @visit_NUMBER literal env (NLeaf leaf) s = (inl e, s)
         /\ @visit_STRING literal env (NLeaf leaf) s = (inl e, s))
  /\ @visit_COLON literal (NLeaf leaf) s
     = (inr (Slice None None None (get_line_range_for_leaf leaf)), s).
Proof.
  split; [reflexivity | split; [| split; [| reflexivity]]].
  - intros v Hv. unfold visit_NUMBER, visit_STRING. cbn [value_of].
    simp_run. rw Hv. split; reflexivity.
  - intros e He. unfold visit_NUMBER, visit_STRING. cbn [value_of].
    simp_run. rw He. split; reflexivity.
Qed.

End Arguments.

(** ** Lowering returns

    How deep the calls of the compiler nest is bounded by the tree: a
    method calls [self.visit], [self._compile_comprehension] and
    [self._compile_comp_iter] on parts of the node it was given, except
    that [_compile_comp_iter] hands its own node over to
    [_compile_comprehension]. *)

Fixpoint height (node : NL) : nat :=
  match node with
  | NLeaf _ => O
  | Node _ children =>
      S ((fix tallest (cs : list NL) : nat :=
            match cs with
            | [] => O
            | c :: cs' => Nat.max (height c) (tallest cs')
            end) children)
  end.

Lemma height_child (t : Z) (children : list NL) (c : NL) :
  List.In c children -> (height c < height (Node t children))%nat.
Proof.
  cbn [height]. induction children as [| c' children IH]; [intros [] |].
  intros [-> | Hin].
  - lia.
  - specialize (IH Hin). lia.
Qed.

Lemma height_children_of (node c : NL) :
  List.In c (children_of node) -> (height c < height node)%nat.
Proof.
  destruct node as [leaf | t children]; [intros [] | apply height_child].
Qed.

(** [m] does not run out of depth; [m] may return [a]; [r] is not a
    [RecursionError]. *)
Definition terminates {A} (m : M A) : Prop :=
  forall s, fst (m s) <> inl RecursionError.

Definition returns {A} (m : M A) (a : A) : Prop :=
  exists s s', m s = (inr a, s').

Definition quiet {A} (r : result A) : Prop := r <> throw RecursionError.

Lemma terminates_ret (A : Type) (a : A) : terminates (ret a).
Proof. intro s. discriminate. Qed.

Lemma terminates_raise (A : Type) (e : exn) :
  e <> RecursionError -> terminates (@raise A e).
Proof. intros He s H. injection H as ->. contradiction. Qed.

Lemma terminates_lift (A : Type) (r : result A) : quiet r -> terminates (lift r).
Proof. intros Hr s. exact Hr. Qed.

Lemma terminates_get : terminates get_expr_context.
Proof. intro s. discriminate. Qed.

Lemma terminates_assert (b : bool) : terminates (assert b).
Proof. destruct b; intro s; discriminate. Qed.

Lemma terminates_bind (A B : Type) (m : M A) (k : A -> M B) :
  terminates m -> (forall a, returns m a -> terminates (k a)) ->
  terminates (bind m k).
Proof.
  intros Hm Hk s. unfold bind. specialize (Hm s).
  destruct (m s) as [[e | a] s'] eqn:Hrun.
  - cbn [fst] in *. congruence.
  - apply Hk. exists s, s'. exact Hrun.
Qed.

Lemma returns_lift (A : Type) (r : result A) (a : A) :
  returns (lift r) a -> r = ok a.
Proof. intros (s & s' & H). injection H as -> _. reflexivity. Qed.

Lemma terminates_set_expr_context (A : Type) (ctx : expr_context) (body : M A) :
  terminates body -> terminates (set_expr_context ctx body).
Proof. intros Hbody s. rewrite set_expr_context_run. apply Hbody. Qed.

Lemma terminates_for_each (X S : Type) (xs : list X) (body : X -> S -> M S) :
  (forall x acc, List.In x xs -> terminates (body x acc)) ->
  forall acc, terminates (for_each xs body acc).
Proof.
  induction xs as [| x xs IH]; intros Hbody acc; cbn [for_each].
  - apply terminates_ret.
  - apply terminates_bind.
    + apply Hbody. left. reflexivity.
    + intros acc' _. apply IH. intros x' acc'' Hin. apply Hbody. right.
      exact Hin.
Qed.

Lemma terminates_map_M (X Y : Type) (xs : list X) (f : X -> M Y) :
  (forall x, List.In x xs -> terminates (f x)) -> terminates (map_M f xs).
Proof.
  induction xs as [| x xs IH]; intros Hf; cbn [map_M].
  - apply terminates_ret.
  - apply terminates_bind; [apply Hf; left; reflexivity |].
    intros y _. apply terminates_bind.
    + apply IH. intros x' Hin. apply Hf. right. exact Hin.
    + intros ys _. apply terminates_ret.
Qed.

Lemma returns_ret (A : Type) (a b : A) : returns (ret a) b -> a = b.
Proof. intros (s & s' & H). injection H as -> _. reflexivity. Qed.

Lemma returns_bind (A B : Type) (m : M A) (k : A -> M B) (b : B) :
  returns (bind m k) b -> exists a, returns m a /\ returns (k a) b.
Proof.
  intros (s & s' & H). unfold bind in H.
  destruct (m s) as [[e | a] s1] eqn:Hrun; [discriminate |].
  exists a. split; [exists s, s1; exact Hrun | exists s1, s'; exact H].
Qed.

(** The pure parts raise other things. *)
Lemma quiet_ok (A : Type) (a : A) : quiet (ok a).
Proof. discriminate. Qed.

Lemma quiet_getitem (A : Type) (l : list A) (i : Z) : quiet (getitem l i).
Proof.
  unfold quiet, getitem.
  destruct (_ <? 0); [discriminate |].
  destruct (nth_error l _); discriminate.
Qed.

Lemma quiet_value_of (node : NL) : quiet (value_of node).
Proof. destruct node; discriminate. Qed.

Lemma quiet_get_line_range (node : NL) : quiet (get_line_range node).
Proof.
  intro H. apply (proj2 (get_line_range_spans node)) in H. discriminate.
Qed.

Lemma quiet_get_line_range_opt (node : option NL) :
  quiet (get_line_range_opt node).
Proof. destruct node; [apply quiet_get_line_range | discriminate]. Qed.

Lemma quiet_binop (t : Z) : quiet (TOKEN_TYPE_TO_BINOP t).
Proof.
  unfold quiet, TOKEN_TYPE_TO_BINOP.
  repeat match goal with |- context [if ?b then _ else _] => destruct b end;
    discriminate.
Qed.

Lemma quiet_unary_op (t : Z) : quiet (TOKEN_TYPE_TO_UNARY_OP t).
Proof.
  unfold quiet, TOKEN_TYPE_TO_UNARY_OP.
  repeat match goal with |- context [if ?b then _ else _] => destruct b end;
    discriminate.
Qed.

Lemma quiet_rbind (A B : Type) (r : result A) (k : A -> result B) :
  quiet r -> (forall a, quiet (k a)) -> quiet (rbind r k).
Proof.
  intros Hr Hk. destruct r as [e | a]; [| apply Hk].
  intro H. apply Hr. injection H as ->. reflexivity.
Qed.

Ltac quiet_now :=
  repeat first
    [ apply quiet_getitem
    | apply quiet_value_of
    | apply quiet_rbind; [| intro]
    | match goal with
      | |- quiet (if ?b then _ else _) => destruct b
      | |- quiet (match ?x with _ => _ end) => destruct x
      end
    | discriminate ].

Lemma quiet_compare_operator (node : NL) : quiet (compare_operator node).
Proof.
  unfold compare_operator, TOKEN_TYPE_TO_COMPARE_OP, NAME_TO_COMPARE_OP.
  quiet_now.
Qed.

Section Quiet.
Variable literal : Type.
Variable env : Env literal.

Lemma quiet_get_node_name (node : NL) : quiet (get_node_name env node).
Proof. unfold get_node_name. quiet_now. Qed.

End Quiet.

(** What the slices and a consumer hand out is in the list. *)
Lemma In_drop_first (A : Type) (l : list A) (a : A) :
  List.In a (drop_first l) -> List.In a l.
Proof. destruct l; [intros [] | intro H; right; exact H]. Qed.

Lemma In_drop_last (A : Type) (l : list A) (a : A) :
  List.In a (drop_last l) -> List.In a l.
Proof.
  unfold drop_last. induction l as [| x l IH]; [intros [] |].
  cbn [removelast]. destruct l as [| y l]; [intros [] |].
  intros [-> | H]; [left; reflexivity | right; apply IH, H].
Qed.

Lemma In_drop_last2 (A : Type) (l : list A) (a : A) :
  List.In a (drop_last2 l) -> List.In a l.
Proof. intro H. apply In_drop_last, In_drop_last. exact H. Qed.

Lemma In_every_other (A : Type) (l : list A) (a : A) :
  List.In a (every_other l) -> List.In a l.
Proof.
  enough (H : (List.In a (every_other l) -> List.In a l)
              /\ forall x, List.In a (every_other (x :: l)) ->
                           List.In a (x :: l))
    by apply H.
  induction l as [| y l [IH1 IH2]].
  - split; [intros [] | intros x H; exact H].
  - split; [apply IH2 |].
    intros x [-> | H]; [left; reflexivity | right; right; apply IH1, H].
Qed.

Lemma consume_In (c c' : _Consumer) (typ : option Z) (o : option NL) :
  consume c typ = (o, c') ->
  c_children c' = c_children c
  /\ match o with
     | Some x => List.In x (c_children c)
     | None => True
     end.
Proof.
  unfold consume. intro H.
  destruct ((index c <? List.length (c_children c))%nat && _).
  - injection H as <- <-. split; [reflexivity |].
    destruct (nth_error (c_children c) (index c)) eqn:Hnth; [| exact I].
    eapply nth_error_In. exact Hnth.
  - injection H as <- <-. split; [reflexivity | exact I].
Qed.

Section Returns.
Variable literal : Type.
Variable env : Env literal.
Variable self : Self literal.
Variable bound : nat.

Local Notation AST := (AST literal).

Hypothesis quiet_literal_eval : forall text, quiet (literal_eval env text).
Hypothesis safe_visit :
  forall c, (height c < bound)%nat -> terminates (self_visit self c).
Hypothesis safe_comprehension :
  forall c, (height c < bound)%nat ->
            terminates (self_compile_comprehension self c).
Hypothesis safe_comp_iter :
  forall c, (height c < bound)%nat ->
            terminates (self_compile_comp_iter self c).

Lemma height_arglist_arguments (node c : NL) :
  List.In c (arglist_arguments env node) -> (height c <= height node)%nat.
Proof.
  unfold arglist_arguments.
  destruct (is_Leaf node || negb (type_of node =? arglist (syms env))).
  - intros [<- | []]. lia.
  - intro H. apply In_every_other, height_children_of in H. lia.
Qed.

Ltac heights :=
  repeat match goal with
         | H : returns (lift _) _ |- _ => apply returns_lift in H
         | H : getitem _ _ = ok _ |- _ => apply getitem_ok_In in H
         | H : List.In _ (drop_first _) |- _ => apply In_drop_first in H
         | H : List.In _ (drop_last _) |- _ => apply In_drop_last in H
         | H : List.In _ (drop_last2 _) |- _ => apply In_drop_last2 in H
         | H : List.In _ (every_other _) |- _ => apply In_every_other in H
         | H : List.In (Some _) (map Some _) |- _ =>
             apply in_map_iff in H; destruct H as (? & [= <-] & H)
         | H : List.In _ (children_of _) |- _ =>
             apply height_children_of in H
         | H : List.In _ (arglist_arguments _ _) |- _ =>
             apply height_arglist_arguments in H
         | Hall : forall c, List.In c ?l -> _, H : List.In _ ?l |- _ =>
             apply Hall in H
         | Hall : forall c, List.In (Some c) ?l -> _, H : List.In (Some _) ?l
           |- _ =>
             apply Hall in H
         end;
  lia.

Ltac quiet_solve :=
  solve [ apply quiet_getitem | apply quiet_value_of
        | apply quiet_get_line_range | apply quiet_get_line_range_opt
        | apply quiet_binop | apply quiet_unary_op
        | apply quiet_compare_operator | apply quiet_get_node_name
        | apply quiet_literal_eval | apply quiet_ok ].

Ltac split_consume :=
  match goal with
  | |- context [consume ?c ?t] =>
      let o := fresh "o" in
      let c' := fresh "c" in
      let E := fresh "E" in
      let Ec := fresh "Ec" in
      let Eo := fresh "Eo" in
      destruct (consume c t) as [o c'] eqn:E;
      apply consume_In in E; destruct E as [Ec Eo];
      cbn [new_Consumer c_children] in Ec, Eo;
      try match goal with
          | H : c_children c = _ |- _ => rewrite H in Ec, Eo
          end
  end.

Ltac returns_using known :=
  repeat first
    [ known
    | match goal with
      | |- terminates (ret _) => apply terminates_ret
      | |- terminates (raise _) => apply terminates_raise; discriminate
      | |- terminates (lift _) => apply terminates_lift; quiet_solve
      | |- terminates get_expr_context => apply terminates_get
      | |- terminates (assert _) => apply terminates_assert
      | |- terminates (self_visit self _) => apply safe_visit; heights
      | |- terminates (self_compile_comprehension self _) =>
          apply safe_comprehension; heights
      | |- terminates (self_compile_comp_iter self _) =>
          apply safe_comp_iter; heights
      | |- terminates (set_expr_context _ _) =>
          apply terminates_set_expr_context
      | |- terminates (map_M _ _) => apply terminates_map_M; intros
      | |- terminates (for_each _ _ _) => apply terminates_for_each; intros
      | |- terminates (bind _ _) => apply terminates_bind; [| intros ? ?]
      | |- terminates (visit_opt _ ?o) => unfold visit_opt
      | |- terminates (match consume _ _ with _ => _ end) => split_consume
      | |- terminates (match (if ?b then _ else _) with _ => _ end) =>
          destruct b
      | |- terminates (match ?x with _ => _ end) => destruct x
      | |- terminates (if ?b then _ else _) => destruct b
      end ].

Ltac returns_now := returns_using fail.

Lemma terminates_generic_visit (node : NL) :
  terminates (generic_visit env node).
Proof. unfold generic_visit. returns_now. Qed.

Lemma terminates_visit_typevar (node : NL) :
  (height node <= bound)%nat -> terminates (visit_typevar env self node).
Proof. intro Hnode. unfold visit_typevar. returns_now. Qed.

Lemma terminates_visit_paramspec (node : NL) :
  (height node <= bound)%nat -> terminates (visit_paramspec env self node).
Proof. intro Hnode. unfold visit_paramspec. returns_now. Qed.

Lemma terminates_visit_typevartuple (node : NL) :
  (height node <= bound)%nat -> terminates (visit_typevartuple env self node).
Proof. intro Hnode. unfold visit_typevartuple. returns_now. Qed.

Lemma terminates_visit_typeparam (node : NL) :
  (height node <= bound)%nat -> terminates (visit_typeparam self node).
Proof. intro Hnode. unfold visit_typeparam. returns_now. Qed.

Lemma terminates_visit_file_input (node : NL) :
  (height node <= bound)%nat -> terminates (visit_file_input self node).
Proof. intro Hnode. unfold visit_file_input. returns_now. Qed.

Lemma terminates_visit_simple_stmt (node : NL) :
  (height node <= bound)%nat -> terminates (visit_simple_stmt self node).
Proof. intro Hnode. unfold visit_simple_stmt. returns_now. Qed.

Lemma terminates_visit_testlist_gexp (node : NL) (parent : option NL) :
  (height node <= bound)%nat ->
  terminates (visit_testlist_gexp env self node parent).
Proof. intro Hnode. unfold visit_testlist_gexp. returns_now. Qed.

Lemma terminates_compile_named_expr (children : list (option NL)) :
  (forall c, List.In (Some c) children -> (height c < bound)%nat) ->
  terminates (_compile_named_expr self children).
Proof. intro Hchildren. unfold _compile_named_expr. returns_now. Qed.

Lemma terminates_brace_comprehension (node comp_for : NL)
  (st : brace_state literal) :
  (height comp_for < bound)%nat ->
  terminates (brace_comprehension self node st comp_for).
Proof. intro Hclause. unfold brace_comprehension. returns_now. Qed.

Lemma terminates_brace_element (st : brace_state literal) :
  (forall c, List.In c (c_children (consumer st)) -> (height c < bound)%nat) ->
  terminates (brace_element env self st).
Proof.
  intro Hitems. unfold brace_element.
  returns_using
    ltac:(idtac;
          match goal with
          | |- terminates (_compile_named_expr _ _) =>
              apply terminates_compile_named_expr;
              intros ? [-> | [[= <-] | [-> | []]]]; cbv beta iota in *;
              heights
          end).
Qed.

Lemma terminates_brace_finish (node : NL) (st : brace_state literal) :
  terminates (brace_finish node st).
Proof. unfold brace_finish. returns_now. Qed.

Lemma terminates_brace_step (node : NL) (st : brace_state literal) :
  (forall c, List.In c (c_children (consumer st)) -> (height c < bound)%nat) ->
  done (consumer st) = false ->
  terminates (brace_step env self node st).
Proof.
  intros Hitems Hdone. unfold brace_step.
  apply terminates_bind; [apply terminates_brace_element; exact Hitems |].
  intros [st1 plain] (s & s1 & Hrun).
  apply brace_element_advances in Hrun; [| exact Hdone].
  destruct Hrun as [Hchildren _].
  destruct plain;
    returns_using
      ltac:(idtac;
            match goal with
            | |- terminates (brace_comprehension _ _ _ _) =>
                apply terminates_brace_comprehension; heights
            end).
Qed.

Lemma terminates_brace_loop (n : nat) (node : NL) (st : brace_state literal) :
  (forall c, List.In c (c_children (consumer st)) -> (height c < bound)%nat) ->
  (List.length (c_children (consumer st)) - index (consumer st) <= n)%nat ->
  terminates (brace_loop env self n node st).
Proof.
  revert st. induction n as [| n IH]; intros st Hitems Hleft;
    cbn [brace_loop]; destruct (done (consumer st)) eqn:Hdone;
    try apply terminates_brace_finish.
  - unfold done in Hdone. apply Nat.leb_gt in Hdone. lia.
  - apply terminates_bind; [apply terminates_brace_step; assumption |].
    intros [st' | a] (s & s' & Hrun); [| apply terminates_ret].
    apply brace_step_advances in Hrun; [| exact Hdone].
    destruct Hrun as [Hchildren Hindex].
    apply IH; rewrite Hchildren; [exact Hitems | lia].
Qed.

Lemma terminates_visit_atom (node : NL) :
  (height node <= bound)%nat -> terminates (visit_atom env self node).
Proof.
  intro Hnode. unfold visit_atom.
  returns_using
    ltac:(idtac;
          match goal with
          | |- terminates (visit_testlist_gexp _ _ _ _) =>
              apply terminates_visit_testlist_gexp; heights
          | |- terminates (brace_loop _ _ _ _ _) =>
              apply terminates_brace_loop;
              [ cbn [consumer new_Consumer c_children]; intros ? ?; heights
              | cbn [consumer new_Consumer c_children index]; lia ]
          end).
Qed.

Lemma terminates_visit_expr (node : NL) :
  (height node <= bound)%nat -> terminates (visit_expr self node).
Proof. intro Hnode. unfold visit_expr. returns_now. Qed.

Lemma terminates_visit_comparison (node : NL) :
  (height node <= bound)%nat -> terminates (visit_comparison self node).
Proof. intro Hnode. unfold visit_comparison. returns_now. Qed.

Lemma terminates_visit_star_expr (node : NL) :
  (height node <= bound)%nat -> terminates (visit_star_expr self node).
Proof. intro Hnode. unfold visit_star_expr. returns_now. Qed.

Lemma terminates_visit_not_test (node : NL) :
  (height node <= bound)%nat -> terminates (visit_not_test self node).
Proof. intro Hnode. unfold visit_not_test. returns_now. Qed.

Lemma terminates_visit_and_test (node : NL) :
  (height node <= bound)%nat -> terminates (visit_and_test self node).
Proof. intro Hnode. unfold visit_and_test, bool_operands. returns_now. Qed.

Lemma terminates_visit_or_test (node : NL) :
  (height node <= bound)%nat -> terminates (visit_or_test self node).
Proof. intro Hnode. unfold visit_or_test, bool_operands. returns_now. Qed.

Lemma terminates_visit_test (node : NL) :
  (height node <= bound)%nat -> terminates (visit_test self node).
Proof. intro Hnode. unfold visit_test, assert_value. returns_now. Qed.

Lemma terminates_visit_factor (node : NL) :
  (height node <= bound)%nat -> terminates (visit_factor self node).
Proof. intro Hnode. unfold visit_factor. returns_now. Qed.

Lemma terminates_compile_argument (node parent argument : NL)
  (acc : list AST * list AST) :
  (height node < bound)%nat ->
  (height argument < bound)%nat ->
  terminates (compile_argument env self node parent argument acc).
Proof.
  intros Hnode Hargument. unfold compile_argument.
  returns_using
    ltac:(idtac;
          match goal with
          | |- terminates (_compile_named_expr _ _) =>
              apply terminates_compile_named_expr; intros ? ?; heights
          end).
Qed.

Lemma terminates_compile_arglist (node parent : NL) :
  (height node < bound)%nat ->
  terminates (_compile_arglist env self node parent).
Proof.
  intro Hnode. unfold _compile_arglist. apply terminates_for_each.
  intros argument acc Hin. apply terminates_compile_argument; heights.
Qed.

Lemma terminates_visit_power_without_await (children : list NL) :
  (forall c, List.In c children -> (height c < bound)%nat) ->
  terminates (_visit_power_without_await env self children).
Proof.
  intro Hchildren. unfold _visit_power_without_await.
  returns_using
    ltac:(idtac;
          match goal with
          | |- terminates (_compile_arglist _ _ _ _) =>
              apply terminates_compile_arglist; heights
          end).
Qed.

Lemma terminates_visit_power_without_power (children : list NL) :
  (forall c, List.In c children -> (height c < bound)%nat) ->
  terminates (_visit_power_without_power env self children).
Proof.
  intro Hchildren. unfold _visit_power_without_power.
  returns_using
    ltac:(idtac;
          match goal with
          | |- terminates (_visit_power_without_await _ _ _) =>
              apply terminates_visit_power_without_await; intros ? ?; heights
          end).
Qed.

Lemma terminates_visit_power (node : NL) :
  (height node <= bound)%nat -> terminates (visit_power env self node).
Proof.
  intro Hnode. unfold visit_power.
  returns_using
    ltac:(idtac;
          match goal with
          | |- terminates (_visit_power_without_power _ _ _) =>
              apply terminates_visit_power_without_power; intros ? ?; heights
          end).
Qed.

Lemma terminates_compile_comprehension (node : NL) :
  (height node <= bound)%nat ->
  terminates (_compile_comprehension env self node).
Proof. intro Hnode. unfold _compile_comprehension. returns_now. Qed.

Lemma terminates_compile_comp_iter (node : NL) :
  (height node <= bound)%nat ->
  terminates (self_compile_comprehension self node) ->
  terminates (_compile_comp_iter self node).
Proof.
  intros Hnode Hclause. unfold _compile_comp_iter.
  returns_using ltac:(exact Hclause).
Qed.

Lemma terminates_visit_subscriptlist (node : NL) :
  (height node <= bound)%nat -> terminates (visit_subscriptlist self node).
Proof. intro Hnode. unfold visit_subscriptlist. returns_now. Qed.

Lemma terminates_leaves (leaf : NL) :
  terminates (@visit_NAME literal leaf)
  /\ terminates (visit_NUMBER env leaf)
  /\ terminates (visit_STRING env leaf)
  /\ terminates (@visit_COLON literal leaf).
Proof.
  unfold visit_NAME, visit_NUMBER, visit_STRING, visit_COLON.
  repeat split; returns_now.
Qed.

Ltac split_consume_in H :=
  match type of H with
  | context [consume ?c ?t] =>
      let o := fresh "o" in
      let c' := fresh "c" in
      let E := fresh "E" in
      let Ec := fresh "Ec" in
      destruct (consume c t) as [o c'] eqn:E;
      apply consume_In in E; destruct E as [Ec _];
      cbn [new_Consumer c_children] in Ec;
      try match goal with
          | H' : c_children c = _ |- _ => rewrite H' in Ec
          end
  end.

Ltac invert_returns H :=
  repeat match type of H with
         | returns (ret _) _ => apply returns_ret in H
         | returns (bind _ _) _ =>
             apply returns_bind in H; destruct H as (? & _ & H)
         end.

Lemma terminates_visit_subscript (node : NL) :
  (height node <= bound)%nat -> terminates (visit_subscript env self node).
Proof.
  intro Hnode. unfold visit_subscript, visit_sliceop.
  apply terminates_bind; [returns_now |]. intros is_walrus _.
  destruct is_walrus.
  { apply terminates_compile_named_expr. intros ? ?. heights. }
  split_consume.
  apply terminates_bind; [returns_now |].
  intros [lower c'] Hret.
  assert (Hc' : c_children c' = children_of node).
  { destruct o.
    - invert_returns Hret. injection Hret as _ <-. assumption.
    - repeat split_consume_in Hret. invert_returns Hret.
      injection Hret as _ <-. assumption. }
  returns_now.
Qed.

Lemma terminates_getattr_visit (name : string) (node : NL) :
  (height node <= bound)%nat ->
  terminates (getattr_visit env self name node).
Proof.
  intro Hnode. unfold getattr_visit, visit_methods. cbn [find fst snd].
  repeat match goal with
         | |- context [String.eqb ?a name] => destruct (String.eqb a name)
         end;
    first
      [ apply terminates_visit_typevar | apply terminates_visit_paramspec
      | apply terminates_visit_typevartuple | apply terminates_visit_typeparam
      | apply terminates_visit_file_input | apply terminates_visit_simple_stmt
      | apply terminates_visit_testlist_gexp | apply terminates_visit_atom
      | apply terminates_visit_expr | apply terminates_visit_comparison
      | apply terminates_visit_star_expr | apply terminates_visit_not_test
      | apply terminates_visit_and_test | apply terminates_visit_or_test
      | apply terminates_visit_test | apply terminates_visit_factor
      | apply terminates_visit_power | apply terminates_visit_subscript
      | apply terminates_visit_subscriptlist
      | apply terminates_leaves
      | apply terminates_generic_visit ];
    exact Hnode.
Qed.

Lemma terminates_visit (node : NL) :
  (height node <= bound)%nat -> terminates (visit env self node).
Proof.
  intro Hnode. unfold visit.
  apply terminates_bind; [apply terminates_lift, quiet_get_node_name |].
  intros name _. apply terminates_getattr_visit. exact Hnode.
Qed.

End Returns.

(** The three methods through which lowering recurses, at one depth. *)
Definition returns_at {literal} (env : Env literal) (d : nat) (node : NL)
  : Prop :=
  terminates (self_visit (Compiler env d) node)
  /\ terminates (self_compile_comprehension (Compiler env d) node)
  /\ terminates (self_compile_comp_iter (Compiler env d) node).

Lemma compiler_returns_step (literal : Type) (env : Env literal) (h : nat) :
  (forall text, quiet (literal_eval env text)) ->
  (forall c d, (height c < h)%nat -> (2 * h <= d)%nat -> returns_at env d c) ->
  forall node d,
    (height node <= h)%nat -> (2 * h + 2 <= d)%nat -> returns_at env d node.
Proof.
  intros Hquiet IH node d Hnode Hd.
  destruct d as [| [| d]]; [lia | lia |].
  assert (Hbelow : forall d', (2 * h <= d')%nat ->
            terminates (_compile_comprehension env (Compiler env d') node)).
  { intros d' Hd'.
    apply terminates_compile_comprehension with (bound := h);
      try exact Hnode; intros c Hc; apply IH; assumption. }
  split; [| split].
  - change (terminates (visit env (Compiler env (S d)) node)).
    apply terminates_visit with (bound := h);
      try assumption; intros c Hc; apply IH; (assumption || lia).
  - apply Hbelow. lia.
  - change (terminates (_compile_comp_iter (Compiler env (S d)) node)).
    apply terminates_compile_comp_iter with (bound := h);
      try assumption; try (intros c Hc; apply IH; (assumption || lia)).
    apply Hbelow. lia.
Qed.

Lemma compiler_returns (literal : Type) (env : Env literal) :
  (forall text, quiet (literal_eval env text)) ->
  forall h node d,
    (height node <= h)%nat -> (2 * h + 2 <= d)%nat -> returns_at env d node.
Proof.
  intros Hquiet. induction h as [| h IH].
  - apply compiler_returns_step; [exact Hquiet |]. intros c d Hc. lia.
  - apply compiler_returns_step; [exact Hquiet |].
    intros c d Hc Hd. apply (IH c d); lia.
Qed.

(** X27. Lowering returns: with calls allowed to nest twice as deep as the
    tree is high, and two more, [visit] does not end in [RecursionError],
    whatever the tree and the context; and from that depth on the outcome is
    the same at every depth. So the outcome of the source, which has no
    depth of its own, is the outcome of the compiler at any such depth.
    [ast.literal_eval] must not itself raise [RecursionError]. *)
Theorem lowering_returns (literal : Type) (env : Env literal) (node : NL)
  (d d' : nat) (s : expr_context) :
  (forall text, literal_eval env text <> throw RecursionError) ->
  (2 * height node + 2 <= d)%nat ->
  (2 * height node + 2 <= d')%nat ->
  fst (self_visit (Compiler env d) node s) <> inl RecursionError
  /\ self_visit (Compiler env d) node s = self_visit (Compiler env d') node s.
Proof.
  intros Hquiet Hd Hd'.
  assert (Hreturns : forall n, (2 * height node + 2 <= n)%nat ->
            fst (self_visit (Compiler env n) node s) <> inl RecursionError).
  { intros n Hn.
    apply (proj1 (@compiler_returns literal env Hquiet (height node) node n
                    (Nat.le_refl _) Hn)). }
  split; [apply Hreturns, Hd |].
  destruct (Nat.le_ge_cases d d') as [Hle | Hle].
  - destruct (self_visit (Compiler env d) node s) as [r s1] eqn:Hrun.
    symmetry. eapply compiler_deeper; [exact Hle | exact Hrun |].
    specialize (Hreturns d Hd). rewrite Hrun in Hreturns. exact Hreturns.
  - destruct (self_visit (Compiler env d') node s) as [r s1] eqn:Hrun.
    eapply compiler_deeper; [exact Hle | exact Hrun |].
    specialize (Hreturns d' Hd'). rewrite Hrun in Hreturns. exact Hreturns.
Qed.

(** ** Operator chains that go wrong *)

(** An even bound gives the indices of the odd bound below it. *)
Lemma range_by2_aux_even (m n n' : nat) (a : Z) :
  (m <= n)%nat -> (m <= n')%nat ->
  range_by2_aux n a (a + 2 * Z.of_nat m)
  = range_by2_aux n' a (a + 2 * Z.of_nat m - 1).
Proof.
  revert n n' a. induction m as [| m IH]; intros n n' a Hn Hn'.
  - replace (range_by2_aux n a (a + 2 * Z.of_nat 0)) with (@nil Z).
    2:{ destruct n; cbn [range_by2_aux]; [reflexivity |].
        replace (a <? a + 2 * Z.of_nat 0) with false
          by (symmetry; apply Z.ltb_ge; lia).
        reflexivity. }
    destruct n'; cbn [range_by2_aux]; [reflexivity |].
    replace (a <? a + 2 * Z.of_nat 0 - 1) with false
      by (symmetry; apply Z.ltb_ge; lia).
    reflexivity.
  - destruct n as [| n]; [lia |]. destruct n' as [| n']; [lia |].
    cbn [range_by2_aux].
    replace (a <? a + 2 * Z.of_nat (S m)) with true
      by (symmetry; apply Z.ltb_lt; lia).
    replace (a <? a + 2 * Z.of_nat (S m) - 1) with true
      by (symmetry; apply Z.ltb_lt; lia).
    f_equal.
    replace (a + 2 * Z.of_nat (S m)) with (a + 2 + 2 * Z.of_nat m) by lia.
    apply IH; lia.
Qed.

Lemma range_by2_chain_dangling (A : Type) (chain : list A) (opnode : A) :
  Nat.odd (List.length chain) = true ->
  range_by2 2 (len (chain ++ [opnode])) = range_by2 2 (len chain).
Proof.
  intros Hodd. apply Nat.odd_spec in Hodd. destruct Hodd as [k Hk].
  rewrite len_app. change (len [opnode]) with 1.
  assert (Hlen : len chain = 2 + 2 * Z.of_nat k - 1) by (unfold len; lia).
  rewrite Hlen. unfold range_by2.
  replace (2 + 2 * Z.of_nat k - 1 + 1) with (2 + 2 * Z.of_nat k) by lia.
  apply range_by2_aux_even; lia.
Qed.

Section ChainEdges.
Variable literal : Type.
Variable self : Self literal.

Local Notation AST := (AST literal).

(** X28. Where an operator chain goes wrong. In [visit_expr], a token that
    is not in the table of binary operators raises [KeyError] once the chain
    before it is lowered, and the operand after it is not lowered; an
    operand that raises ends the chain with its exception; an operator at
    the end, with no operand after it, is not looked at. In
    [visit_comparison] an operand that does not lower to an expression fails
    an assertion. *)
Theorem chain_edges (t t' : Z) (chain : list NL) (opnode child first : NL)
  (left : AST) (s s1 : expr_context) :
  Nat.odd (List.length chain) = true ->
  (getitem chain 0 = ok first ->
   visit_expr self (Node t chain) s = (inr left, s1) ->
   (TOKEN_TYPE_TO_BINOP (type_of opnode) = throw KeyError ->
    visit_expr self (Node t' (chain ++ [opnode; child])) s
    = (inl KeyError, s1))
   /\ (forall binop e s2,
          TOKEN_TYPE_TO_BINOP (type_of opnode) = ok binop ->
          self_visit self child s1 = (inl e, s2) ->
          visit_expr self (Node t' (chain ++ [opnode; child])) s
          = (inl e, s2)))
  /\ visit_expr self (Node t' (chain ++ [opnode])) s
     = visit_expr self (Node t chain) s
  /\ (forall l ops comparators r0 op right s2,
         visit_comparison self (Node t chain) s
         = (inr (Compare l ops comparators r0), s1) ->
         compare_operator opnode = ok op ->
         self_visit self child s1 = (inr right, s2) ->
         is_expr right = false ->
         visit_comparison self (Node t' (chain ++ [opnode; child])) s
         = (inl AssertionError, s2)).
Proof.
  intros Hodd.
  assert (Hlen : 1 <= len chain).
  { unfold len. destruct chain; [discriminate |]. simpl List.length. lia. }
  split; [| split].
  - intros Hfirst Hchain.
    assert (Hlink :
              forall e s2,
                match TOKEN_TYPE_TO_BINOP (type_of opnode) with
                | inl e' => (@inl exn unit e', s1)
                | inr _ =>
                    let (r, s') := self_visit self child s1 in
                    (match r with
                     | inl e' => inl e'
                     | inr _ => inr tt
                     end, s')
                end = (inl e, s2) ->
                visit_expr self (Node t' (chain ++ [opnode; child])) s
                = (inl e, s2)).
    { intros e s2 Hstep.
      unfold visit_expr in *. cbn [children_of] in *.
      rewrite getitem_app_l by lia. rewrite Hfirst in *.
      rewrite run_bind_lift_ok in *.
      unfold bind at 1. unfold bind at 1 in Hchain.
      destruct (self_visit self first s) as [[e0 | op0] s0]; [discriminate |].
      rewrite run_bind_lift_ok in *.
      unfold bind at 1, lift at 1. unfold bind at 1, lift at 1 in Hchain.
      destruct (get_line_range first) as [e0 | rb]; [discriminate |].
      rewrite range_by2_chain_snoc by exact Hodd.
      eapply for_each_raises_at.
      - etransitivity; [| exact Hchain]. apply for_each_ext_in.
        intros i Hi acc s'. apply range_by2_bounds in Hi.
        rewrite !getitem_app_l by lia. reflexivity.
      - unfold bind, lift, ret.
        rewrite (@getitem_app_r _ chain [opnode; child] 1) by lia.
        replace (len chain + 1 - 1) with (len chain + 0) by lia.
        rewrite (@getitem_app_r _ chain [opnode; child] 0) by lia.
        change (getitem [opnode; child] 1) with (ok child).
        change (getitem [opnode; child] 0) with (ok opnode).
        unfold ok at 1 2. cbv beta iota.
        destruct (TOKEN_TYPE_TO_BINOP (type_of opnode)) as [e' | binop].
        + injection Hstep as <- <-. reflexivity.
        + destruct (self_visit self child s1) as [[e' | right] s'];
            [| discriminate].
          injection Hstep as <- <-. reflexivity. }
    split.
    + intro Hop. apply Hlink. rewrite Hop. reflexivity.
    + intros binop e s2 Hop Hright. apply Hlink. rewrite Hop, Hright.
      reflexivity.
  - unfold visit_expr. cbn [children_of].
    rewrite getitem_app_l by lia.
    rewrite range_by2_chain_dangling by exact Hodd.
    unfold bind, lift.
    destruct (getitem chain 0) as [e | c0]; [reflexivity |].
    destruct (self_visit self c0 s) as [[e | op0] s0]; [reflexivity |].
    destruct (get_line_range c0) as [e | rb]; [reflexivity |].
    apply for_each_ext_in.
    intros i Hi acc s'. apply range_by2_bounds in Hi.
    rewrite !getitem_app_l by lia. reflexivity.
  - intros l ops comparators r0 op right s2 Hchain Hop Hright Hexpr.
    unfold visit_comparison in *. cbn [children_of] in *.
    rewrite getitem_app_l by lia.
    destruct (getitem chain 0) as [e | c0]; [discriminate |].
    rewrite run_bind_lift_ok in *.
    unfold bind at 1. unfold bind at 1 in Hchain.
    destruct (self_visit self c0 s) as [[e | left0] s0]; [discriminate |].
    unfold bind at 1. unfold bind at 1 in Hchain.
    rewrite range_by2_chain_snoc by exact Hodd.
    match type of Hchain with
    | context [for_each ?R ?body ?acc s0] =>
        destruct (for_each R body acc s0) as [[e | [ops0 comparators0]] s1']
          eqn:Hloop; [discriminate |]
    end.
    unfold bind at 1, lift at 1 in Hchain.
    destruct (get_line_range (Node t chain)) as [e | r0']; [discriminate |].
    injection Hchain as -> -> -> -> ->.
    erewrite for_each_raises_at; [reflexivity | |].
    + etransitivity; [| exact Hloop]. apply for_each_ext_in.
      intros i Hi [ops' comparators'] s'. apply range_by2_bounds in Hi.
      rewrite !getitem_app_l by lia. reflexivity.
    + cbv beta iota. unfold bind, lift, ret.
      rewrite (@getitem_app_r _ chain [opnode; child] 1) by lia.
      replace (len chain + 1 - 1) with (len chain + 0) by lia.
      rewrite (@getitem_app_r _ chain [opnode; child] 0) by lia.
      change (getitem [opnode; child] 1) with (ok child).
      change (getitem [opnode; child] 0) with (ok opnode).
      unfold ok at 1 2. rewrite Hop, Hright, Hexpr. reflexivity.
Qed.

End ChainEdges.

(* ===================================================================== *)
(** * Part 6. More examples                                              *)
(* ===================================================================== *)

Section MoreExamples.
Import Grammar.

(** [a], lowered by a compiler that may nest deeper than it needs to. *)
Lemma outcome_independent_of_depth_witness :
  self_visit (Compiler py312 8) tree_a Load
  = (inr (Module [Expr (name_node "a" Load 0) (cols 0 1)] []
                 (mkLineRange 1 0 2 0)),
     Load).
Proof.
  apply (@outcome_independent_of_depth string py312 3 8 tree_a _ Load Load).
  - apply Nat.leb_le. reflexivity.
  - reflexivity.
  - discriminate.
Defined.

(** [T = int] under 3.11. *)
Lemma type_parameters_gated_witness :
  visit_typevar (env (3, 11)) (Compiler (env (3, 11)) 1) typevar_with_default
    Load
  = (inl (UnsupportedSyntaxError "TypeVar"), Load).
Proof.
  exact (proj1 (@type_parameters_gated string (env (3, 11))
                  (Compiler (env (3, 11)) 1) typevar_with_default Load
                  eq_refl)).
Defined.

(** [T: int = str] under 3.13. *)
Lemma typevar_bound_and_default_witness :
  visit_typevar py313 (Compiler py313 1)
    (node "typevar"
       [ name_leaf "T" 0; tok token.COLON ":" 1; name_leaf "int" 3;
         tok token.EQUAL "=" 7; name_leaf "str" 9 ])
    Load
  = (inr (TypeVar "T" (Some (name_node "int" Load 3))
                  (Some (name_node "str" Load 9)) (cols 0 12)),
     Load).
Proof.
  apply (proj1 (@typevar_bound_and_default string py313 (Compiler py313 1)
                  (node "typevar"
                     [ name_leaf "T" 0; tok token.COLON ":" 1;
                       name_leaf "int" 3; tok token.EQUAL "=" 7;
                       name_leaf "str" 9 ])
                  (name_leaf "T" 0) (tok token.COLON ":" 1)
                  (name_leaf "int" 3) (tok token.EQUAL "=" 7)
                  (name_leaf "str" 9) "T" (name_node "int" Load 3)
                  (name_node "str" Load 9) (cols 0 12) Load Load Load
                  eq_refl eq_refl eq_refl eq_refl eq_refl));
    reflexivity.
Defined.

(** [a.b] *)
Lemma postfix_chain_left_nested_witness :
  _visit_power_without_await py312 (Compiler py312 1)
    ([ name_leaf "a" 0 ]
     ++ [ node "trailer" [ tok token.DOT "." 1; name_leaf "b" 2 ] ])
    Load
  = (inr (Attribute (name_node "a" Load 0) "b" Load (cols 0 3)), Load).
Proof.
  apply (proj1 (@postfix_chain_left_nested string py312 (Compiler py312 1)
                  [ name_leaf "a" 0 ] (name_leaf "a" 0)
                  (name_node "a" Load 0) (cols 0 1) Load Load
                  eq_refl eq_refl eq_refl))
    with (rn := cols 2 3);
    reflexivity.
Defined.

(** [a ** b] *)
Lemma power_lowers_exponent_first_witness :
  visit_power py312 (Compiler py312 1)
    (node "power"
       ([ name_leaf "a" 0 ]
        ++ [ tok token.DOUBLESTAR "**" 2; name_leaf "b" 5 ]))
    Load
  = (inr (BinOp (name_node "a" Load 0) Pow (name_node "b" Load 5) (cols 0 6)),
     Load).
Proof.
  assert (Hbase : [ name_leaf "a" 0 ] <> []) by discriminate.
  apply (proj1 (@power_lowers_exponent_first string py312 (Compiler py312 1)
                  (sym "power") [ name_leaf "a" 0 ]
                  (tok token.DOUBLESTAR "**" 2) (name_leaf "b" 5) Load
                  Hbase eq_refl))
    with (s1 := Load);
    reflexivity.
Defined.

(** [await a] *)
Lemma await_wraps_the_chain_witness :
  _visit_power_without_power py312 (Compiler py312 1)
    [ tok token.AWAIT "await" 0; name_leaf "a" 6 ] Load
  = (inr (Await (name_node "a" Load 6) (cols 0 7)), Load).
Proof.
  apply (@await_wraps_the_chain string py312 (Compiler py312 1)
           (tok token.AWAIT "await" 0) [ name_leaf "a" 6 ] (name_leaf "a" 6)
           (name_node "a" Load 6) (cols 0 5) (cols 6 7) Load Load);
    reflexivity.
Defined.

(** [a:b] between the brackets of a subscript. *)
Lemma slice_shapes_witness :
  visit_subscript py312 (Compiler py312 1)
    (node "subscript"
       [ name_leaf "a" 0; tok token.COLON ":" 1; name_leaf "b" 2 ])
    Load
  = (inr (Slice (Some (name_node "a" Load 0)) (Some (name_node "b" Load 2))
                None (cols 0 3)),
     Load).
Proof.
  assert (Hlower : type_of (name_leaf "a" 0) <> token.COLON) by discriminate.
  assert (Hupper : type_of (name_leaf "b" 2) <> token.COLON) by discriminate.
  assert (Hupper' : type_of (name_leaf "b" 2) <> sliceop (syms py312))
    by discriminate.
  assert (Hsym : 256 <= sliceop (syms py312)) by discriminate.
  apply (proj1 (proj2 (proj2
           (@slice_shapes string py312 (Compiler py312 1) (sym "subscript")
              (tok token.COLON ":" 1) (name_leaf "a" 0) (name_leaf "b" 2)
              (name_node "a" Load 0) (name_node "b" Load 2) Load Load Load
              eq_refl Hlower Hupper Hupper' Hsym eq_refl))));
    reflexivity.
Defined.

(** [-a] *)
Lemma unary_operators_witness :
  visit_factor (Compiler py312 1)
    (node "factor" [ tok token.MINUS "-" 0; name_leaf "a" 1 ]) Load
  = (inr (UnaryOp USub (name_node "a" Load 1) (cols 0 2)), Load).
Proof.
  apply (proj1 (@unary_operators string (Compiler py312 1)
                  (node "factor" [ tok token.MINUS "-" 0; name_leaf "a" 1 ])
                  (tok token.MINUS "-" 0) (name_leaf "a" 1) Load eq_refl)
               (name_node "a" Load 1) (cols 0 2) Load eq_refl eq_refl).
  reflexivity.
Defined.

(** [(a)] has the range of [a]. *)
Lemma parenthesized_atoms_witness :
  visit_atom py312 (Compiler py312 1)
    (node "atom"
       [ tok token.LPAR "(" 0; name_leaf "a" 1; tok token.RPAR ")" 2 ])
    Load
  = (inr (name_node "a" Load 1), Load).
Proof.
  apply (proj1 (proj2
           (@parenthesized_atoms string py312 (Compiler py312 1)
              (node "atom"
                 [ tok token.LPAR "(" 0; name_leaf "a" 1;
                   tok token.RPAR ")" 2 ])
              (tok token.LPAR "(" 0) (tok token.RPAR ")" 2) Load eq_refl))
           (name_leaf "a" 1)).
  - reflexivity.
  - discriminate.
Defined.

(** [{a, b}] *)
Definition set_display : NL :=
  node "atom"
    [ tok token.LBRACE "{" 0;
      node "dictsetmaker"
        [ name_leaf "a" 1; tok token.COMMA "," 2; name_leaf "b" 4 ];
      tok token.RBRACE "}" 5 ].

Lemma set_display_is_brace_atom :
  brace_atom py312 set_display
    (node "dictsetmaker"
       [ name_leaf "a" 1; tok token.COMMA "," 2; name_leaf "b" 4 ])
    [ name_leaf "a" 1; tok token.COMMA "," 2; name_leaf "b" 4 ].
Proof.
  exists (tok token.LBRACE "{" 0), [ tok token.RBRACE "}" 5 ].
  repeat split. discriminate.
Defined.

Lemma brace_literals_witness :
  visit_atom py312 (Compiler py312 1) set_display Load
  = (inr (Set_ [name_node "a" Load 1; name_node "b" Load 4] Load (cols 0 6)),
     Load).
Proof.
  assert (Hfor : 256 <= comp_for (syms py312)) by discriminate.
  assert (Hstar : 256 <= star_expr (syms py312)) by discriminate.
  apply (proj1 (@brace_literals string py312 (Compiler py312 1) set_display
                  (node "dictsetmaker"
                     [ name_leaf "a" 1; tok token.COMMA "," 2;
                       name_leaf "b" 4 ])
                  Load Hfor Hstar)
               (name_leaf "a" 1) (tok token.COMMA "," 2) (name_leaf "b" 4)
               (name_node "a" Load 1) (name_node "b" Load 4) (cols 0 6)
               Load Load set_display_is_brace_atom);
    try reflexivity; discriminate.
Defined.

(** [{*a, b}] *)
Definition starred_set_display : NL :=
  node "atom"
    [ tok token.LBRACE "{" 0;
      node "dictsetmaker"
        [ node "star_expr" [ tok token.STAR "*" 1; name_leaf "a" 2 ];
          tok token.COMMA "," 3; name_leaf "b" 5 ];
      tok token.RBRACE "}" 6 ].

Lemma starred_set_display_is_brace_atom :
  brace_atom py312 starred_set_display
    (node "dictsetmaker"
       [ node "star_expr" [ tok token.STAR "*" 1; name_leaf "a" 2 ];
         tok token.COMMA "," 3; name_leaf "b" 5 ])
    (node "star_expr" [ tok token.STAR "*" 1; name_leaf "a" 2 ]
     :: tok token.COMMA "," 3 :: [ name_leaf "b" 5 ]).
Proof.
  exists (tok token.LBRACE "{" 0), [ tok token.RBRACE "}" 6 ].
  repeat split. discriminate.
Defined.

Lemma starred_item_then_comma_witness :
  visit_atom py312 (Compiler py312 1) starred_set_display Load
  = (inl (NotImplementedError "visit_COMMA"), Load).
Proof.
  assert (Hstar : 256 <= star_expr (syms py312)) by discriminate.
  exact (@starred_item_then_comma string py312 0 starred_set_display _ _ _ _
           Load starred_set_display_is_brace_atom eq_refl Hstar eq_refl
           eq_refl).
Defined.

(** [[a for x in y]] *)
Definition old_for_x_in_y (col : Z) : NL :=
  node "old_comp_for"
    [ name_leaf "for" col; name_leaf "x" (col + 4); name_leaf "in" (col + 6);
      name_leaf "y" (col + 9) ].

Definition list_comprehension : NL :=
  node "atom"
    [ tok token.LSQB "[" 0;
      node "listmaker" [ name_leaf "a" 1; old_for_x_in_y 3 ];
      tok token.RSQB "]" 13 ].

Lemma bracketed_comprehensions_witness :
  visit_atom py312 (Compiler py312 2) list_comprehension Load
  = (inr (ListComp (name_node "a" Load 1) [x_in_y 3] (cols 0 14)), Load).
Proof.
  apply (proj1 (@bracketed_comprehensions string py312 (Compiler py312 2)
                  list_comprehension (tok token.LSQB "[" 0)
                  (node "listmaker" [ name_leaf "a" 1; old_for_x_in_y 3 ])
                  (tok token.RSQB "]" 13) (name_leaf "a" 1)
                  (old_for_x_in_y 3) (name_node "a" Load 1) [x_in_y 3]
                  (cols 0 14) Load Load Load
                  eq_refl eq_refl eq_refl eq_refl eq_refl eq_refl eq_refl));
    reflexivity.
Defined.

(** [a] again: its tree is two nodes high. *)
Lemma lowering_returns_witness :
  fst (self_visit (Compiler py312 6) tree_a Load) <> inl RecursionError
  /\ self_visit (Compiler py312 6) tree_a Load
     = self_visit (Compiler py312 9) tree_a Load.
Proof.
  apply (@lowering_returns string py312 tree_a 6 9 Load).
  - intro text. discriminate.
  - apply Nat.leb_le. reflexivity.
  - apply Nat.leb_le. reflexivity.
Defined.

(** [a ~ b]: the tilde is no binary operator. *)
Lemma chain_edges_witness :
  visit_expr (Compiler py312 1)
    (node "arith_expr"
       ([ name_leaf "a" 0 ] ++ [ tok token.TILDE "~" 2; name_leaf "b" 4 ]))
    Load
  = (inl KeyError, Load).
Proof.
  apply (proj1 (proj1 (@chain_edges string (Compiler py312 1)
                         (sym "arith_expr") (sym "arith_expr")
                         [ name_leaf "a" 0 ] (tok token.TILDE "~" 2)
                         (name_leaf "b" 4) (name_leaf "a" 0)
                         (name_node "a" Load 0) Load Load eq_refl)
                      eq_refl eq_refl)).
  reflexivity.
Defined.

End MoreExamples.
